(** * Urban Dictionary scraper: a shallow embedding and its properties

    The development follows [src/data/urban_dictionary_scraper.py].

    - Python [str] values are Rocq [string]s; a character is a code point
      below 256 and the character classes ([str.isspace], [str.lower],
      [str.isdigit], the regular-expression classes [\w], [\s], [\d]) are
      the ones Python uses on that range.
    - Python [int] values are [Z].
    - [set] is stdpp's [gset], the file system is a [gmap] from paths to
      the rows written so far.
    - Selenium, the process pool, the clock and the terminal are the
      environment: they appear as explicit arguments (the texts an element
      yields for a selector, the order in which futures complete, the
      point at which the user presses Ctrl-C).  Sleeping has no effect
      on any value and is left out.
    - The log is left out as well: every run writes its log lines to the
      terminal and appends them to the file [log_file] (the
      [FileHandler] of lines 33-40), and [os.makedirs] of line 298 may
      create the directory of the output.  The file map of the model
      holds the files that [save_to_csv] opens; what is proved about
      files is said of paths other than [log_file].
    - The module [Clean] follows the functions of
      [src/data/clean_urban_data.py] that take the documents to MongoDB
      ([format_output], [verify_data_structure],
      [check_vector_search_capability], [create_fallback_indexes],
      [save_to_mongodb]).  The server is the environment: a function from
      the calls made so far and the next call to the exception that call
      raises, if it raises. *)

From Stdlib Require Import Ascii String NArith ZArith.
From stdpp Require Import gmap strings list fin_maps pretty.

Local Open Scope string_scope.
Local Open Scope list_scope.
Local Open Scope Z_scope.

(** ** Python strings *)

Module Py.

Definition ord (c : ascii) : N := N_of_ascii c.

Definition between (lo hi : N) (c : ascii) : bool :=
  ((lo <=? ord c) && (ord c <=? hi))%N.

(** [str.isspace] on one character: TAB..CR, FS..US, space, NEL, NBSP. *)
Definition isspace (c : ascii) : bool :=
  between 9 13 c || between 28 32 c || between 133 133 c || between 160 160 c.

(** Characters with the Unicode property Nd ([\d], and what [int] reads). *)
Definition isdecimal (c : ascii) : bool := between 48 57 c.

(** [str.isdigit] on one character: also the superscripts 1, 2 and 3. *)
Definition isdigit_char (c : ascii) : bool :=
  isdecimal c || between 178 179 c || between 185 185 c.

Definition isalpha (c : ascii) : bool :=
  between 65 90 c || between 97 122 c || between 170 170 c
  || between 181 181 c || between 186 186 c || between 192 214 c
  || between 216 246 c || between 248 255 c.

(** [str.isalnum] on one character (letters and every numeric character). *)
Definition isalnum (c : ascii) : bool :=
  isalpha c || isdigit_char c || between 188 190 c.

Definition lower_char (c : ascii) : ascii :=
  if between 65 90 c || between 192 214 c || between 216 222 c
  then ascii_of_N (ord c + 32) else c.

(** [s.lower()] *)
Fixpoint lower (s : string) : string :=
  match s with
  | EmptyString => EmptyString
  | String c s' => String (lower_char c) (lower s')
  end.

Fixpoint lstrip_by (p : ascii -> bool) (s : string) : string :=
  match s with
  | EmptyString => EmptyString
  | String c s' => if p c then lstrip_by p s' else s
  end.

Fixpoint rstrip_by (p : ascii -> bool) (s : string) : string :=
  match s with
  | EmptyString => EmptyString
  | String c s' =>
      match rstrip_by p s' with
      | EmptyString => if p c then EmptyString else String c EmptyString
      | r => String c r
      end
  end.

(** [s.strip()] *)
Definition strip (s : string) : string := rstrip_by isspace (lstrip_by isspace s).

Fixpoint mem_char (c : ascii) (chars : string) : bool :=
  match chars with
  | EmptyString => false
  | String d chars' => if Ascii.eqb c d then true else mem_char c chars'
  end.

(** [s.strip(chars)] *)
Definition strip_chars (chars s : string) : string :=
  rstrip_by (fun c => mem_char c chars) (lstrip_by (fun c => mem_char c chars) s).

(** [bool(s)]: a string is true when it is not empty. *)
Definition truthy (s : string) : bool :=
  match s with EmptyString => false | _ => true end.

(** [s.startswith(p)] *)
Definition startswith (p s : string) : bool := String.prefix p s.

(** [s.replace(old, new)].  The occurrences of [old] are found from the
    left and do not overlap; [skip] counts the characters of an occurrence
    that are still to be dropped.  With an empty [old] Python puts [new]
    around every character. *)
Fixpoint replace_go (old new : string) (skip : nat) (s : string) : string :=
  match s with
  | EmptyString => EmptyString
  | String c s' =>
      match skip with
      | S k => replace_go old new k s'
      | O =>
          if String.prefix old s
          then new +:+ replace_go old new (String.length old - 1) s'
          else String c (replace_go old new 0 s')
      end
  end.

Fixpoint intersperse (new s : string) : string :=
  match s with
  | EmptyString => new
  | String c s' => new +:+ String c (intersperse new s')
  end.

Definition replace (old new s : string) : string :=
  match old with
  | EmptyString => intersperse new s
  | _ => replace_go old new 0 s
  end.

(** [s.split(sep)] for a non-empty [sep]: the pieces between the
    occurrences of [sep], always at least one piece. *)
Fixpoint split_go (sep : string) (skip : nat) (cur s : string) : list string :=
  match s with
  | EmptyString => [cur]
  | String c s' =>
      match skip with
      | S k => split_go sep k cur s'
      | O =>
          if String.prefix sep s
          then cur :: split_go sep (String.length sep - 1) EmptyString s'
          else split_go sep 0 (cur +:+ String c EmptyString) s'
      end
  end.

Definition split (sep s : string) : list string := split_go sep 0 EmptyString s.

(** [sep.join(l)] *)
Fixpoint join (sep : string) (l : list string) : string :=
  match l with
  | [] => EmptyString
  | [x] => x
  | x :: l' => x +:+ sep +:+ join sep l'
  end.

(** [s.isdigit()]: every character is a digit and there is at least one. *)
Definition isdigit (s : string) : bool :=
  truthy s && forallb isdigit_char (list_ascii_of_string s).

Definition digit_value (c : ascii) : Z := Z.of_N (ord c) - 48.

(** The digits of a decimal literal; single underscores may separate
    digits.  [prev] tells whether the previous character was a digit. *)
Fixpoint parse_digits (acc : Z) (prev : bool) (s : string) : option Z :=
  match s with
  | EmptyString => if prev then Some acc else None
  | String c s' =>
      if isdecimal c then parse_digits (10 * acc + digit_value c) true s'
      else if Ascii.eqb c "_" then (if prev then parse_digits acc false s' else None)
      else None
  end.

(** [int(s)] in base ten; [None] stands for [ValueError].  This is
    [int] on numerals of at most 4300 digits: beyond that limit
    ([sys.int_max_str_digits]) CPython 3.11 and later raise a
    [ValueError]; where a numeral is not bounded by what is shown on a
    page, the bound is a hypothesis. *)
Definition int (s : string) : option Z :=
  match strip s with
  | String "-" d => Z.opp <$> parse_digits 0 false d
  | String "+" d => parse_digits 0 false d
  | d => parse_digits 0 false d
  end.

(** [str(n)] for an integer, as an f-string field prints it. *)
Definition str (n : Z) : string := pretty n.

(** [len(l)] *)
Definition len {A} (l : list A) : Z := Z.of_nat (length l).

(** [range(start, stop, step)]; [None] stands for the [ValueError] of a
    zero step.  The number of elements is the one CPython computes. *)
Definition range3 (start stop step : Z) : option (list Z) :=
  if step =? 0 then None
  else
    let n := if 0 <? step then (stop - start + step - 1) / step
             else (start - stop - step - 1) / (- step) in
    Some ((fun i : nat => start + Z.of_nat i * step) <$> seq 0 (Z.to_nat n)).

(** [range(start, stop)] and [range(stop)] *)
Definition range2 (start stop : Z) : list Z :=
  (fun i : nat => start + Z.of_nat i) <$> seq 0 (Z.to_nat (stop - start)).

Definition range (stop : Z) : list Z := range2 0 stop.

(** A slice bound is counted from the end when negative and clamped to
    the list. *)
Definition clamp (n i : Z) : Z :=
  if i <? 0 then Z.max 0 (i + n) else Z.min i n.

(** [l[lo:hi]] *)
Definition slice {A} (l : list A) (lo hi : Z) : list A :=
  let lo' := clamp (len l) lo in
  let hi' := clamp (len l) hi in
  take (Z.to_nat (hi' - lo')) (drop (Z.to_nat lo') l).

End Py.

(** ** The regular expressions of [extract_date]

    [re.search] is a backtracking matcher: it tries the start positions
    from the left, a greedy quantifier takes as many characters as it can
    and gives them back one at a time when the rest of the pattern fails.
    The fragment below is the one the three date patterns use: character
    classes under a greedy quantifier, in sequence, with a non-capturing
    head and one capturing group at the end. *)

Module Re.

Inductive cls : Type :=
| Chr (c : ascii)        (* a literal character *)
| Word                   (* \w *)
| Space                  (* \s *)
| Digit                  (* \d *)
| Union (a b : cls).     (* [ab] *)

Fixpoint matches (k : cls) (c : ascii) : bool :=
  match k with
  | Chr d => Ascii.eqb c d
  | Word => Py.isalnum c || Ascii.eqb c "_"
  | Space => Py.isspace c
  | Digit => Py.isdecimal c
  | Union a b => matches a c || matches b c
  end.

(** [Rep k lo hi] is [k{lo,hi}], greedy; without [hi] there is no upper
    bound. *)
Inductive item : Type := Rep (k : cls) (lo : nat) (hi : option nat).

Definition one (k : cls) : item := Rep k 1 (Some 1%nat).
Definition plus (k : cls) : item := Rep k 1 None.

Record pattern : Type := Pattern { head : list item; group1 : list item }.

Definition exhausted (hi : option nat) : bool :=
  match hi with Some O => true | _ => false end.

Fixpoint rep (k : cls) (lo : nat) (hi : option nat) (s : string)
    (cont : string -> option string) : option string :=
  let stop := match lo with O => cont s | S _ => None end in
  match s with
  | EmptyString => stop
  | String c s' =>
      if matches k c && negb (exhausted hi) then
        match rep k (Nat.pred lo) (Nat.pred <$> hi) s' cont with
        | Some r => Some r
        | None => stop
        end
      else stop
  end.

Fixpoint items (l : list item) (s : string)
    (cont : string -> option string) : option string :=
  match l with
  | [] => cont s
  | Rep k lo hi :: l' => rep k lo hi s (fun s' => items l' s' cont)
  end.

(** A match that starts at the beginning of [s]; the result is the text
    of group 1. *)
Definition match_here (p : pattern) (s : string) : option string :=
  items (head p) s (fun s1 =>
    items (group1 p) s1 (fun s2 =>
      Some (String.substring 0 (String.length s1 - String.length s2) s1))).

(** [re.search(p, s)] followed by [.group(1)]; [None] when there is no
    match. *)
Fixpoint search (p : pattern) (s : string) : option string :=
  match match_here p s with
  | Some g => Some g
  | None =>
      match s with
      | EmptyString => None
      | String _ s' => search p s'
      end
  end.

End Re.

(** ** Field extraction *)

(** (?:by\s+[\w\s]+\s+) *)
Definition by_head : list Re.item :=
  [Re.one (Re.Chr "b"); Re.one (Re.Chr "y"); Re.plus Re.Space;
   Re.plus (Re.Union Re.Word Re.Space); Re.plus Re.Space].

Definition date_patterns : list Re.pattern :=
  [ (* Month DD, YYYY:  (\w+\s+\d{1,2},\s+\d{4}) *)
    Re.Pattern by_head
      [Re.plus Re.Word; Re.plus Re.Space; Re.Rep Re.Digit 1 (Some 2%nat);
       Re.one (Re.Chr ","); Re.plus Re.Space; Re.Rep Re.Digit 4 (Some 4%nat)];
    (* DD Month YYYY:  (\d{1,2}\s+\w+\s+\d{4}) *)
    Re.Pattern by_head
      [Re.Rep Re.Digit 1 (Some 2%nat); Re.plus Re.Space; Re.plus Re.Word;
       Re.plus Re.Space; Re.Rep Re.Digit 4 (Some 4%nat)];
    (* Month YYYY:  (\w+\s+\d{4}) *)
    Re.Pattern by_head
      [Re.plus Re.Word; Re.plus Re.Space; Re.Rep Re.Digit 4 (Some 4%nat)] ].

(** The loop of lines 102-105: the group of the first pattern that
    matches. *)
Fixpoint first_match (patterns : list Re.pattern) (text : string) : option string :=
  match patterns with
  | [] => None
  | pattern :: rest =>
      match Re.search pattern text with
      | Some g => Some g
      | None => first_match rest text
      end
  end.

(** Lines 108-112, the "old method": what follows the second space after
    the first "by "; an [IndexError] gives the empty string. *)
Definition date_fallback (text : string) : string :=
  match Py.split "by " text !! 1%nat with
  | Some part => Py.join " " (drop 2 (Py.split " " part))
  | None => EmptyString
  end.

Definition extract_date (text : string) : string :=
  if negb (Py.truthy text) then EmptyString
  else match first_match date_patterns text with
       | Some g => g
       | None => date_fallback text
       end.

(** Lines 219-223 of [scrape_page]: the contributor is what is left of
    the attribution once the date and "by" are taken out. *)
Definition extract_contributor (contributor_text date : string) : string :=
  let contributor :=
    if Py.truthy date then Py.replace date EmptyString contributor_text
    else contributor_text in
  Py.strip (Py.replace "by" EmptyString contributor).

(** A definition container of the page.  [find_element e by sel] is the
    [text] of the first element under [e] that the selector finds;
    [None] stands for [NoSuchElementException] and
    [StaleElementReferenceException], which the code treats alike. *)
Inductive By : Type := CSS_SELECTOR | XPATH.

Record element : Type := Element { find_element : By -> string -> option string }.

Definition extract_text_safely (e : element) (selector default : string) : string :=
  match find_element e CSS_SELECTOR selector with
  | Some text => Py.strip text
  | None =>
      let xpath_selector :=
        ".//*[contains(@class, '" +:+ Py.strip_chars "." selector +:+ "')]" in
      match find_element e XPATH xpath_selector with
      | Some text => Py.strip text
      | None => default
      end
  end.

Definition vote_selectors (is_upvote : bool) : list string :=
  [ "button[data-x-bind='thumb" +:+ (if is_upvote then "Up" else "Down") +:+ "'] span";
    ".flex.items-center button:nth-" +:+
      (if is_upvote then "child(1)" else "child(2)") +:+ " span";
    "//button[contains(@class, 'rounded-" +:+
      (if is_upvote then "tl" else "tr") +:+ "-3xl')]//span" ].

(** The loop of lines 128-138; the result is [vote_text] when the loop
    ends, by [break] or by running out of selectors. *)
Fixpoint vote_loop (e : element) (selectors : list string) (vote_text : string) : string :=
  match selectors with
  | [] => vote_text
  | selector :: rest =>
      let by_ := if Py.startswith "//" selector then XPATH else CSS_SELECTOR in
      match find_element e by_ selector with
      | Some text =>
          let vote_text := Py.strip text in
          if Py.truthy vote_text && Py.isdigit vote_text then vote_text
          else vote_loop e rest vote_text
      | None => vote_loop e rest vote_text
      end
  end.

Definition extract_votes (e : element) (is_upvote : bool) : Z :=
  match Py.int (vote_loop e (vote_selectors is_upvote) EmptyString) with
  | Some n => n
  | None => 0
  end.

(** ** Exceptions *)

(** [Exception] stands for every instance of Python's [Exception] class
    (Selenium's errors, [ValueError], ...); [KeyboardInterrupt] and
    [SystemExit] derive from [BaseException] only, so an
    [except Exception] clause lets them through. *)
Inductive exn : Type :=
| KeyboardInterrupt
| SystemExit
| Exception (what : string).

Definition is_Exception (e : exn) : bool :=
  match e with Exception _ => true | _ => false end.

Definition is_KeyboardInterrupt (e : exn) : bool :=
  match e with KeyboardInterrupt => true | _ => false end.

Inductive outcome (A : Type) : Type :=
| Ok (a : A)
| Raise (e : exn).
Arguments Ok {A} a.
Arguments Raise {A} e.

(** ** Records and pages *)

Record entry : Type := Entry {
  word : string;
  definition : string;
  example : string;
  contributor : string;
  date : string;
  upvotes : Z;
  downvotes : Z;
  page : Z;
  scraped_date : string }.

(** The key under which a record is deduplicated:
    [word.lower().strip()]. *)
Definition word_key (word : string) : string := Py.strip (Py.lower word).

(** Where the extraction of a container breaks, if it does.  A lookup
    can raise an exception that neither [extract_text_safely] nor
    [extract_votes] catches (a [WebDriverException], say); it leaves the
    [try] of line 194 through the clause [except Exception: continue] of
    lines 244-246.  What matters is whether this happens before the key
    of the word is recorded, in the lookup of the word (line 196), or
    after, in one of the lookups of lines 208-226. *)
Inductive fault : Type :=
| AtWord
| AfterKey.

(** A definition container of the page: what its lookups show, and
    where its extraction breaks. *)
Record container : Type := Container {
  shown : element;
  breaks : option fault }.

(** A container all of whose lookups find a text or raise one of the
    two exceptions that are caught on the spot. *)
Definition sound (element : element) : container := Container element None.

(** Lines 193-246 of [scrape_page]: the loop over the definition
    containers of a page.  [today] is [datetime.now().strftime(...)].
    A container that breaks after line 205 has its key recorded and
    yields no record. *)
Fixpoint scrape_elements (page_num : Z) (today : string)
    (definition_elements : list container)
    (seen_words : gset string) (entries : list entry) : list entry :=
  match definition_elements with
  | [] => entries
  | Container element broken :: rest =>
      match broken with
      | Some AtWord => scrape_elements page_num today rest seen_words entries
      | _ =>
          let word := extract_text_safely element ".word" EmptyString in
          if negb (Py.truthy word) then
            scrape_elements page_num today rest seen_words entries
          else
            let key := word_key word in
            if decide (key ∈ seen_words) then
              scrape_elements page_num today rest seen_words entries
            else
              let seen_words := seen_words ∪ {[key]} in
              match broken with
              | Some _ => scrape_elements page_num today rest seen_words entries
              | None =>
                  let definition := extract_text_safely element ".meaning" EmptyString in
                  let example := extract_text_safely element ".example" EmptyString in
                  let contributor_text :=
                    extract_text_safely element ".contributor" EmptyString in
                  let date := extract_date contributor_text in
                  let contributor := extract_contributor contributor_text date in
                  let upvotes := extract_votes element true in
                  let downvotes := extract_votes element false in
                  let entry :=
                    {| word := word; definition := definition; example := example;
                       contributor := contributor; date := date;
                       upvotes := upvotes; downvotes := downvotes;
                       page := page_num; scraped_date := today |} in
                  scrape_elements page_num today rest seen_words (entries ++ [entry])
              end
      end
  end.

(** What the browser does during one call of [scrape_page]. *)
Record visit : Type := Visit {
  driver_error : option exn;              (* [setup_driver()] raising *)
  loaded : outcome (list container);      (* [get], the wait, [find_elements] *)
  quit_error : option exn }.              (* [driver.quit()] raising *)

(** [scrape_page]: the [try] body, the [except Exception] clause that
    turns a failure into the empty list, and the [finally] clause, whose
    own exception replaces whatever the function was about to return. *)
Definition scrape_page (page_num : Z) (today : string) (v : visit)
    : outcome (list entry) :=
  let body :=
    match driver_error v with
    | Some e => Raise e
    | None =>
        match loaded v with
        | Raise e => Raise e
        | Ok definition_elements =>
            Ok (scrape_elements page_num today definition_elements ∅ [])
        end
    end in
  let handled :=
    match body with
    | Raise e => if is_Exception e then Ok [] else Raise e
    | Ok entries => Ok entries
    end in
  match driver_error v, quit_error v with
  | None, Some e => Raise e
  | _, _ => handled
  end.

(** ** Retrying *)

(** What a Python function that returns a list on some paths and falls
    off its end on others gives back. *)
Inductive returned : Type :=
| PyList (entries : list entry)
| PyNone.

Section Retry.

(** [scrape n page_num] is the outcome of the call of
    [scrape_page(page_num)] that comes after [n] earlier calls. *)
Variable scrape : nat -> Z -> outcome (list entry).

(** The loop of [scrape_page_with_retry] over the remaining values of
    [attempt]; [calls] counts the calls of [scrape_page] made so far.
    The result comes with the final count. *)
Fixpoint retry_loop (page_num max_retries : Z) (attempts : list Z) (calls : nat)
    : outcome returned * nat :=
  match attempts with
  | [] => (Ok PyNone, calls)
  | attempt :: rest =>
      match scrape calls page_num with
      | Ok entries => (Ok (PyList entries), S calls)
      | Raise e =>
          if is_Exception e then
            if attempt <? max_retries - 1
            then retry_loop page_num max_retries rest (S calls)
            else (Ok (PyList []), S calls)
          else (Raise e, S calls)
      end
  end.

Definition scrape_page_with_retry (page_num max_retries : Z)
    : outcome returned * nat :=
  retry_loop page_num max_retries (Py.range max_retries) 0.

End Retry.

Definition default_max_retries : Z := 3.

(** ** The state of a run *)

(** A CSV file is the list of its rows, a row the list of its cells. *)
Definition row : Type := list string.

(** The file to which the [FileHandler] of lines 33-40 appends the log
    lines of every run.  The model leaves the log out: its file map
    holds the files that [save_to_csv] opens. *)
Definition log_file : string := "urban_scraper.log".

Record world : Type := World {
  all_entries : list entry;
  global_seen_words : gset string;
  files : gmap string (list row) }.

Definition add_seen (key : string) (w : world) : world :=
  World (all_entries w) (global_seen_words w ∪ {[key]}) (files w).

Definition extend_all (new_entries : list entry) (w : world) : world :=
  World (all_entries w ++ new_entries) (global_seen_words w) (files w).

(** [open(filename, 'w')] creates the file or empties it. *)
Definition open_w (filename : string) (w : world) : world :=
  World (all_entries w) (global_seen_words w) (<[filename := []]> (files w)).

Definition write_row (filename : string) (r : row) (w : world) : world :=
  World (all_entries w) (global_seen_words w)
        (<[filename := default [] (files w !! filename) ++ [r]]> (files w)).

(** Computations that read and change the state and may raise. *)
Definition M (A : Type) : Type := world -> outcome A * world.

#[global] Instance M_ret : MRet M := fun A a w => (Ok a, w).

#[global] Instance M_bind : MBind M := fun A B f m w =>
  match m w with
  | (Ok a, w') => f a w'
  | (Raise e, w') => (Raise e, w')
  end.

Definition raise {A} (e : exn) : M A := fun w => (Raise e, w).
Definition gets {A} (f : world -> A) : M A := fun w => (Ok (f w), w).
Definition modify (f : world -> world) : M unit := fun w => (Ok tt, f w).

(** [try: m except C: handler], where [catches] tells the class [C]. *)
Definition try_except {A} (m : M A) (catches : exn -> bool) (handler : M A) : M A :=
  fun w =>
    match m w with
    | (Raise e, w') => if catches e then handler w' else (Raise e, w')
    | r => r
    end.

(** A [for] loop that threads a local variable; [i] is the index of the
    current element. *)
Fixpoint for_loop {A B} (body : nat -> B -> A -> M B) (i : nat) (acc : B) (l : list A) : M B :=
  match l with
  | [] => mret acc
  | x :: l' => acc' ← body i acc x; for_loop body (S i) acc' l'
  end.

(** The dictionary literal of lines 229-239. *)
Inductive value : Type := Str (s : string) | Int (n : Z).

Definition to_dict (e : entry) : list (string * value) :=
  [ ("word", Str (word e)); ("definition", Str (definition e));
    ("example", Str (example e)); ("contributor", Str (contributor e));
    ("date", Str (date e)); ("upvotes", Int (upvotes e));
    ("downvotes", Int (downvotes e)); ("page", Int (page e));
    ("scraped_date", Str (scraped_date e)) ].

Definition fieldnames : list string :=
  [ "word"; "definition"; "example"; "contributor"; "date";
    "upvotes"; "downvotes"; "page"; "scraped_date" ].

(** The text the [csv] writer puts in a cell. *)
Definition cell (v : value) : string :=
  match v with Str s => s | Int n => Py.str n end.

Fixpoint dict_get (key : string) (d : list (string * value)) : option value :=
  match d with
  | [] => None
  | (k, v) :: d' => if String.eqb k key then Some v else dict_get key d'
  end.

(** [DictWriter.writerow]: a key outside [fieldnames] is a [ValueError]
    ([None]); a missing key gives an empty cell; the cells come in the
    order of [fieldnames]. *)
Definition writerow (fieldnames : list string) (d : list (string * value)) : option row :=
  if forallb (fun kv => bool_decide (kv.1 ∈ fieldnames)) d
  then Some ((fun k => default EmptyString (cell <$> dict_get k d)) <$> fieldnames)
  else None.

(** ** The run *)

(** The places of [main] and [save_to_csv] at which a [KeyboardInterrupt]
    can surface.  The interpreter raises it between two instructions of
    the main thread, so every statement that changes the state of the run
    or the file system has a place in front of it. *)
Inductive point : Type :=
| AtChunk (chunk_start : Z)            (* line 311: a chunk is about to start *)
| AtFuture (chunk_start : Z) (k : nat) (* line 323: waiting for the k-th future *)
| AtEntry (page : Z) (j : nat)         (* line 331: the j-th entry of a page *)
| AtAppend (page : Z) (j : nat)        (* between lines 333 and 334 *)
| AtExtendChunk (page : Z)             (* before line 338 *)
| AtExtendAll (page : Z)               (* between lines 338 and 339 *)
| AtPoolExit (chunk_start : Z)         (* leaving the [with] block of line 318 *)
| AtOpen (filename : string)           (* line 271 *)
| AtHeader (filename : string)         (* line 273 *)
| AtRow (filename : string) (j : nat)  (* line 275, the j-th entry *)
| AtSummary.                           (* lines 357-360 *)

#[global] Instance point_eq_dec : EqDecision point.
Proof. solve_decision. Defined.

Record args : Type := Args {
  start : Z;
  end_ : Z;
  workers : Z;
  output : string;
  chunk_size : Z }.

(** The two counters of the last log lines. *)
Record summary : Type := Summary {
  total_entries : nat;      (* "Total entries collected" *)
  total_unique : nat }.     (* "Total unique words" *)

Section Run.

(** [signal p] holds when Ctrl-C arrives as the run reaches [p]. *)
Variable signal : point -> bool.

(** [as_completed chunk_pages]: the futures submitted for the pages of
    a chunk, in the order in which they complete, each with its page
    and what [future.result()] gives. *)
Variable as_completed : list Z -> list (Z * outcome (list entry)).

(** [os.path.splitext] *)
Variable splitext : string -> string * string.

Definition tick (p : point) : M unit :=
  fun w => if signal p then (Raise KeyboardInterrupt, w) else (Ok tt, w).

Definition save_row (filename : string) (j : nat) (_ : unit) (e : entry) : M unit :=
  tick (AtRow filename j);;
  match writerow fieldnames (to_dict e) with
  | Some r => modify (write_row filename r)
  | None => raise (Exception "ValueError")
  end.

(** [save_to_csv]: nothing is written for an empty list.  The file
    system takes every write; the [except Exception] clause of line 279
    is there all the same and lets a [KeyboardInterrupt] through. *)
Definition save_to_csv (entries : list entry) (filename : string) : M unit :=
  match entries with
  | [] => mret tt
  | _ =>
      try_except
        (tick (AtOpen filename);;
         modify (open_w filename);;
         tick (AtHeader filename);;
         modify (write_row filename fieldnames);;
         for_loop (save_row filename) 0 tt entries)
        is_Exception
        (mret tt)
  end.

(** Lines 331-336: one iteration of the filter over a page's entries. *)
Definition filter_entry (page : Z) (j : nat) (new_entries : list entry) (e : entry)
    : M (list entry) :=
  tick (AtEntry page j);;
  let key := word_key (word e) in
  seen ← gets global_seen_words;
  if decide (key ∉ seen) then
    modify (add_seen key);;
    tick (AtAppend page j);;
    mret (new_entries ++ [e])
  else mret new_entries.

(** Lines 324-343: one completed future. *)
Definition merge_future (chunk_start : Z) (k : nat) (chunk_entries : list entry)
    (future : Z * outcome (list entry)) : M (list entry) :=
  tick (AtFuture chunk_start k);;
  try_except
    (page_entries ← (match future.2 with Ok l => mret l | Raise e => raise e end);
     new_entries ← for_loop (filter_entry future.1) 0 [] page_entries;
     tick (AtExtendChunk future.1);;
     let chunk_entries := chunk_entries ++ new_entries in
     tick (AtExtendAll future.1);;
     modify (extend_all new_entries);;
     mret chunk_entries)
    is_Exception
    (mret chunk_entries).

Definition page_numbers (a : args) : list Z := Py.range2 (start a) (end_ a + 1).

Definition chunk_end_of (a : args) (chunk_start : Z) : Z :=
  Z.min (chunk_start + chunk_size a) (Py.len (page_numbers a)).

Definition chunk_pages_of (a : args) (chunk_start : Z) : list Z :=
  Py.slice (page_numbers a) chunk_start (chunk_end_of a chunk_start).

Definition chunk_filename (a : args) (chunk_start chunk_end : Z) : string :=
  (splitext (output a)).1 +:+ "_chunk" +:+ Py.str chunk_start +:+ "-"
    +:+ Py.str chunk_end +:+ ".csv".

(** [ProcessPoolExecutor(max_workers=args.workers)], line 318: a
    [ValueError] when there is no worker. *)
Definition pool (a : args) : M unit :=
  if workers a <? 1 then raise (Exception "ValueError") else mret tt.

(** Lines 312-349: the body of the loop over the chunks. *)
Definition run_chunk (a : args) (_ : nat) (_ : unit) (chunk_start : Z) : M unit :=
  tick (AtChunk chunk_start);;
  let chunk_end := chunk_end_of a chunk_start in
  let chunk_pages := chunk_pages_of a chunk_start in
  pool a;;
  chunk_entries ← for_loop (merge_future chunk_start) 0 [] (as_completed chunk_pages);
  tick (AtPoolExit chunk_start);;
  match chunk_entries with
  | [] => mret tt
  | _ => save_to_csv chunk_entries (chunk_filename a chunk_start chunk_end)
  end.

(** The chunk starts of line 311; a zero chunk size is a [ValueError]. *)
Definition chunk_starts (a : args) : option (list Z) :=
  Py.range3 0 (Py.len (page_numbers a)) (chunk_size a).

Definition main (a : args) : M summary :=
  try_except
    (match chunk_starts a with
     | Some starts => for_loop (run_chunk a) 0 tt starts
     | None => raise (Exception "ValueError")
     end)
    is_KeyboardInterrupt
    (mret tt);;
  entries ← gets all_entries;
  save_to_csv entries (output a);;
  tick AtSummary;;
  seen ← gets global_seen_words;
  mret (Summary (length entries) (size seen)).

(** A run starts with no entries and no seen words (lines 300-301), on
    the file system [fs]. *)
Definition run (a : args) (fs : gmap string (list row)) : outcome summary * world :=
  main a (World [] ∅ fs).

End Run.

(** ** Notions used to state the properties *)

Definition entry_key (e : entry) : string := word_key (word e).

(** The set of keys of a list of records. *)
Definition keys (l : list entry) : gset string := list_to_set (entry_key <$> l).

(** The records of [l] that a ledger holding [seen] accepts, each key at
    its first occurrence. *)
Fixpoint accepted (seen : gset string) (l : list entry) : list entry :=
  match l with
  | [] => []
  | e :: l' =>
      if decide (entry_key e ∈ seen) then accepted seen l'
      else e :: accepted (seen ∪ {[entry_key e]}) l'
  end.

(** The records a future delivers: none when its result is an exception. *)
Definition future_entries (future : Z * outcome (list entry)) : list entry :=
  match future.2 with Ok l => l | Raise _ => [] end.

(** The candidate records of a chunk and of a run, in the order in which
    they reach the filter of [main]. *)
Definition chunk_arrivals (as_completed : list Z -> list (Z * outcome (list entry)))
    (a : args) (chunk_start : Z) : list entry :=
  concat (future_entries <$> as_completed (chunk_pages_of a chunk_start)).

Definition arrivals (as_completed : list Z -> list (Z * outcome (list entry)))
    (a : args) : list entry :=
  concat (chunk_arrivals as_completed a <$> default [] (chunk_starts a)).

(** The number of pages of the run, and the number of chunks that
    [range(0, len(page_numbers), chunk_size)] gives for a positive chunk
    size. *)
Definition page_count (a : args) : Z := end_ a + 1 - start a.

Definition chunk_count (a : args) : nat :=
  Z.to_nat ((page_count a + chunk_size a - 1) / chunk_size a).


(** The cells of a record in the column order of the artifacts. *)
Definition entry_row (e : entry) : row :=
  [ word e; definition e; example e; contributor e; date e;
    Py.str (upvotes e); Py.str (downvotes e); Py.str (page e); scraped_date e ].

(** A file the writer has worked on: nothing yet, or the header followed
    by one row per record. *)
Definition csv_rows (rows : list row) : Prop :=
  rows = [] ∨ ∃ es : list entry, rows = fieldnames :: (entry_row <$> es).

(** No Ctrl-C while the entries of a page are being merged (lines
    330-339). *)
Definition quiet_merge (signal : point -> bool) : Prop :=
  ∀ page j,
    signal (AtEntry page j) = false ∧ signal (AtAppend page j) = false ∧
    signal (AtExtendChunk page) = false ∧ signal (AtExtendAll page) = false.

(** Every future either returns or raises an instance of [Exception]. *)
Definition futures_contained
    (as_completed : list Z -> list (Z * outcome (list entry))) : Prop :=
  ∀ pages future e,
    future ∈ as_completed pages → future.2 = Raise e → is_Exception e = true.

(** An extraction that raises an instance of [Exception] at every call. *)
Definition always_fails (scrape : nat -> Z -> outcome (list entry)) : Prop :=
  ∀ n page_num, ∃ what, scrape n page_num = Raise (Exception what).

(** An extraction whose failures are all instances of [Exception]. *)
Definition fails_with_Exception (scrape : nat -> Z -> outcome (list entry)) : Prop :=
  ∀ n page_num e, scrape n page_num = Raise e → is_Exception e = true.

(** Ctrl-C arrives at some place other than the start of a chunk. *)
Definition interrupted_inside (signal : point -> bool) : Prop :=
  ∃ p, signal p = true ∧ ∀ chunk_start, p ≠ AtChunk chunk_start.

(** What a stretch of the run may do to the file system: a file is left
    as it was or holds rows of the writer. *)
Definition files_step (fs fs' : gmap string (list row)) : Prop :=
  ∀ filename rows,
    fs' !! filename = Some rows → fs !! filename = Some rows ∨ csv_rows rows.

(** From [w] the run has merged the candidate records [X] and reached
    [w']. *)
Definition merged (w : world) (X : list entry) (w' : world) : Prop :=
  all_entries w' = all_entries w ++ accepted (global_seen_words w) X ∧
  global_seen_words w' = global_seen_words w ∪ keys X ∧
  files_step (files w) (files w').

(** From [w] the run has stopped in [w'] somewhere in the candidate
    records [X]: a prefix of them has been merged. *)
Definition stopped (signal : point -> bool) (w : world) (X : list entry)
    (w' : world) : Prop :=
  ∃ X', X' `prefix_of` X ∧
    all_entries w' = all_entries w ++ accepted (global_seen_words w) X' ∧
    global_seen_words w ∪ keys X' ⊆ global_seen_words w' ∧
    (quiet_merge signal → global_seen_words w' = global_seen_words w ∪ keys X') ∧
    files_step (files w) (files w').

(** ** A program logic for [M] *)

(** [wp m Q E w]: run from [w], [m] ends in [Q] when it returns and in
    [E] when it raises. *)
Definition wp {A} (m : M A) (Q : A -> world -> Prop)
    (E : exn -> world -> Prop) (w : world) : Prop :=
  match m w with
  | (Ok a, w') => Q a w'
  | (Raise e, w') => E e w'
  end.

(** ** Sample inputs *)

(** A definition container whose vote button shows "-5". *)
Definition minus_five : element :=
  Element (fun by_ selector =>
    if String.eqb selector "button[data-x-bind='thumbUp'] span"
    then Some "-5" else None).

Definition sample_entry (word : string) (page : Z) : entry :=
  Entry word "a definition" "an example" "someone" "May 2020" 3 1 page "2024-01-01".

(** Pages 1 to 5 in chunks of two pages. *)
Definition sample_args : args := Args 1 5 2 "out.csv" 2.

(** Every page delivers one record, with a word of its own; the futures
    complete in the order of submission. *)
Definition sample_futures (pages : list Z) : list (Z * outcome (list entry)) :=
  (fun p => (p, Ok [sample_entry ("word" +:+ Py.str p) p])) <$> pages.

Definition sample_splitext (path : string) : string * string := ("out", ".csv").

(** Page 1 delivers "Lit", every other page "lit " with a space at the
    end. *)
Definition lit_futures (pages : list Z) : list (Z * outcome (list entry)) :=
  (fun p => (p, Ok [sample_entry (if p =? 1 then "Lit" else "lit ") p])) <$> pages.

(** Ctrl-C never arrives; Ctrl-C arrives at the place [p0]. *)
Definition no_signal : point -> bool := fun _ => false.
Definition signal_at (p0 : point) : point -> bool := fun p => bool_decide (p = p0).

(** ** Further notions *)

(** The extraction as [scrape_page_with_retry] calls it: call number [n]
    is [scrape_page] on what the browser does at that call. *)
Definition scrape_with (today : string) (visits : nat -> visit)
    : nat -> Z -> outcome (list entry) :=
  fun n page_num => scrape_page page_num today (visits n).

(** A browser session that never fails in [driver.quit()]. *)
Definition quits_cleanly (v : visit) : Prop := quit_error v = None.

(** Every exception of a browser session is an instance of [Exception]. *)
Definition visit_contained (v : visit) : Prop :=
  (∀ e, driver_error v = Some e → is_Exception e = true) ∧
  (∀ e, loaded v = Raise e → is_Exception e = true) ∧
  (∀ e, quit_error v = Some e → is_Exception e = true).

(** An extraction that times out twice and then delivers one record. *)
Definition third_time_lucky : nat -> Z -> outcome (list entry) :=
  fun n page_num =>
    if (n <? 2)%nat then Raise (Exception "timeout")
    else Ok [sample_entry "yeet" page_num].

(** A page load that times out, in a session that starts and quits. *)
Definition timed_out : visit := Visit None (Raise (Exception "timeout")) None.

(** The record that lines 207-239 build from a definition container. *)
Definition element_word (el : element) : string :=
  extract_text_safely el ".word" EmptyString.

Definition element_entry (page_num : Z) (today : string) (el : element) : entry :=
  let contributor_text := extract_text_safely el ".contributor" EmptyString in
  let date := extract_date contributor_text in
  {| word := element_word el;
     definition := extract_text_safely el ".meaning" EmptyString;
     example := extract_text_safely el ".example" EmptyString;
     contributor := extract_contributor contributor_text date;
     date := date;
     upvotes := extract_votes el true;
     downvotes := extract_votes el false;
     page := page_num;
     scraped_date := today |}.

(** The key that the loop of [scrape_page] has for a container once it
    is past the lookup of the word: none when that lookup breaks or
    shows no word. *)
Definition container_key (c : container) : option string :=
  match breaks c with
  | Some AtWord => None
  | _ =>
      if Py.truthy (element_word (shown c))
      then Some (word_key (element_word (shown c)))
      else None
  end.

(** The candidate records of a page: one for every container that shows
    a word. *)
Definition page_candidates (page_num : Z) (today : string)
    (definition_elements : list element) : list entry :=
  element_entry page_num today
    <$> filter (fun el => Is_true (Py.truthy (element_word el))) definition_elements.

(** A text without white space at either end. *)
Definition stripped (s : string) : Prop := Py.strip s = s.

(** A container that shows the given word, with white space around it,
    and nothing else. *)
Definition word_only (w : string) : element :=
  Element (fun by_ selector =>
    if String.eqb selector ".word" then Some ("  " +:+ w +:+ " ") else None).

(** Every character of a text satisfies [p]. *)
Fixpoint all_chars (p : ascii -> bool) (s : string) : bool :=
  match s with
  | EmptyString => true
  | String c s' => p c && all_chars p s'
  end.

(** The locator strategy lines 130-133 choose for a selector. *)
Definition selector_by (selector : string) : By :=
  if Py.startswith "//" selector then XPATH else CSS_SELECTOR.

(** A container whose thumbs-up button shows the text [t]. *)
Definition vote_button (t : string) : element :=
  Element (fun by_ selector =>
    if String.eqb selector "button[data-x-bind='thumbUp'] span"
    then Some t else None).

(** The limit of [int] on the digits of a numeral
    ([sys.int_max_str_digits]). *)
Definition int_max_str_digits : Z := 4300.

(** Ctrl-C never arrives. *)
Definition uninterrupted (signal : point -> bool) : Prop := ∀ p, signal p = false.



(** No future delivers a record: every page failed or was empty. *)
Definition nothing_delivered
    (as_completed : list Z -> list (Z * outcome (list entry))) : Prop :=
  ∀ pages future, future ∈ as_completed pages → future_entries future = [].

(** Every page fails with a time-out. *)
Definition all_pages_fail (pages : list Z) : list (Z * outcome (list entry)) :=
  (fun p => (p, Raise (Exception "timeout"))) <$> pages.

(** The futures of [sample_futures], completing in the reverse order. *)
Definition reversed_futures (pages : list Z) : list (Z * outcome (list entry)) :=
  reverse (sample_futures pages).

(** What the chunk that starts at [chunk_start] adds to the entries of a
    run left alone, when the chunks that start at [earlier] came before
    it. *)
Definition kept_of_chunk
    (as_completed : list Z -> list (Z * outcome (list entry)))
    (a : args) (earlier : list Z) (chunk_start : Z) : list entry :=
  accepted (keys (concat (chunk_arrivals as_completed a <$> earlier)))
    (chunk_arrivals as_completed a chunk_start).

(** [n] repetitions are allowed by the bounds [lo] and [hi]. *)
Definition within (lo : nat) (hi : option nat) (n : nat) : Prop :=
  (lo ≤ n)%nat ∧ match hi with Some h => (n ≤ h)%nat | None => True end.

(** [s] is made of one stretch for each item of [l], in order: the
    characters of a stretch are in the class of its item and their number
    is within its bounds. *)
Fixpoint spans (l : list Re.item) (s : string) : Prop :=
  match l with
  | [] => s = EmptyString
  | Re.Rep k lo hi :: l' =>
      ∃ s1 s2, s = s1 +:+ s2 ∧ all_chars (Re.matches k) s1 = true ∧
               within lo hi (String.length s1) ∧ spans l' s2
  end.

(** ** The cleaning pipeline: documents and their way into MongoDB *)

Module Clean.

Section Documents.

(** The components of an embedding are floats; nothing here looks
    inside one. *)
Context {float : Type}.

(** The values of a document. *)
Inductive pyval : Type :=
| PStr (s : string)
| PInt (n : Z)
| PStrings (l : list string)
| PVector (l : list float).

Definition doc : Type := gmap string pyval.

(** [len(v)]: a [TypeError] for a number. *)
Definition len (v : pyval) : outcome Z :=
  match v with
  | PStr s => Ok (Z.of_nat (String.length s))
  | PStrings l => Ok (Z.of_nat (length l))
  | PVector l => Ok (Z.of_nat (length l))
  | PInt _ => Raise (Exception "TypeError")
  end.

Definition required_fields : list string :=
  ["term"; "year"; "examples"; "embedding"; "source"].

(** The loop of lines 197-200: [true] when a required field is not in
    [sample]. *)
Fixpoint field_missing (sample : doc) (fields : list string) : bool :=
  match fields with
  | [] => false
  | field :: rest =>
      match sample !! field with
      | None => true
      | Some _ => field_missing sample rest
      end
  end.

Definition verify_data_structure (data : list doc) : outcome bool :=
  match data with
  | [] => Ok false
  | sample :: _ =>
      if field_missing sample required_fields then Ok false
      else
        match sample !! "embedding" with
        | None => Raise (Exception "KeyError")
        | Some v =>
            match len v with
            | Ok n => Ok (n =? 384)
            | Raise e => Raise e
            end
        end
  end.

(** A row of the frame as it reaches [format_output]. *)
Record frame_row : Type := FrameRow {
  word : string;
  year : Z;
  text : string;
  embedding : list float }.

(** The dictionary literal of lines 120-126. *)
Definition format_row (r : frame_row) : doc :=
  {[ "term" := PStr (word r);
     "year" := PInt (year r);
     "examples" := PStrings [text r];
     "embedding" := PVector (embedding r);
     "source" := PStr "urban_dictionary" ]}.

Definition format_output (df : list frame_row) : list doc := format_row <$> df.

(** What the program asks of pymongo. *)
Inductive call : Type :=
| NewClient (connection_string : string)          (* MongoClient(...) *)
| Command (name : string)                         (* db.command(...) *)
| Drop (collection : string)
| InsertOne (collection : string)
| InsertMany (collection : string) (data : list doc)
| CreateIndex (collection name : string)
| Close.                                          (* client.close() *)

(** The calls made so far, and whether the local variable [client] of
    [save_to_mongodb] is bound. *)
Record session : Type := Session {
  calls : list call;
  client_bound : bool }.

Definition T (A : Type) : Type := session -> outcome A * session.

#[global] Instance T_ret : MRet T := fun A a s => (Ok a, s).

#[global] Instance T_bind : MBind T := fun A B f m s =>
  match m s with
  | (Ok a, s') => f a s'
  | (Raise e, s') => (Raise e, s')
  end.

Definition lift {A} (r : outcome A) : T A := fun s => (r, s).

Definition try_except {A} (m : T A) (catches : exn -> bool) (handler : T A) : T A :=
  fun s =>
    match m s with
    | (Raise e, s') => if catches e then handler s' else (Raise e, s')
    | r => r
    end.

(** [try: m finally: final]: an exception of [final] replaces the
    outcome of [m]. *)
Definition try_finally {A} (m : T A) (final : T unit) : T A :=
  fun s =>
    match m s with
    | (r, s') =>
        match final s' with
        | (Ok _, s'') => (r, s'')
        | (Raise e, s'') => (Raise e, s'')
        end
    end.

(** pymongo's [OperationFailure], a subclass of [Exception]. *)
Definition OperationFailure : exn := Exception "OperationFailure".

Definition is_OperationFailure (e : exn) : bool :=
  match e with
  | Exception what => String.eqb what "OperationFailure"
  | _ => false
  end.

(** [server h c]: what the call [c] raises after the calls [h], if it
    raises. *)
Variable server : list call -> call -> option exn.

Definition request (c : call) : T unit :=
  fun s =>
    let s' := Session (calls s ++ [c]) (client_bound s) in
    match server (calls s) c with
    | Some e => (Raise e, s')
    | None => (Ok tt, s')
    end.

Definition test_vector : string := "test_vector_capability.test_vector".
Definition slang_terms : string := "slang_db.slang_terms".

(** Lines 132-164.  Both branches of the test on the message of the
    [OperationFailure] return [False]. *)
Definition check_vector_search_capability : T bool :=
  try_except
    (request (Command "buildInfo");;
     request (Drop test_vector);;
     request (InsertOne test_vector);;
     try_except
       (request (CreateIndex test_vector "vec");;
        request (Drop test_vector);;
        mret true)
       is_OperationFailure
       (mret false))
    is_Exception
    (mret false).

(** Lines 166-185. *)
Definition create_fallback_indexes : T unit :=
  try_except
    (request (CreateIndex slang_terms "text_search_index");;
     request (CreateIndex slang_terms "term_index");;
     request (CreateIndex slang_terms "year_index");;
     request (CreateIndex slang_terms "source_index");;
     request (CreateIndex slang_terms "term_year_index"))
    is_Exception
    (mret tt).

(** Lines 222-241: what [save_to_mongodb] does with its client. *)
Definition insert_and_index (data : list doc) : T unit :=
  has_vector_search ← check_vector_search_capability;
  request (InsertMany slang_terms data);;
  if (has_vector_search : bool) then
    try_except (request (CreateIndex slang_terms "vector_index"))
      is_OperationFailure
      create_fallback_indexes
  else create_fallback_indexes.

Definition bind_client : T unit :=
  fun s => (Ok tt, Session (calls s) true).

(** Lines 210-248, with the default names of the database and the
    collection. *)
Definition save_to_mongodb (data : list doc) (connection_string : string) : T unit :=
  try_finally
    (try_except
       (ok ← lift (verify_data_structure data);
        if negb ok then mret tt
        else
          request (NewClient connection_string);;
          bind_client;;
          insert_and_index data)
       is_Exception
       (mret tt))
    (fun s : session => if client_bound s then request Close s else (Ok tt, s)).

(** A session starts with no call made and no client. *)
Definition fresh : session := Session [] false.

(** From [s] to [s'] the program has made calls that satisfy [P], and
    no other, and has not touched [client]. *)
Definition grows (P : call -> Prop) (s s' : session) : Prop :=
  client_bound s' = client_bound s ∧
  ∃ l, calls s' = calls s ++ l ∧ Forall P l.

(** [wp m Q E s]: run from [s], [m] ends in [Q] when it returns and in
    [E] when it raises. *)
Definition wp {A} (m : T A) (Q : A -> session -> Prop)
    (E : exn -> session -> Prop) (s : session) : Prop :=
  match m s with
  | (Ok a, s') => Q a s'
  | (Raise e, s') => E e s'
  end.

(** The calls of the capability check: the command [buildInfo] and
    calls on the test collection; and the calls that create an index on
    the collection of the terms. *)
Definition on_test (c : call) : Prop :=
  match c with
  | Command name => name = "buildInfo"
  | Drop collection | InsertOne collection => collection = test_vector
  | CreateIndex collection name => collection = test_vector ∧ name = "vec"
  | _ => False
  end.

Definition is_index (c : call) : Prop :=
  match c with
  | CreateIndex collection _ => collection = slang_terms
  | _ => False
  end.

(** Every failure of the server is an instance of [Exception]. *)
Definition server_contained : Prop :=
  ∀ h c e, server h c = Some e → is_Exception e = true.

(** The calls of [insert_and_index] from [s] to [s']: those of the
    capability check, then one insertion, of [data], unless the check
    was cut short by something that is no [Exception], and indexes on
    the terms only after the insertion and only if it succeeded. *)
Definition inserted_then_indexed (data : list doc) (s s' : session) : Prop :=
  client_bound s' = client_bound s ∧
  ∃ l1 l2,
    calls s' = calls s ++ l1 ++ l2 ∧ Forall on_test l1 ∧
    ((l2 = [] ∧ ¬ server_contained) ∨
     ∃ l3, l2 = InsertMany slang_terms data :: l3 ∧ Forall is_index l3 ∧
           (l3 ≠ [] →
            server (calls s ++ l1) (InsertMany slang_terms data) = None)).

End Documents.

End Clean.

(** * Properties *)

(** ** Dates, contributors and votes *)

Lemma first_match_at (ps : list Re.pattern) (text : string) :
  ∀ (i : nat) p g,
    ps !! i = Some p →
    Re.search p text = Some g →
    (∀ (j : nat) q, (j < i)%nat → ps !! j = Some q → Re.search q text = None) →
    first_match ps text = Some g.
Proof.
  induction ps as [|p0 ps IH]; intros i p g Hp Hg Hbefore; [done|].
  destruct i as [|i]; simpl in *.
  - injection Hp as ->. by rewrite Hg.
  - rewrite (Hbefore 0%nat p0) by (done || lia).
    apply (IH i p g); [done..|].
    intros j q Hj Hq. apply (Hbefore (S j) q); [lia | done].
Qed.

Lemma first_match_none (ps : list Re.pattern) (text : string) :
  (∀ p, p ∈ ps → Re.search p text = None) → first_match ps text = None.
Proof.
  induction ps as [|p0 ps IH]; intros H; [done|]. simpl.
  rewrite (H p0) by left. apply IH. intros p Hp. apply H. by right.
Qed.

Lemma date_patterns_need_text (p : Re.pattern) :
  p ∈ date_patterns → Re.search p EmptyString = None.
Proof.
  unfold date_patterns. rewrite !elem_of_cons, elem_of_nil.
  intros [->|[->|[->|[]]]]; reflexivity.
Qed.

(** C6, as the code has it.  [extract_date] returns the group of the
    first pattern of [date_patterns] that matches.  When no pattern
    matches it does not stop at the empty string: it falls back on the
    older method of lines 108-112 and returns, joined by spaces, the
    words after the second space that follows the first "by "; the
    result is empty when the attribution holds no "by " or when at most
    two words follow it. *)
Theorem C6_extract_date_first_match_or_fallback (text : string) :
  (∀ (i : nat) p g,
     date_patterns !! i = Some p →
     Re.search p text = Some g →
     (∀ (j : nat) q, (j < i)%nat → date_patterns !! j = Some q →
                     Re.search q text = None) →
     extract_date text = g) ∧
  ((∀ p, p ∈ date_patterns → Re.search p text = None) →
     extract_date text = date_fallback text ∧
     (Py.split "by " text !! 1%nat = None → extract_date text = EmptyString) ∧
     (∀ part, Py.split "by " text !! 1%nat = Some part →
        extract_date text = Py.join " " (drop 2 (Py.split " " part)) ∧
        ((length (Py.split " " part) ≤ 2)%nat → extract_date text = EmptyString))).
Proof.
  split.
  - intros i p g Hp Hg Hbefore. unfold extract_date.
    destruct text as [|c text'].
    + rewrite date_patterns_need_text in Hg; [done|].
      by eapply list_elem_of_lookup_2.
    + simpl Py.truthy. cbv [negb].
      by rewrite (first_match_at date_patterns _ i p g).
  - intros Hnone. assert (extract_date text = date_fallback text) as Heq.
    { unfold extract_date. destruct text as [|c text']; [reflexivity|].
      simpl Py.truthy. cbv [negb]. by rewrite first_match_none. }
    split; [done|]. rewrite Heq. unfold date_fallback. split.
    + intros Hsplit. by rewrite Hsplit.
    + intros part Hsplit. rewrite Hsplit. split; [done|].
      intros Hlen. by rewrite drop_ge.
Qed.

(** The first pattern decides for an attribution in the usual format. *)
Lemma C6_extract_date_witness :
  extract_date "by bobby January 5, 2020" = "January 5, 2020".
Proof.
  apply (proj1 (C6_extract_date_first_match_or_fallback "by bobby January 5, 2020")
           0%nat (Re.Pattern by_head
             [Re.plus Re.Word; Re.plus Re.Space; Re.Rep Re.Digit 1 (Some 2%nat);
              Re.one (Re.Chr ","); Re.plus Re.Space; Re.Rep Re.Digit 4 (Some 4%nat)])).
  - reflexivity.
  - vm_compute. reflexivity.
  - intros j q Hj. lia.
Defined.

(** No pattern matches "by john smith yesterday", and the result is not
    the empty string. *)
Lemma C6_no_match_not_empty :
  (∀ p, p ∈ date_patterns → Re.search p "by john smith yesterday" = None) ∧
  extract_date "by john smith yesterday" = "yesterday" ∧
  extract_date "by john smith yesterday" ≠ EmptyString.
Proof.
  split; [|split; [vm_compute; reflexivity | vm_compute; discriminate]].
  intros p. unfold date_patterns. rewrite !elem_of_cons, elem_of_nil.
  intros [->|[->|[->|[]]]]; vm_compute; reflexivity.
Qed.

(** C7 at the attribution "by bobby January 5, 2020": the date is found,
    and taking "by" out everywhere leaves "bob" where the contributor is
    "bobby". *)
Theorem C7_contributor_loses_inner_by :
  extract_date "by bobby January 5, 2020" = "January 5, 2020" ∧
  extract_contributor "by bobby January 5, 2020" "January 5, 2020" = "bob".
Proof. split; vm_compute; reflexivity. Qed.

Lemma parse_digits_nonneg (s : string) :
  ∀ acc prev n, 0 ≤ acc → Py.parse_digits acc prev s = Some n → 0 ≤ n.
Proof.
  induction s as [|c s IH]; intros acc prev n Hacc; simpl.
  - destruct prev; [|done]. by intros [= <-].
  - destruct (Py.isdecimal c) eqn:Hc.
    + apply IH. unfold Py.digit_value.
      unfold Py.isdecimal, Py.between in Hc.
      apply andb_true_iff in Hc as [Hlo _]. apply N.leb_le in Hlo. lia.
    + destruct (Ascii.eqb c "_"); [|done]. destruct prev; [|done]. by apply IH.
Qed.

Lemma int_negative (s : string) (n : Z) :
  Py.int s = Some n → n < 0 → ∃ d, Py.strip s = String "-" d.
Proof.
  unfold Py.int. intros Hint Hneg.
  destruct (Py.strip s) as [|c d] eqn:Hs; [done|].
  destruct (decide (c = "-"%char)) as [->|Hc]; [by eexists|].
  exfalso. cut (0 ≤ n); [lia|].
  destruct (decide (c = "+"%char)) as [->|Hp].
  - by eapply parse_digits_nonneg.
  - eapply (parse_digits_nonneg (String c d) 0 false); [done|].
    revert Hint. destruct c as [[] [] [] [] [] [] [] []]; try done.
Qed.

Lemma isdigit_no_sign (s : string) :
  Py.isdigit s = true → Py.strip s = s ∧ ∀ d, s ≠ String "-" d.
Proof.
  unfold Py.isdigit, Py.strip. intros [Hne Hall]%andb_true_iff.
  assert (∀ c, Py.isdigit_char c = true → Py.isspace c = false) as Hsp.
  { intros c. destruct c as [[] [] [] [] [] [] [] []]; by vm_compute. }
  split.
  - clear Hne. assert (Py.rstrip_by Py.isspace s = s) as Hr.
    { induction s as [|c s IH]; [done|]. simpl in *.
      apply andb_true_iff in Hall as [Hc Hs]. rewrite (IH Hs).
      destruct s; [by rewrite (Hsp c Hc)|done]. }
    destruct s as [|c s]; [done|]. simpl in Hall.
    apply andb_true_iff in Hall as [Hc _].
    change (Py.lstrip_by Py.isspace (String c s))
      with (if Py.isspace c then Py.lstrip_by Py.isspace s else String c s).
    by rewrite (Hsp c Hc).
  - intros d ->. simpl in Hall. done.
Qed.

(** C8, as the code has it.  [extract_votes] returns the integer that
    [int] reads from the vote text the selector loop ends with, and 0
    when [int] rejects that text.  The result is negative only when the
    trimmed text starts with a minus sign; it is not negative when the
    text is a digit string. *)
Theorem C8_extract_votes_integer (e : element) (is_upvote : bool) :
  let vote_text := vote_loop e (vote_selectors is_upvote) EmptyString in
  (∀ n, Py.int vote_text = Some n → extract_votes e is_upvote = n) ∧
  (Py.int vote_text = None → extract_votes e is_upvote = 0) ∧
  (extract_votes e is_upvote < 0 → ∃ d, Py.strip vote_text = String "-" d) ∧
  (Py.isdigit vote_text = true → 0 ≤ extract_votes e is_upvote).
Proof.
  intros vote_text. unfold extract_votes. fold vote_text.
  assert (∀ n, Py.int vote_text = Some n → n < 0 →
               ∃ d, Py.strip vote_text = String "-" d) as Hneg
    by (intros n; apply int_negative).
  destruct (Py.int vote_text) as [n|] eqn:Hint.
  - split; [by intros ? [= <-]|]. split; [done|]. split; [by apply Hneg|].
    intros [Hs Hd]%isdigit_no_sign.
    destruct (decide (n < 0)) as [Hn|]; [|lia].
    destruct (Hneg n eq_refl Hn) as [d Hd']. rewrite Hs in Hd'. by destruct (Hd d).
  - split; [done|]. split; [done|]. split; [lia|done].
Qed.

(** The text "-5" is not a digit string, the loop keeps it for want of a
    better one, and [int] reads a negative number from it. *)
Lemma C8_negative_votes :
  vote_loop minus_five (vote_selectors true) EmptyString = "-5" ∧
  extract_votes minus_five true = -5 ∧
  ¬ 0 ≤ extract_votes minus_five true.
Proof. split; [|split]; vm_compute; (reflexivity || (intros H; by apply H)). Qed.

(** ** Retrying *)

Section RetryFacts.

Variable scrape : nat -> Z -> outcome (list entry).

(** The attempts that are left when [k] of them have failed. *)
Lemma retry_loop_exhausts (page_num max_retries : Z) :
  always_fails scrape →
  ∀ (n : nat) (k : Z) (calls : nat),
    k + Z.of_nat (S n) = max_retries →
    retry_loop scrape page_num max_retries
      ((fun i : nat => k + Z.of_nat i) <$> seq 0 (S n)) calls
    = (Ok (PyList []), (calls + S n)%nat).
Proof.
  intros Hfail n. induction n as [|n IH]; intros k calls Hk.
  - cbn [seq fmap list_fmap retry_loop].
    destruct (Hfail calls page_num) as [what ->]. simpl is_Exception. cbv iota.
    destruct (Z.ltb_spec (k + Z.of_nat 0) (max_retries - 1)); [lia|].
    f_equal. lia.
  - change (seq 0 (S (S n))) with (0%nat :: seq 1 (S n)).
    rewrite fmap_cons, <-fmap_S_seq, <-list_fmap_compose.
    cbn [retry_loop].
    destruct (Hfail calls page_num) as [what ->]. simpl is_Exception. cbv iota.
    destruct (Z.ltb_spec (k + Z.of_nat 0) (max_retries - 1)); [|lia].
    rewrite (list_fmap_ext _ (fun i : nat => (k + 1) + Z.of_nat i) (seq 0 (S n)))
      by (intros; simpl; lia).
    rewrite IH by lia. f_equal. lia.
Qed.

(** With an attempt left, the loop ends in a [return] of the body. *)
Lemma retry_loop_returns_list (page_num max_retries : Z) :
  fails_with_Exception scrape →
  ∀ (n : nat) (k : Z) (calls : nat),
    k + Z.of_nat (S n) = max_retries →
    (retry_loop scrape page_num max_retries
       ((fun i : nat => k + Z.of_nat i) <$> seq 0 (S n)) calls).1 ≠ Ok PyNone.
Proof.
  intros Hexc n. induction n as [|n IH]; intros k calls Hk.
  - cbn [seq fmap list_fmap retry_loop].
    destruct (scrape calls page_num) as [entries|e] eqn:Hs; [done|].
    rewrite (Hexc _ _ _ Hs).
    destruct (Z.ltb_spec (k + Z.of_nat 0) (max_retries - 1)); [lia|done].
  - change (seq 0 (S (S n))) with (0%nat :: seq 1 (S n)).
    rewrite fmap_cons, <-fmap_S_seq, <-list_fmap_compose.
    cbn [retry_loop].
    destruct (scrape calls page_num) as [entries|e] eqn:Hs; [done|].
    rewrite (Hexc _ _ _ Hs).
    destruct (Z.ltb_spec (k + Z.of_nat 0) (max_retries - 1)); [|done].
    rewrite (list_fmap_ext _ (fun i : nat => (k + 1) + Z.of_nat i) (seq 0 (S n)))
      by (intros; simpl; lia).
    apply IH. lia.
Qed.

Lemma retry_loop_contains (page_num max_retries : Z) :
  fails_with_Exception scrape →
  ∀ attempts calls e,
    (retry_loop scrape page_num max_retries attempts calls).1 ≠ Raise e.
Proof.
  intros Hexc attempts. induction attempts as [|attempt rest IH];
    intros calls e; simpl; [done|].
  destruct (scrape calls page_num) as [entries|e'] eqn:Hs; [done|].
  rewrite (Hexc _ _ _ Hs).
  destruct (attempt <? max_retries - 1); [apply IH | done].
Qed.

End RetryFacts.

(** [scrape_page] turns every [Exception] of its body into the empty
    list; what it raises comes from [driver.quit()] in the [finally]
    clause or is not an [Exception]. *)
Lemma scrape_page_raises (page_num : Z) (today : string) (v : visit) (e : exn) :
  scrape_page page_num today v = Raise e →
  (driver_error v = None ∧ quit_error v = Some e) ∨ is_Exception e = false.
Proof.
  unfold scrape_page.
  destruct (driver_error v) as [e1|] eqn:Hd, (quit_error v) as [e2|] eqn:Hq.
  - destruct (is_Exception e1) eqn:He1; [done|]. intros [= <-]. by right.
  - destruct (is_Exception e1) eqn:He1; [done|]. intros [= <-]. by right.
  - intros [= <-]. by left.
  - destruct (loaded v) as [elements|e3]; [done|].
    destruct (is_Exception e3) eqn:He3; [done|]. intros [= <-]. by right.
Qed.

(** C2, as the code has it.  When every failure of the extraction is an
    instance of [Exception], no exception leaves
    [scrape_page_with_retry]; with [max_retries] at least 1 the result
    is a list; when moreover every call fails, the extraction is called
    exactly [max_retries] times and the result is the empty list. *)
Theorem C2_retry_exhaustion_yields_empty
    (scrape : nat -> Z -> outcome (list entry)) (page_num max_retries : Z) :
  fails_with_Exception scrape →
  (∀ e, (scrape_page_with_retry scrape page_num max_retries).1 ≠ Raise e) ∧
  (1 ≤ max_retries →
     (scrape_page_with_retry scrape page_num max_retries).1 ≠ Ok PyNone) ∧
  (1 ≤ max_retries → always_fails scrape →
     scrape_page_with_retry scrape page_num max_retries
     = (Ok (PyList []), Z.to_nat max_retries)).
Proof.
  intros Hexc. split; [|split].
  - intros e. by apply retry_loop_contains.
  - intros Hpos. unfold scrape_page_with_retry, Py.range, Py.range2.
    destruct (Z.to_nat (max_retries - 0)) as [|n] eqn:Hn; [lia|].
    apply retry_loop_returns_list; [done|lia].
  - intros Hpos Hfail. unfold scrape_page_with_retry, Py.range, Py.range2.
    destruct (Z.to_nat (max_retries - 0)) as [|n] eqn:Hn; [lia|].
    rewrite (retry_loop_exhausts scrape page_num max_retries Hfail n 0 0) by lia.
    f_equal. lia.
Qed.

(** Three failing calls for the default of three attempts. *)
Lemma C2_retry_witness :
  (∀ e, (scrape_page_with_retry (fun _ _ => Raise (Exception "timeout")) 7
           default_max_retries).1 ≠ Raise e) ∧
  scrape_page_with_retry (fun _ _ => Raise (Exception "timeout")) 7 default_max_retries
  = (Ok (PyList []), 3%nat).
Proof.
  assert (fails_with_Exception (fun _ _ => Raise (Exception "timeout"))) as Hexc.
  { intros n p e [= <-]. reflexivity. }
  destruct (C2_retry_exhaustion_yields_empty
              (fun _ _ => Raise (Exception "timeout")) 7 default_max_retries Hexc)
    as (Hno & _ & Hempty).
  split; [exact Hno|]. apply Hempty.
  - unfold default_max_retries. lia.
  - intros n p. by eexists.
Defined.

(** With [max_retries = 0] the loop body never runs and the function
    falls off its end: it returns [None], not the empty list.  And a
    [KeyboardInterrupt] in the extraction is not an [Exception]: the
    first call lets it through. *)
Lemma C2_none_and_interrupt :
  scrape_page_with_retry (fun _ _ => Raise (Exception "timeout")) 7 0
    = (Ok PyNone, 0%nat) ∧
  scrape_page_with_retry (fun _ _ => Raise KeyboardInterrupt) 7 default_max_retries
    = (Raise KeyboardInterrupt, 1%nat).
Proof. split; reflexivity. Qed.

(** ** Chunks and their names *)

Lemma range2_length (a b : Z) : length (Py.range2 a b) = Z.to_nat (b - a).
Proof. unfold Py.range2. by rewrite length_fmap, length_seq. Qed.

Lemma range2_empty (a b : Z) : b ≤ a → Py.range2 a b = [].
Proof. intros H. unfold Py.range2. by replace (Z.to_nat (b - a)) with 0%nat by lia. Qed.

Lemma fmap_seq_from {B} (f : nat → B) (j len : nat) :
  f <$> seq j len = (fun i : nat => f (j + i)%nat) <$> seq 0 len.
Proof.
  rewrite <-(Nat.add_0_r j) at 1.
  by rewrite <-fmap_add_seq, <-list_fmap_compose.
Qed.

Lemma range2_app (a b c : Z) :
  a ≤ b → b ≤ c → Py.range2 a b ++ Py.range2 b c = Py.range2 a c.
Proof.
  intros Hab Hbc. unfold Py.range2.
  replace (Z.to_nat (c - a)) with (Z.to_nat (b - a) + Z.to_nat (c - b))%nat by lia.
  rewrite seq_app, fmap_app, (fmap_seq_from _ (0 + _)).
  apply (f_equal (app _)), list_fmap_ext. intros i x _. lia.
Qed.

Lemma range2_cons (a b : Z) : a < b → Py.range2 a b = a :: Py.range2 (a + 1) b.
Proof.
  intros H. rewrite <-(range2_app a (a + 1) b) by lia.
  unfold Py.range2 at 1. replace (Z.to_nat (a + 1 - a)) with 1%nat by lia.
  simpl. f_equal. lia.
Qed.

Lemma range2_snoc (a b : Z) : a < b → Py.range2 a b = Py.range2 a (b - 1) ++ [b - 1].
Proof.
  intros H. rewrite <-(range2_app a (b - 1) b) by lia. f_equal.
  rewrite range2_cons by lia. by rewrite range2_empty by lia.
Qed.

Lemma slice_range2 (a b lo hi : Z) :
  0 ≤ lo → lo ≤ hi → hi ≤ b - a →
  Py.slice (Py.range2 a b) lo hi = Py.range2 (a + lo) (a + hi).
Proof.
  intros Hlo Hhi Hb. unfold Py.slice, Py.len, Py.clamp.
  rewrite range2_length.
  destruct (Z.ltb_spec lo 0); [lia|]. destruct (Z.ltb_spec hi 0); [lia|].
  rewrite !Z.min_l by lia. unfold Py.range2.
  rewrite <-fmap_drop, <-fmap_take, drop_seq, take_seq.
  replace (Z.to_nat (hi - lo) `min` (Z.to_nat (b - a) - Z.to_nat lo))%nat
    with (Z.to_nat (a + hi - (a + lo))) by lia.
  rewrite fmap_seq_from. apply list_fmap_ext. intros i x _. lia.
Qed.

Section ChunkFacts.

Variable a : args.
Hypothesis range_ok : start a ≤ end_ a.
Hypothesis size_ok : 0 < chunk_size a.

Lemma page_numbers_len : Py.len (page_numbers a) = page_count a.
Proof.
  unfold Py.len, page_numbers, page_count. rewrite range2_length. lia.
Qed.

Lemma chunk_starts_eq :
  chunk_starts a
  = Some ((fun i : nat => Z.of_nat i * chunk_size a) <$> seq 0 (chunk_count a)).
Proof.
  unfold chunk_starts, Py.range3. rewrite page_numbers_len.
  destruct (Z.eqb_spec (chunk_size a) 0); [lia|].
  destruct (Z.ltb_spec 0 (chunk_size a)); [|lia].
  f_equal. unfold chunk_count.
  replace (page_count a - 0 + chunk_size a - 1)
    with (page_count a + chunk_size a - 1) by lia.
  apply list_fmap_ext. intros i x _. lia.
Qed.


Lemma count_tight (i : nat) :
  (i < chunk_count a)%nat → Z.of_nat i * chunk_size a < page_count a.
Proof.
  unfold chunk_count. intros Hi.
  pose proof (Z.mul_div_le (page_count a + chunk_size a - 1)
                (chunk_size a) size_ok).
  assert (Z.of_nat i + 1 ≤ (page_count a + chunk_size a - 1) / chunk_size a) by lia.
  nia.
Qed.

Lemma chunk_pages_range (cs : Z) :
  0 ≤ cs → cs < page_count a →
  chunk_pages_of a cs
  = Py.range2 (start a + cs) (Z.min (start a + cs + chunk_size a) (end_ a + 1))
  ∧ start a + chunk_end_of a cs = Z.min (start a + cs + chunk_size a) (end_ a + 1).
Proof.
  intros H0 Hn. unfold chunk_pages_of, chunk_end_of. rewrite page_numbers_len.
  unfold page_numbers. unfold page_count in *.
  rewrite slice_range2 by lia.
  split; [f_equal|]; lia.
Qed.


End ChunkFacts.



Lemma pretty_N_char_no_dash (y : N) : Ascii.eqb "-" (pretty_N_char y) = false.
Proof.
  unfold pretty_N_char. destruct y as [|p]; [done|].
  do 4 (destruct p as [p|p|]; try done).
Qed.

Lemma pretty_N_go_no_dash (x : N) :
  ∀ s, Py.mem_char "-" s = false → Py.mem_char "-" (pretty_N_go x s) = false.
Proof.
  induction (N.lt_wf_0 x) as [x _ IH]; intros s Hs.
  destruct (decide (x = 0%N)) as [->|Hx]; [by rewrite pretty_N_go_0|].
  rewrite pretty_N_go_step by lia. apply IH.
  - apply N.div_lt; lia.
  - cbn [Py.mem_char]. by rewrite pretty_N_char_no_dash.
Qed.

Lemma str_no_dash (n : Z) : 0 ≤ n → Py.mem_char "-" (Py.str n) = false.
Proof.
  intros Hn. unfold Py.str, pretty, pretty_Z.
  destruct n as [|p|p]; [done| |lia].
  unfold pretty, pretty_positive, pretty, pretty_N.
  case_decide; [done|]. by apply pretty_N_go_no_dash.
Qed.

Lemma app_dash_inj (u u' r r' : string) :
  Py.mem_char "-" u = false → Py.mem_char "-" u' = false →
  u +:+ "-" +:+ r = u' +:+ "-" +:+ r' → u = u'.
Proof.
  revert u'. induction u as [|c u IH]; intros [|c' u'] Hu Hu' Heq;
    simpl in Heq; cbn [Py.mem_char] in Hu, Hu'.
  - done.
  - injection Heq as <- _. by rewrite Ascii.eqb_refl in Hu'.
  - injection Heq as -> _. by rewrite Ascii.eqb_refl in Hu.
  - injection Heq as -> Heq. f_equal.
    destruct (Ascii.eqb "-" c'); [done|]. by apply IH.
Qed.

Lemma chunk_filename_inj (splitext : string → string * string) (a : args)
    (cs ce cs' ce' : Z) :
  0 ≤ cs → 0 ≤ cs' →
  chunk_filename splitext a cs ce = chunk_filename splitext a cs' ce' → cs = cs'.
Proof.
  intros Hcs Hcs'. unfold chunk_filename.
  intros Heq%(inj (String.app _))%(inj (String.app _)).
  apply (inj Py.str). unfold Py.str at 1 2. 
  eapply app_dash_inj; [by apply str_no_dash..|]. exact Heq.
Qed.

(** ** The ledger *)

Lemma keys_nil : keys [] = ∅.
Proof. done. Qed.

Lemma keys_cons (e : entry) (l : list entry) :
  keys (e :: l) = {[entry_key e]} ∪ keys l.
Proof. done. Qed.

Lemma keys_app (l1 l2 : list entry) : keys (l1 ++ l2) = keys l1 ∪ keys l2.
Proof. unfold keys. by rewrite fmap_app, list_to_set_app_L. Qed.

Lemma elem_of_keys (k : string) (l : list entry) :
  k ∈ keys l ↔ k ∈ entry_key <$> l.
Proof. unfold keys. by rewrite elem_of_list_to_set. Qed.

Lemma accepted_app (l1 l2 : list entry) :
  ∀ seen, accepted seen (l1 ++ l2)
          = accepted seen l1 ++ accepted (seen ∪ keys l1) l2.
Proof.
  induction l1 as [|e l1 IH]; intros seen; simpl.
  - by rewrite keys_nil, (right_id_L ∅ (∪)).
  - rewrite keys_cons. case_decide as Hin.
    + rewrite IH. do 2 f_equal. set_solver.
    + simpl. rewrite IH. do 3 f_equal. set_solver.
Qed.

Lemma accepted_fresh (l : list entry) :
  ∀ seen e, e ∈ accepted seen l → (entry_key e ∉ seen) ∧ e ∈ l.
Proof.
  induction l as [|e0 l IH]; intros seen e; simpl; [by intros ?%elem_of_nil|].
  case_decide as Hin.
  - intros [??]%IH. split; [done|by right].
  - intros [->|[Hk ?]%IH]%elem_of_cons; [split; [done|by left]|].
    split; [set_solver|by right].
Qed.

Lemma accepted_NoDup (l : list entry) :
  ∀ seen, NoDup (entry_key <$> accepted seen l).
Proof.
  induction l as [|e0 l IH]; intros seen; simpl; [constructor|].
  case_decide as Hin; [apply IH|]. rewrite fmap_cons. constructor; [|apply IH].
  intros (e & Hk & [Hfresh _]%accepted_fresh)%list_elem_of_fmap. set_solver.
Qed.

(** A record that is accepted is the first of the candidates with its
    key. *)
Lemma accepted_first (l : list entry) :
  ∀ seen e, e ∈ accepted seen l →
    ∃ l1 l2, l = l1 ++ e :: l2 ∧ entry_key e ∉ entry_key <$> l1.
Proof.
  induction l as [|e0 l IH]; intros seen e; simpl; [by intros ?%elem_of_nil|].
  case_decide as Hin.
  - intros He. destruct (accepted_fresh _ _ _ He) as [Hfresh _].
    destruct (IH _ _ He) as (l1 & l2 & -> & Hl1).
    exists (e0 :: l1), l2. split; [done|]. rewrite fmap_cons, not_elem_of_cons.
    split; [|done]. intros Heq. by rewrite Heq in Hfresh.
  - intros [->|He]%elem_of_cons.
    + exists [], l. split; [done|]. simpl. apply not_elem_of_nil.
    + destruct (accepted_fresh _ _ _ He) as [Hfresh _].
      destruct (IH _ _ He) as (l1 & l2 & -> & Hl1).
      exists (e0 :: l1), l2. split; [done|]. rewrite fmap_cons, not_elem_of_cons.
      split; [|done]. set_solver.
Qed.

(** Every accepted record brings one new key. *)
Lemma accepted_size (l : list entry) :
  ∀ seen, size (seen ∪ keys l) = (size seen + length (accepted seen l))%nat.
Proof.
  induction l as [|e0 l IH]; intros seen; simpl.
  - rewrite keys_nil, (right_id_L ∅ (∪)). lia.
  - rewrite keys_cons. case_decide as Hin.
    + rewrite <-IH. f_equal. set_solver.
    + simpl. rewrite (assoc_L (∪)), IH, size_union, size_singleton by set_solver. lia.
Qed.

Lemma prefix_accepted_first (pre total : list entry) (e : entry) :
  pre `prefix_of` total → e ∈ accepted ∅ pre →
  ∃ l1 l2, total = l1 ++ e :: l2 ∧ entry_key e ∉ entry_key <$> l1.
Proof.
  intros [rest ->] (l1 & l2 & -> & Hl1)%accepted_first.
  exists l1, (l2 ++ rest). split; [|done]. by rewrite <-app_assoc.
Qed.

(** ** Rules of the program logic *)

Section Logic.

Context {A B : Type}.
Implicit Types (Q : A → world → Prop) (E : exn → world → Prop) (w : world).

Lemma wp_mono (m : M A) Q Q' E E' w :
  wp m Q E w →
  (∀ a w', Q a w' → Q' a w') → (∀ e w', E e w' → E' e w') →
  wp m Q' E' w.
Proof. unfold wp. destruct (m w) as [[a|e] w']; auto. Qed.

Lemma wp_ret (a : A) Q E w : Q a w → wp (mret a) Q E w.
Proof. done. Qed.

Lemma wp_raise (e : exn) Q E w : E e w → wp (raise e) Q E w.
Proof. done. Qed.

Lemma wp_gets (f : world → A) Q E w : Q (f w) w → wp (gets f) Q E w.
Proof. done. Qed.

Lemma wp_bind (m : M A) (f : A → M B) (R : B → world → Prop) E w :
  wp m (fun a => wp (f a) R E) E w → wp (m ≫= f) R E w.
Proof.
  unfold wp, mbind, M_bind. by destruct (m w) as [[a|e] w'].
Qed.

Lemma wp_try (m handler : M A) (catches : exn → bool) Q E w :
  wp m Q (fun e w' => if catches e then wp handler Q E w' else E e w') w →
  wp (try_except m catches handler) Q E w.
Proof.
  unfold wp, try_except. destruct (m w) as [[a|e] w']; [done|].
  by destruct (catches e).
Qed.

End Logic.

Lemma wp_modify (f : world → world) (Q : unit → world → Prop) E w :
  Q tt (f w) → wp (modify f) Q E w.
Proof. done. Qed.

Lemma wp_tick (signal : point → bool) (p : point) (Q : unit → world → Prop) E w :
  (signal p = true → E KeyboardInterrupt w) →
  (signal p = false → Q tt w) →
  wp (tick signal p) Q E w.
Proof. unfold wp, tick. destruct (signal p); auto. Qed.

Lemma wp_pool (a : args) (Q : unit → world → Prop) E w :
  (workers a < 1 → E (Exception "ValueError") w) →
  (1 ≤ workers a → Q tt w) →
  wp (pool a) Q E w.
Proof.
  unfold wp, pool. destruct (Z.ltb_spec (workers a) 1); cbn; [auto|].
  intros _ HQ. apply HQ. lia.
Qed.

Lemma files_step_refl (fs : gmap string (list row)) : files_step fs fs.
Proof. intros filename rows ?. by left. Qed.

Lemma files_step_trans (fs1 fs2 fs3 : gmap string (list row)) :
  files_step fs1 fs2 → files_step fs2 fs3 → files_step fs1 fs3.
Proof.
  intros H12 H23 filename rows Hrows.
  destruct (H23 _ _ Hrows) as [H2|?]; [|by right]. by apply H12.
Qed.

(** ** The run, step by step *)

Section RunFacts.

Variable signal : point → bool.
Variable as_completed : list Z → list (Z * outcome (list entry)).
Variable splitext : string → string * string.

Lemma signal_inside (p : point) :
  signal p = true → (∀ chunk_start, p ≠ AtChunk chunk_start) →
  interrupted_inside signal.
Proof. intros ??. by exists p. Qed.

(** The filter of lines 330-336 accepts what the ledger accepts; it
    leaves the accumulated entries and the files alone, also when it is
    interrupted. *)
Lemma filter_loop_wp (page : Z) (l : list entry) :
  ∀ (j : nat) (new_entries : list entry) (w : world),
    wp (for_loop (filter_entry signal page) j new_entries l)
      (fun new_entries' w' =>
         new_entries' = new_entries ++ accepted (global_seen_words w) l ∧
         w' = World (all_entries w) (global_seen_words w ∪ keys l) (files w))
      (fun e w' =>
         e = KeyboardInterrupt ∧
         ¬ quiet_merge signal ∧ interrupted_inside signal ∧
         all_entries w' = all_entries w ∧ files w' = files w ∧
         global_seen_words w ⊆ global_seen_words w')
      w.
Proof.
  induction l as [|e l IH]; intros j new_entries [all seen fs]; cbn [for_loop].
  - apply wp_ret. simpl.
    by rewrite app_nil_r, keys_nil, (right_id_L ∅ (∪)).
  - apply wp_bind. unfold filter_entry. apply wp_bind, wp_tick.
    { intros Hsig. simpl. split; [done|]. split; [|split; [|done]].
      - intros Hq. destruct (Hq page j) as (Hq1 & _). congruence.
      - by eapply signal_inside. }
    intros _. apply wp_bind, wp_gets. cbn [global_seen_words].
    fold (entry_key e). rewrite keys_cons.
    destruct (decide (entry_key e ∉ seen)) as [Hin|Hin].
    + apply wp_bind, wp_modify, wp_bind, wp_tick.
      { intros Hsig. simpl. split; [done|].
        split; [|split; [|split; [done|split; [done|set_solver]]]].
        - intros Hq. destruct (Hq page j) as (_ & Hq2 & _). congruence.
        - by eapply signal_inside. }
      intros _. apply wp_ret.
      eapply wp_mono; [apply IH|..]; simpl.
      * intros new' w' [-> ->]. rewrite decide_False by done.
        rewrite <-app_assoc. split; [done|]. f_equal. set_solver.
      * intros e' w' (? & ? & ? & ? & ? & ?). repeat split; try done. set_solver.
    + assert (entry_key e ∈ seen) as Hseen
        by (destruct (decide (entry_key e ∈ seen)); [done|by destruct Hin]).
      apply wp_ret. eapply wp_mono; [apply IH|..]; simpl.
      * intros new' w' [-> ->]. rewrite decide_True by done.
        split; [done|]. f_equal. set_solver.
      * intros e' w' (? & ? & ? & ? & ? & ?). by repeat split.
Qed.

(** One completed future: its records go through the ledger and
    what is accepted is added to the chunk and to the run.  When the
    step raises, the entries and the files are as before; the seen
    words are as before too unless the interrupt fell inside the merge. *)
Lemma merge_future_wp (chunk_start : Z) (k : nat) (chunk_entries : list entry)
    (future : Z * outcome (list entry)) (w : world) :
  wp (merge_future signal chunk_start k chunk_entries future)
    (fun chunk_entries' w' =>
       chunk_entries' = chunk_entries
                        ++ accepted (global_seen_words w) (future_entries future) ∧
       w' = World (all_entries w
                   ++ accepted (global_seen_words w) (future_entries future))
              (global_seen_words w ∪ keys (future_entries future)) (files w))
    (fun e w' =>
       all_entries w' = all_entries w ∧ files w' = files w ∧
       global_seen_words w ⊆ global_seen_words w' ∧
       (quiet_merge signal → w' = w) ∧
       (interrupted_inside signal ∨ (future.2 = Raise e ∧ is_Exception e = false)))
    w.
Proof.
  destruct w as [all seen fs]. unfold merge_future. apply wp_bind, wp_tick.
  { intros Hsig. simpl. repeat split; try done. left. by eapply signal_inside. }
  intros _. apply wp_try, wp_bind. unfold future_entries.
  destruct (future.2) as [page_entries|e].
  - apply wp_ret, wp_bind. eapply wp_mono; [apply filter_loop_wp|..]; simpl.
    + intros new_entries w' [-> ->].
      apply wp_bind, wp_tick.
      { intros Hsig. simpl. split; [done|]. split; [done|]. split; [set_solver|].
        split; [|left; by eapply signal_inside].
        intros Hq. destruct (Hq future.1 0%nat) as (_ & _ & Hq3 & _). congruence. }
      intros _. apply wp_bind, wp_tick.
      { intros Hsig. simpl. split; [done|]. split; [done|]. split; [set_solver|].
        split; [|left; by eapply signal_inside].
        intros Hq. destruct (Hq future.1 0%nat) as (_ & _ & _ & Hq4). congruence. }
      intros _. by apply wp_bind, wp_modify, wp_ret.
    + intros e w' (-> & Hq & Hin & ? & ? & ?). simpl. by repeat split; auto.
  - apply wp_raise. destruct (is_Exception e) eqn:He.
    + apply wp_ret. simpl. split; [by rewrite app_nil_r|].
      by rewrite app_nil_r, keys_nil, (right_id_L ∅ (∪)).
    + simpl. repeat split; try done. by right.
Qed.

Lemma merged_refl (w : world) : merged w [] w.
Proof.
  unfold merged. simpl. rewrite app_nil_r, keys_nil, (right_id_L ∅ (∪)).
  split; [done|]. split; [done|]. apply files_step_refl.
Qed.

Lemma merged_trans (w1 w2 w3 : world) (X Y : list entry) :
  merged w1 X w2 → merged w2 Y w3 → merged w1 (X ++ Y) w3.
Proof.
  intros (HA & HS & HF) (HA' & HS' & HF'). unfold merged.
  rewrite HA', HS', HA, HS, accepted_app, keys_app, <-app_assoc, (assoc_L (∪)).
  split; [done|]. split; [done|]. by eapply files_step_trans.
Qed.

Lemma merged_stopped (w w' : world) (X : list entry) :
  merged w X w' → stopped signal w X w'.
Proof.
  intros (HA & HS & HF). exists X. rewrite HS. by repeat split.
Qed.

Lemma stopped_here (w w' : world) (X : list entry) :
  all_entries w' = all_entries w → files w' = files w →
  global_seen_words w ⊆ global_seen_words w' →
  (quiet_merge signal → w' = w) →
  stopped signal w X w'.
Proof.
  intros HA HF HS Hq. exists []. simpl.
  rewrite app_nil_r, keys_nil, (right_id_L ∅ (∪)), HF.
  split; [apply prefix_nil|]. split; [done|]. split; [done|].
  split; [|apply files_step_refl]. intros Hquiet. by rewrite (Hq Hquiet).
Qed.

Lemma stopped_later (w1 w2 w3 : world) (X Y : list entry) :
  merged w1 X w2 → stopped signal w2 Y w3 → stopped signal w1 (X ++ Y) w3.
Proof.
  intros (HA & HS & HF) (Y' & Hpre & HA' & Hsub & Hq & HF').
  exists (X ++ Y'). rewrite HS in Hsub, Hq, HA'.
  rewrite HA', HA, accepted_app, keys_app, <-app_assoc, (assoc_L (∪)).
  split; [by apply prefix_app|]. split; [done|]. split; [done|].
  split; [done|]. by eapply files_step_trans.
Qed.

Lemma stopped_frame (w w1 w2 : world) (X : list entry) :
  stopped signal w X w1 →
  all_entries w2 = all_entries w1 →
  global_seen_words w2 = global_seen_words w1 →
  files_step (files w1) (files w2) →
  stopped signal w X w2.
Proof.
  intros (X' & Hpre & HA & Hsub & Hq & HF) HA2 HS2 HF2.
  exists X'. rewrite HA2, HS2. repeat split; try done.
  by eapply files_step_trans.
Qed.

Lemma stopped_more (w w' : world) (X Y : list entry) :
  stopped signal w X w' → stopped signal w (X ++ Y) w'.
Proof.
  intros (X' & Hpre & H). exists X'. split; [by apply prefix_app_r|done].
Qed.

(** The futures of a chunk, one after the other. *)
Lemma merge_loop_wp (chunk_start : Z) (futures : list (Z * outcome (list entry))) :
  ∀ (k : nat) (chunk_entries : list entry) (w : world),
    wp (for_loop (merge_future signal chunk_start) k chunk_entries futures)
      (fun chunk_entries' w' =>
         chunk_entries' = chunk_entries
           ++ accepted (global_seen_words w) (concat (future_entries <$> futures)) ∧
         merged w (concat (future_entries <$> futures)) w')
      (fun e w' =>
         stopped signal w (concat (future_entries <$> futures)) w' ∧
         (interrupted_inside signal ∨
          ∃ future, future ∈ futures ∧ future.2 = Raise e ∧ is_Exception e = false))
      w.
Proof.
  induction futures as [|future futures IH]; intros k chunk_entries w;
    cbn [for_loop fmap list_fmap concat].
  - apply wp_ret. split; [by rewrite app_nil_r|apply merged_refl].
  - apply wp_bind. eapply wp_mono; [apply merge_future_wp|..]; cbv beta.
    + intros chunk_entries1 w1 [-> Hw1].
      assert (merged w (future_entries future) w1) as Hm.
      { rewrite Hw1. split; [done|]. split; [done|]. apply files_step_refl. }
      eapply wp_mono; [apply IH|..]; cbv beta.
      * intros chunk_entries2 w2 [-> Hm2]. split; [|by eapply merged_trans].
        rewrite Hw1. simpl. by rewrite accepted_app, app_assoc.
      * intros e w2 [Hstop Hcause]. split; [by eapply stopped_later|].
        destruct Hcause as [?|(f & ? & ?)]; [by left|right].
        exists f. split; [by right|done].
    + intros e w1 (HA & HF & HS & Hq & Hcause). split.
      * by apply stopped_here.
      * destruct Hcause as [?|?]; [by left|right].
        exists future. split; [by left|done].
Qed.

Lemma writerow_entry (e : entry) :
  writerow fieldnames (to_dict e) = Some (entry_row e).
Proof. by destruct e. Qed.

Lemma csv_rows_entries (es : list entry) :
  csv_rows (fieldnames :: (entry_row <$> es)).
Proof. right. by exists es. Qed.

Lemma files_step_insert (fs : gmap string (list row)) (filename : string)
    (rows : list row) :
  csv_rows rows → files_step fs (<[filename := rows]> fs).
Proof.
  intros Hrows f rows'. rewrite lookup_insert. case_decide.
  - intros [= <-]. by right.
  - by left.
Qed.

(** The rows of line 275, on a file that holds the header and the rows
    of the entries written so far. *)
Lemma save_rows_wp (filename : string) (fs : gmap string (list row))
    (entries : list entry) :
  ∀ (j : nat) (written : list entry) (w : world),
    files w = <[filename := fieldnames :: (entry_row <$> written)]> fs →
    wp (for_loop (save_row signal filename) j tt entries)
      (fun _ w' =>
         all_entries w' = all_entries w ∧
         global_seen_words w' = global_seen_words w ∧
         files w' = <[filename := fieldnames :: (entry_row <$> written ++ entries)]> fs)
      (fun e w' =>
         e = KeyboardInterrupt ∧ interrupted_inside signal ∧
         all_entries w' = all_entries w ∧
         global_seen_words w' = global_seen_words w ∧
         ∃ es, files w' = <[filename := fieldnames :: (entry_row <$> es)]> fs)
      w.
Proof.
  induction entries as [|e entries IH]; intros j written w Hfs; cbn [for_loop].
  - apply wp_ret. by rewrite app_nil_r.
  - apply wp_bind. unfold save_row. apply wp_bind, wp_tick.
    { intros Hsig. split; [done|]. split; [by eapply signal_inside|].
      split; [done|]. split; [done|]. by exists written. }
    intros _. rewrite writerow_entry. apply wp_modify.
    eapply wp_mono; [apply (IH _ (written ++ [e]))|..]; cbv beta.
    + destruct w as [all seen fs0]. simpl in *. rewrite Hfs.
      rewrite lookup_insert_eq, insert_insert_eq. simpl.
      by rewrite fmap_app.
    + intros _ w' (? & ? & ->). by rewrite <-app_assoc.
    + intros e' w' (? & ? & ? & ? & ?). done.
Qed.

(** [save_to_csv] leaves the entries and the seen words alone and
    writes rows of the fixed columns; when it returns, the file holds
    the header and one row per entry. *)
Lemma save_to_csv_wp (entries : list entry) (filename : string) (w : world) :
  wp (save_to_csv signal entries filename)
    (fun _ w' =>
       all_entries w' = all_entries w ∧
       global_seen_words w' = global_seen_words w ∧
       files_step (files w) (files w') ∧
       (entries ≠ [] → files w' !! filename
                       = Some (fieldnames :: (entry_row <$> entries))))
    (fun e w' =>
       e = KeyboardInterrupt ∧ interrupted_inside signal ∧
       all_entries w' = all_entries w ∧
       global_seen_words w' = global_seen_words w ∧
       files_step (files w) (files w'))
    w.
Proof.
  unfold save_to_csv. destruct entries as [|e entries].
  { apply wp_ret. repeat split; [apply files_step_refl|done]. }
  set (es := e :: entries). destruct w as [all seen fs].
  apply wp_try, wp_bind, wp_tick.
  { intros Hsig. simpl. split; [done|]. split; [by eapply signal_inside|].
    repeat split. apply files_step_refl. }
  intros _. apply wp_bind, wp_modify, wp_bind, wp_tick.
  { intros Hsig. simpl. split; [done|]. split; [by eapply signal_inside|].
    repeat split. apply files_step_insert. by left. }
  intros _. apply wp_bind, wp_modify.
  eapply wp_mono; [apply (save_rows_wp filename fs es 0 [])|..]; cbv beta.
  - simpl. by rewrite lookup_insert_eq, insert_insert_eq.
  - intros _ w' (? & ? & Hfs).
    cbn [files all_entries global_seen_words app] in *. rewrite Hfs.
    split; [done|]. split; [done|].
    split; [apply files_step_insert, csv_rows_entries|].
    intros _. apply lookup_insert_eq.
  - intros e' w' (-> & ? & ? & ? & es' & Hfs).
    cbn [files all_entries global_seen_words] in *. rewrite Hfs.
    repeat split; try done. apply files_step_insert, csv_rows_entries.
Qed.

(** One chunk: its candidate records are merged.  When the chunk
    raises, either it was interrupted before it began and nothing has
    changed, or the interrupt fell inside, or a future raised something
    that is not an [Exception]. *)
Lemma run_chunk_wp (a : args) (i : nat) (chunk_start : Z) (w : world) :
  wp (run_chunk signal as_completed splitext a i tt chunk_start)
    (fun _ w' =>
       merged w (chunk_arrivals as_completed a chunk_start) w' ∧
       signal (AtChunk chunk_start) = false)
    (fun e w' =>
       stopped signal w (chunk_arrivals as_completed a chunk_start) w' ∧
       ((e = KeyboardInterrupt ∧ signal (AtChunk chunk_start) = true ∧ w' = w)
        ∨ interrupted_inside signal ∨ ¬ futures_contained as_completed
        ∨ workers a < 1))
    w.
Proof.
  unfold run_chunk, chunk_arrivals. apply wp_bind, wp_tick.
  { intros Hsig. split; [by apply stopped_here|]. by left. }
  intros Hsig. apply wp_bind, wp_pool.
  { intros Hw. split; [by apply stopped_here|]. by right; right; right. }
  intros _. apply wp_bind.
  eapply wp_mono; [apply merge_loop_wp|..]; cbv beta.
  - intros chunk_entries w1 [_ Hm]. apply wp_bind, wp_tick.
    { intros Hs. split; [by apply merged_stopped|]. right; left.
      by eapply signal_inside. }
    intros _. destruct chunk_entries as [|e0 chunk_entries]; [by apply wp_ret|].
    eapply wp_mono; [apply save_to_csv_wp|..]; cbv beta.
    + intros _ w2 (HA & HS & HF & _). split; [|done].
      destruct Hm as (? & ? & ?). split; [by rewrite HA|].
      split; [by rewrite HS|]. by eapply files_step_trans.
    + intros e w2 (-> & Hin & HA & HS & HF). split; [|by right; left].
      eapply stopped_frame; [by apply merged_stopped|done..].
  - intros e w1 [Hstop Hcause]. split; [done|].
    destruct Hcause as [?|(f & Hf & Hr & He)]; [by right; left|].
    right; right; left. intros Hc. specialize (Hc _ _ _ Hf Hr). congruence.
Qed.

(** The chunks, one after the other. *)
Lemma chunk_loop_wp (a : args) (l : list Z) :
  ∀ (i : nat) (w : world),
    wp (for_loop (run_chunk signal as_completed splitext a) i tt l)
      (fun _ w' =>
         merged w (concat (chunk_arrivals as_completed a <$> l)) w' ∧
         Forall (fun cs => signal (AtChunk cs) = false) l)
      (fun e w' =>
         stopped signal w (concat (chunk_arrivals as_completed a <$> l)) w' ∧
         ((e = KeyboardInterrupt ∧
           ∃ l1 cs l2, l = l1 ++ cs :: l2 ∧ signal (AtChunk cs) = true ∧
             merged w (concat (chunk_arrivals as_completed a <$> l1)) w')
          ∨ interrupted_inside signal ∨ ¬ futures_contained as_completed
          ∨ workers a < 1))
      w.
Proof.
  induction l as [|cs l IH]; intros i w; cbn [for_loop fmap list_fmap concat].
  - apply wp_ret. split; [apply merged_refl|constructor].
  - apply wp_bind. eapply wp_mono; [apply run_chunk_wp|..]; cbv beta.
    + intros [] w1 [Hm Hsig]. eapply wp_mono; [apply IH|..]; cbv beta.
      * intros _ w2 [Hm2 Hall]. split; [by eapply merged_trans|by constructor].
      * intros e w2 [Hstop Hcause]. split; [by eapply stopped_later|].
        destruct Hcause as [(-> & l1 & cs' & l2 & -> & Hcs' & Hm2)|?]; [left|by right].
        split; [done|]. exists (cs :: l1), cs', l2. split; [done|]. split; [done|].
        cbn [fmap list_fmap concat]. by eapply merged_trans.
    + intros e w1 [Hstop Hcause]. split; [by apply stopped_more|].
      destruct Hcause as [(-> & Hcs & ->)|?]; [left|by right].
      split; [done|]. exists [], cs, l. split; [done|]. split; [done|].
      apply merged_refl.
Qed.

(** The whole of [main]: whatever happens, the accumulated entries are
    what the ledger accepts of the candidate records that arrived
    before the run stopped; the two counters of the summary are the
    number of entries and the number of seen words. *)
Lemma main_wp (a : args) (w : world) :
  wp (main signal as_completed splitext a)
    (fun s w' =>
       stopped signal w (arrivals as_completed a) w' ∧
       total_entries s = length (all_entries w') ∧
       total_unique s = size (global_seen_words w'))
    (fun e w' => stopped signal w (arrivals as_completed a) w')
    w.
Proof.
  unfold main, arrivals. apply wp_bind, wp_try.
  match goal with
  | |- wp _ ?Q _ _ =>
      assert (∀ u w1,
        stopped signal w (concat (chunk_arrivals as_completed a
                                    <$> default [] (chunk_starts a))) w1 →
        Q u w1) as Hrest
  end.
  { intros _ w1 Hstop. apply wp_bind, wp_gets, wp_bind.
    eapply wp_mono; [apply save_to_csv_wp|..]; cbv beta.
    - intros _ w2 (HA & HS & HF & _).
      assert (stopped signal w (concat (chunk_arrivals as_completed a
                                <$> default [] (chunk_starts a))) w2)
        by (by eapply stopped_frame).
      apply wp_bind, wp_tick; [done|]. intros _.
      apply wp_bind, wp_gets, wp_ret. simpl. by rewrite HA.
    - intros e w2 (_ & _ & HA & HS & HF). by eapply stopped_frame. }
  destruct (chunk_starts a) as [starts|]; simpl default in *.
  - eapply wp_mono; [apply chunk_loop_wp|..]; cbv beta.
    + intros u w1 [Hm _]. by apply Hrest, merged_stopped.
    + intros e w1 [Hstop _]. destruct (is_KeyboardInterrupt e); [|done].
      by apply wp_ret, Hrest.
  - apply wp_raise. simpl. by apply stopped_here.
Qed.

(** What [run] leaves behind, read off [main_wp]. *)
Lemma run_stopped (a : args) (fs : gmap string (list row)) :
  stopped signal (World [] ∅ fs) (arrivals as_completed a)
    (run signal as_completed splitext a fs).2 ∧
  ∀ s, (run signal as_completed splitext a fs).1 = Ok s →
    total_entries s = length (all_entries (run signal as_completed splitext a fs).2) ∧
    total_unique s
    = size (global_seen_words (run signal as_completed splitext a fs).2).
Proof.
  pose proof (main_wp a (World [] ∅ fs)) as H. unfold wp in H. unfold run.
  destruct (main signal as_completed splitext a (World [] ∅ fs)) as [[s|e] w'];
    simpl; [|done].
  destruct H as (? & ? & ?). split; [done|]. by intros ? [= <-].
Qed.

(** When a chunk is complete and the ledger has kept at least one of its
    records, the checkpoint of the chunk holds these records. *)
Lemma run_chunk_checkpoint (a : args) (i : nat) (chunk_start : Z) (w : world) :
  wp (run_chunk signal as_completed splitext a i tt chunk_start)
    (fun _ w' =>
       accepted (global_seen_words w) (chunk_arrivals as_completed a chunk_start) ≠ [] →
       files w' !! chunk_filename splitext a chunk_start (chunk_end_of a chunk_start)
       = Some (fieldnames
               :: (entry_row <$> accepted (global_seen_words w)
                                   (chunk_arrivals as_completed a chunk_start))))
    (fun _ _ => True)
    w.
Proof.
  unfold run_chunk, chunk_arrivals. apply wp_bind, wp_tick; [done|].
  intros _. apply wp_bind, wp_pool; [done|]. intros _. apply wp_bind.
  eapply wp_mono; [apply merge_loop_wp|..]; cbv beta; [|done].
  intros chunk_entries w1 [Hce _]. simpl in Hce. rewrite <-Hce.
  apply wp_bind, wp_tick; [done|]. intros _.
  destruct chunk_entries as [|e0 chunk_entries]; [by apply wp_ret|].
  eapply wp_mono; [apply save_to_csv_wp|..]; cbv beta; [|done].
  intros _ w2 (_ & _ & _ & Hfile) _. by apply Hfile.
Qed.

End RunFacts.

(** ** Deduplication, interruption, artifacts and counters *)

Lemma scrape_elements_NoDup (page_num : Z) (today : string)
    (elements : list container) :
  ∀ (seen_words : gset string) (entries : list entry),
    NoDup (entry_key <$> entries) →
    (∀ e, e ∈ entries → entry_key e ∈ seen_words) →
    NoDup (entry_key <$> scrape_elements page_num today elements seen_words entries).
Proof.
  induction elements as [|[element broken] rest IH];
    intros seen_words entries Hnd Hseen; cbn [scrape_elements]; [done|].
  destruct broken as [[]|]; [by apply IH| |].
  - destruct (negb _); [by apply IH|]. case_decide as Hin; [by apply IH|].
    apply IH; [done|]. intros e He. apply elem_of_union_l. by apply Hseen.
  - destruct (negb _); [by apply IH|]. case_decide as Hin; [by apply IH|].
    apply IH.
    + rewrite fmap_app. apply NoDup_app. split; [done|].
      split; [|apply NoDup_singleton].
      intros k (e & -> & He)%list_elem_of_fmap Hk.
      apply list_elem_of_singleton in Hk.
      apply Hin. unfold entry_key at 2 in Hk. simpl in Hk. rewrite <-Hk.
      by apply Hseen.
    + intros e [He| ->%list_elem_of_singleton]%elem_of_app.
      * apply elem_of_union_l. by apply Hseen.
      * apply elem_of_union_r, elem_of_singleton. reflexivity.
Qed.

Lemma range3_NoDup (first stop step : Z) (l : list Z) :
  Py.range3 first stop step = Some l → NoDup l.
Proof.
  unfold Py.range3. destruct (Z.eqb_spec step 0); [done|]. intros [= <-].
  apply NoDup_fmap_2_strong; [|apply NoDup_seq]. intros i j _ _ Heq. nia.
Qed.

Lemma NoDup_split_at {A} (l l1 l2 : list A) (x : A) (i : nat) :
  NoDup l → l !! i = Some x → l = l1 ++ x :: l2 → l1 = take i l.
Proof.
  intros Hnd Hi ->.
  assert (i = length l1) as ->.
  { eapply NoDup_lookup; [done..|]. apply list_lookup_middle. done. }
  by rewrite take_app_length.
Qed.

(** C10, as the code has it.  When no interrupt falls inside the merge of
    a page (lines 330-339), the number of accumulated entries equals the
    number of seen words when the run ends, and the two counters of the
    summary are equal. *)
Theorem C10_counters_agree_outside_merge
    (signal : point → bool)
    (as_completed : list Z → list (Z * outcome (list entry)))
    (splitext : string → string * string)
    (a : args) (fs : gmap string (list row)) :
  quiet_merge signal →
  let r := run signal as_completed splitext a fs in
  length (all_entries r.2) = size (global_seen_words r.2) ∧
  ∀ s, r.1 = Ok s → total_entries s = total_unique s.
Proof.
  intros Hquiet r.
  destruct (run_stopped signal as_completed splitext a fs)
    as [(X' & _ & HA & _ & HS & _) Hsum].
  fold r in HA, HS, Hsum. simpl in HA, HS. specialize (HS Hquiet).
  assert (length (all_entries r.2) = size (global_seen_words r.2)) as Heq.
  { rewrite HA, HS, accepted_size, size_empty. done. }
  split; [done|]. intros s Hs. destruct (Hsum s Hs) as [-> ->]. done.
Qed.

(** A run that nobody interrupts. *)
Lemma C10_counters_witness :
  let r := run no_signal sample_futures sample_splitext sample_args ∅ in
  length (all_entries r.2) = size (global_seen_words r.2) ∧
  ∀ s, r.1 = Ok s → total_entries s = total_unique s.
Proof.
  apply (C10_counters_agree_outside_merge no_signal sample_futures sample_splitext
           sample_args ∅).
  intros page j. repeat split; reflexivity.
Defined.

(** Ctrl-C between lines 333 and 334, while the first record of page 1
    is merged: its key is in the set of seen words, the record is in no
    list.  The run ends with 0 entries collected and 1 unique word. *)
Lemma C10_interrupt_inside_merge :
  ∃ s, (run (signal_at (AtAppend 1 0)) sample_futures sample_splitext
          sample_args ∅).1 = Ok s ∧
       total_entries s = 0%nat ∧ total_unique s = 1%nat ∧
       total_entries s ≠ total_unique s.
Proof. exists (Summary 0 1). split; [vm_compute; reflexivity|]. by repeat split. Qed.

(** C5, as the code has it.  The checkpoint of a chunk is named after
    the positions of the chunk in the list of pages, not after its page
    identifiers: for the chunk of pages [s..e] the name is
    [{base}_chunk{s - start}-{e - start + 1}.csv], where [base] is the
    output path without its extension.  The file is written as the chunk
    ends: when the step of the chunk returns and the ledger has kept one
    of its records, the file of that name holds them.  The names of the
    chunks of a run are pairwise different. *)
Theorem C5_chunk_names_by_offset
    (signal : point → bool)
    (as_completed : list Z → list (Z * outcome (list entry)))
    (splitext : string → string * string) (a : args) :
  start a ≤ end_ a → 0 < chunk_size a →
  ∃ starts : list Z,
    chunk_starts a = Some starts ∧
    (∀ (i : nat) cs, starts !! i = Some cs →
       ∃ s e,
         hd_error (chunk_pages_of a cs) = Some s ∧
         last (chunk_pages_of a cs) = Some e ∧
         chunk_filename splitext a cs (chunk_end_of a cs)
         = (splitext (output a)).1 +:+ "_chunk" +:+ Py.str (s - start a) +:+ "-"
             +:+ Py.str (e - start a + 1) +:+ ".csv" ∧
         ∀ w u w',
           run_chunk signal as_completed splitext a i tt cs w = (Ok u, w') →
           accepted (global_seen_words w) (chunk_arrivals as_completed a cs) ≠ [] →
           files w' !! chunk_filename splitext a cs (chunk_end_of a cs)
           = Some (fieldnames
                   :: (entry_row <$> accepted (global_seen_words w)
                                       (chunk_arrivals as_completed a cs)))) ∧
    NoDup ((fun cs => chunk_filename splitext a cs (chunk_end_of a cs)) <$> starts).
Proof.
  intros Hrange Hsize. eexists. split; [by apply chunk_starts_eq|]. split.
  - intros i cs. rewrite list_lookup_fmap.
    destruct (seq 0 _ !! i) as [i'|] eqn:Hi; [|done].
    apply lookup_seq in Hi as [-> Hi]. simpl. intros [= <-].
    pose proof (count_tight a Hsize i Hi) as Hlt.
    destruct (chunk_pages_range a Hrange Hsize (Z.of_nat i * chunk_size a))
      as [Hpages Hend]; [lia..|].
    unfold page_count in Hlt.
    set (cs := Z.of_nat i * chunk_size a) in *.
    exists (start a + cs), (start a + chunk_end_of a cs - 1).
    rewrite Hpages, <-Hend.
    assert (cs < chunk_end_of a cs) by lia.
    split; [by rewrite range2_cons by lia|].
    split; [rewrite range2_snoc by lia; apply last_snoc|].
    split.
    + replace (start a + cs - start a) with cs by lia.
      by replace (start a + chunk_end_of a cs - 1 - start a + 1)
        with (chunk_end_of a cs) by lia.
    + intros w u w' Hrun.
      pose proof (run_chunk_checkpoint signal as_completed splitext a i cs w) as H'.
      unfold wp in H'. by rewrite Hrun in H'.
  - apply NoDup_fmap_2_strong.
    + intros cs cs' [i [-> _]]%list_elem_of_fmap [i' [-> _]]%list_elem_of_fmap Heq.
      apply chunk_filename_inj in Heq; [done|lia..].
    + apply NoDup_fmap_2_strong; [|apply NoDup_seq].
      intros i i' _ _ Heq. nia.
Qed.

(** The names of the run over the pages 1 to 120 in chunks of 50. *)
Lemma C5_chunk_names_witness :
  ∃ starts : list Z,
    chunk_starts (Args 1 120 2 "out.csv" 50) = Some starts ∧
    (∀ (i : nat) cs, starts !! i = Some cs →
       ∃ s e,
         hd_error (chunk_pages_of (Args 1 120 2 "out.csv" 50) cs) = Some s ∧
         last (chunk_pages_of (Args 1 120 2 "out.csv" 50) cs) = Some e ∧
         chunk_filename sample_splitext (Args 1 120 2 "out.csv" 50) cs
           (chunk_end_of (Args 1 120 2 "out.csv" 50) cs)
         = "out" +:+ "_chunk" +:+ Py.str (s - 1) +:+ "-"
             +:+ Py.str (e - 1 + 1) +:+ ".csv" ∧
         ∀ w u w',
           run_chunk no_signal sample_futures sample_splitext
             (Args 1 120 2 "out.csv" 50) i tt cs w = (Ok u, w') →
           accepted (global_seen_words w)
             (chunk_arrivals sample_futures (Args 1 120 2 "out.csv" 50) cs) ≠ [] →
           files w' !! chunk_filename sample_splitext (Args 1 120 2 "out.csv" 50) cs
                         (chunk_end_of (Args 1 120 2 "out.csv" 50) cs)
           = Some (fieldnames
                   :: (entry_row <$> accepted (global_seen_words w)
                         (chunk_arrivals sample_futures
                            (Args 1 120 2 "out.csv" 50) cs)))) ∧
    NoDup ((fun cs => chunk_filename sample_splitext
                        (Args 1 120 2 "out.csv" 50) cs
                        (chunk_end_of (Args 1 120 2 "out.csv" 50) cs)) <$> starts).
Proof.
  apply (C5_chunk_names_by_offset no_signal sample_futures sample_splitext
           (Args 1 120 2 "out.csv" 50)); simpl; lia.
Defined.

(** The first chunk of a run over the pages 1 to 120 holds the pages 1 to
    50; its checkpoint is [out_chunk0-50.csv], not the name built from
    the page identifiers 1 and 50. *)
Lemma C5_name_is_not_page_range :
  chunk_pages_of (Args 1 120 2 "out.csv" 50) 0 = Py.range2 1 51 ∧
  chunk_filename sample_splitext (Args 1 120 2 "out.csv" 50) 0
    (chunk_end_of (Args 1 120 2 "out.csv" 50) 0) = "out_chunk0-50.csv" ∧
  "out_chunk0-50.csv" ≠ "out_chunk1-50.csv" ∧
  "out_chunk0-50.csv" ≠ "out_chunk1-50".
Proof. repeat split; try (vm_compute; reflexivity); discriminate. Qed.

(** * Further properties *)

(** ** Retrying, attempt by attempt *)

Section RetryMore.

Variable scrape : nat -> Z -> outcome (list entry).

Lemma retry_loop_first_success (page_num max_retries : Z) (entries : list entry) :
  ∀ (k n : nat) (a0 : Z) (calls : nat),
    (k < n)%nat →
    a0 + Z.of_nat n = max_retries →
    (∀ j : nat, (j < k)%nat →
       ∃ what, scrape (calls + j)%nat page_num = Raise (Exception what)) →
    scrape (calls + k)%nat page_num = Ok entries →
    retry_loop scrape page_num max_retries
      ((fun i : nat => a0 + Z.of_nat i) <$> seq 0 n) calls
    = (Ok (PyList entries), S (calls + k)).
Proof.
  induction k as [|k IH]; intros n a0 calls Hkn Hmax Hfail Hok;
    destruct n as [|n]; try lia.
  - cbn [seq fmap list_fmap retry_loop].
    rewrite Nat.add_0_r in Hok. rewrite Hok. do 2 f_equal. lia.
  - change (seq 0 (S n)) with (0%nat :: seq 1 n).
    rewrite fmap_cons, <-fmap_S_seq, <-list_fmap_compose. cbn [retry_loop].
    destruct (Hfail 0%nat ltac:(lia)) as [what Hw].
    rewrite Nat.add_0_r in Hw. rewrite Hw. simpl is_Exception. cbv iota.
    destruct (Z.ltb_spec (a0 + Z.of_nat 0) (max_retries - 1)); [|lia].
    rewrite (list_fmap_ext _ (fun i : nat => (a0 + 1) + Z.of_nat i) (seq 0 n))
      by (intros; simpl; lia).
    rewrite (IH n (a0 + 1) (S calls)); [f_equal; lia|lia|lia| |].
    + intros j Hj. destruct (Hfail (S j) ltac:(lia)) as [what' Hw'].
      exists what'. rewrite <-Hw'. f_equal. lia.
    + rewrite <-Hok. f_equal. lia.
Qed.

Lemma retry_loop_calls (page_num max_retries : Z) :
  ∀ attempts calls,
    (calls ≤ (retry_loop scrape page_num max_retries attempts calls).2
     ≤ calls + length attempts)%nat.
Proof.
  induction attempts as [|attempt rest IH]; intros calls; simpl; [lia|].
  destruct (scrape calls page_num) as [entries|e]; simpl; [lia|].
  destruct (is_Exception e); simpl; [|lia].
  destruct (attempt <? max_retries - 1); simpl; [|lia].
  specialize (IH (S calls)). lia.
Qed.

End RetryMore.

(** X1.  [scrape_page_with_retry] stops at the first attempt that
    returns: when the first [k] calls raise an [Exception] and call
    [k] returns, with [k] below [max_retries], the result is the list of
    that call and the extraction has been called [k + 1] times. *)
Theorem X1_retry_returns_first_success
    (scrape : nat -> Z -> outcome (list entry)) (page_num max_retries : Z)
    (k : nat) (entries : list entry) :
  Z.of_nat k < max_retries →
  (∀ j : nat, (j < k)%nat → ∃ what, scrape j page_num = Raise (Exception what)) →
  scrape k page_num = Ok entries →
  scrape_page_with_retry scrape page_num max_retries
  = (Ok (PyList entries), S k).
Proof.
  intros Hk Hfail Hok. unfold scrape_page_with_retry, Py.range, Py.range2.
  apply (retry_loop_first_success scrape page_num max_retries entries
           k (Z.to_nat (max_retries - 0)) 0 0); [lia|lia|done|done].
Qed.

(** Two timeouts, then a record at the third of three attempts. *)
Lemma X1_retry_witness :
  scrape_page_with_retry third_time_lucky 7 default_max_retries
  = (Ok (PyList [sample_entry "yeet" 7]), 3%nat).
Proof.
  apply (X1_retry_returns_first_success third_time_lucky 7 default_max_retries 2).
  - unfold default_max_retries. lia.
  - intros j Hj. exists "timeout". unfold third_time_lucky.
    destruct j as [|[|j]]; [reflexivity|reflexivity|lia].
  - reflexivity.
Defined.

(** X2.  Whatever the extraction does, it is called at most
    [max_retries] times, and not at all when [max_retries] is zero or
    negative; with [max_retries] at least 1 it is called at least once. *)
Theorem X2_retry_attempts_bounded
    (scrape : nat -> Z -> outcome (list entry)) (page_num max_retries : Z) :
  ((scrape_page_with_retry scrape page_num max_retries).2
   ≤ Z.to_nat max_retries)%nat ∧
  (1 ≤ max_retries →
   (1 ≤ (scrape_page_with_retry scrape page_num max_retries).2)%nat).
Proof.
  unfold scrape_page_with_retry, Py.range, Py.range2. split.
  - pose proof (retry_loop_calls scrape page_num max_retries
                  ((fun i : nat => 0 + Z.of_nat i) <$> seq 0 (Z.to_nat (max_retries - 0)))
                  0) as H.
    rewrite length_fmap, length_seq in H. lia.
  - intros Hpos. destruct (Z.to_nat (max_retries - 0)) as [|n] eqn:Hn; [lia|].
    cbn [seq fmap list_fmap retry_loop].
    destruct (scrape 0%nat page_num) as [entries|e]; simpl; [lia|].
    destruct (is_Exception e); simpl; [|lia].
    destruct (_ <? _); simpl; [|lia].
    pose proof (retry_loop_calls scrape page_num max_retries
                  ((fun i : nat => 0 + Z.of_nat i) <$> seq 1 n) 1) as H. lia.
Qed.

(** X3.  [scrape_page] keeps its failures to itself: an [Exception]
    from the driver set-up or from the page load gives the empty list,
    and what the function raises comes from [driver.quit()] in the
    [finally] clause or is not an [Exception].  An exception of
    [driver.quit()] replaces the result, also the entries of a page that
    was read without fault. *)
Theorem X3_scrape_page_failures (page_num : Z) (today : string) (v : visit) :
  (∀ e, driver_error v = Some e → is_Exception e = true →
        scrape_page page_num today v = Ok []) ∧
  (∀ e, driver_error v = None → loaded v = Raise e → is_Exception e = true →
        quit_error v = None → scrape_page page_num today v = Ok []) ∧
  (∀ e, driver_error v = None → quit_error v = Some e →
        scrape_page page_num today v = Raise e) ∧
  (∀ e, scrape_page page_num today v = Raise e →
        (driver_error v = None ∧ quit_error v = Some e) ∨ is_Exception e = false).
Proof.
  unfold scrape_page. repeat split.
  - intros e -> He. rewrite He. by destruct (quit_error v).
  - intros e -> -> He ->. by rewrite He.
  - by intros e -> ->.
  - apply scrape_page_raises.
Qed.

(** X4.  On a browser whose sessions quit without fault and raise
    nothing but [Exception]s, [scrape_page_with_retry] never retries:
    the first call of [scrape_page] returns, a failed load as the empty
    list, and that is the result after one call. *)
Theorem X4_load_failure_is_not_retried
    (today : string) (visits : nat -> visit) (page_num max_retries : Z) :
  1 ≤ max_retries →
  quits_cleanly (visits 0%nat) → visit_contained (visits 0%nat) →
  ∃ entries,
    scrape_page page_num today (visits 0%nat) = Ok entries ∧
    scrape_page_with_retry (scrape_with today visits) page_num max_retries
    = (Ok (PyList entries), 1%nat) ∧
    (∀ e, loaded (visits 0%nat) = Raise e → entries = []) ∧
    (∀ e, driver_error (visits 0%nat) = Some e → entries = []).
Proof.
  intros Hpos Hquit (Hd & Hl & Hq). unfold quits_cleanly in Hquit.
  assert (∃ entries,
            scrape_page page_num today (visits 0%nat) = Ok entries ∧
            (∀ e, loaded (visits 0%nat) = Raise e → entries = []) ∧
            (∀ e, driver_error (visits 0%nat) = Some e → entries = []))
    as (entries & Hs & Hload & Hdriver).
  { unfold scrape_page. rewrite Hquit.
    destruct (driver_error (visits 0%nat)) as [e1|] eqn:Hde.
    - rewrite (Hd e1 eq_refl). by exists [].
    - destruct (loaded (visits 0%nat)) as [elements|e2] eqn:Hlo.
      + eexists. split; [done|]. by split.
      + rewrite (Hl e2 eq_refl). by exists []. }
  exists entries. split; [done|]. split; [|done].
  unfold scrape_page_with_retry, Py.range, Py.range2.
  apply (retry_loop_first_success (scrape_with today visits) page_num
           max_retries entries 0 (Z.to_nat (max_retries - 0)) 0 0);
    [lia|lia|intros; lia|done].
Qed.

(** A load that times out: one call, the empty list. *)
Lemma X4_load_failure_witness :
  ∃ entries,
    scrape_page 7 "2024-01-01" timed_out = Ok entries ∧
    scrape_page_with_retry (scrape_with "2024-01-01" (fun _ => timed_out)) 7
      default_max_retries
    = (Ok (PyList entries), 1%nat) ∧
    (∀ e, loaded timed_out = Raise e → entries = []) ∧
    (∀ e, driver_error timed_out = Some e → entries = []).
Proof.
  apply (X4_load_failure_is_not_retried "2024-01-01" (fun _ => timed_out) 7
           default_max_retries).
  - unfold default_max_retries. lia.
  - reflexivity.
  - repeat split; intros e [= <-]; reflexivity.
Defined.

(** ** Trimmed texts *)

Lemma rstrip_by_empty (p : ascii → bool) (s : string) :
  Py.rstrip_by p s = EmptyString → Py.lstrip_by p s = EmptyString.
Proof.
  induction s as [|c s IH]; [done|]. simpl.
  destruct (Py.rstrip_by p s) eqn:Hr; [|done].
  destruct (p c); [|done]. intros _. by apply IH.
Qed.

Lemma lstrip_rstrip_head (p : ascii → bool) (c : ascii) (s : string) :
  p c = false →
  Py.lstrip_by p (Py.rstrip_by p (String c s)) = Py.rstrip_by p (String c s).
Proof.
  intros Hc. cbn [Py.rstrip_by].
  destruct (Py.rstrip_by p s); rewrite ?Hc; cbn [Py.lstrip_by]; by rewrite Hc.
Qed.

Lemma lstrip_rstrip_comm (p : ascii → bool) (s : string) :
  Py.lstrip_by p (Py.rstrip_by p s) = Py.rstrip_by p (Py.lstrip_by p s).
Proof.
  induction s as [|c s IH]; [done|].
  destruct (p c) eqn:Hc.
  - cbn [Py.lstrip_by]. rewrite Hc, <-IH. cbn [Py.rstrip_by].
    destruct (Py.rstrip_by p s) as [|d r] eqn:Hr.
    + by rewrite Hc.
    + cbn [Py.lstrip_by]. by rewrite Hc.
  - rewrite lstrip_rstrip_head by done. cbn [Py.lstrip_by]. by rewrite Hc.
Qed.

Lemma lstrip_by_idemp (p : ascii → bool) (s : string) :
  Py.lstrip_by p (Py.lstrip_by p s) = Py.lstrip_by p s.
Proof.
  induction s as [|c s IH]; [done|]. simpl.
  destruct (p c) eqn:Hc; [done|]. simpl. by rewrite Hc.
Qed.

Lemma rstrip_by_idemp (p : ascii → bool) (s : string) :
  Py.rstrip_by p (Py.rstrip_by p s) = Py.rstrip_by p s.
Proof.
  induction s as [|c s IH]; [done|]. simpl.
  destruct (Py.rstrip_by p s) as [|d r] eqn:Hr.
  - destruct (p c) eqn:Hc; [done|]. simpl. by rewrite Hc.
  - cbn [Py.rstrip_by] in *. rewrite IH. done.
Qed.

Lemma strip_stripped (s : string) : stripped (Py.strip s).
Proof.
  unfold stripped, Py.strip.
  by rewrite lstrip_rstrip_comm, lstrip_by_idemp, rstrip_by_idemp.
Qed.

Lemma lower_char_space (c : ascii) : Py.isspace (Py.lower_char c) = Py.isspace c.
Proof. destruct c as [[] [] [] [] [] [] [] []]; reflexivity. Qed.

Lemma lower_lstrip (s : string) :
  Py.lstrip_by Py.isspace (Py.lower s) = Py.lower (Py.lstrip_by Py.isspace s).
Proof.
  induction s as [|c s IH]; [done|]. simpl. rewrite lower_char_space.
  by destruct (Py.isspace c).
Qed.

Lemma lower_rstrip (s : string) :
  Py.rstrip_by Py.isspace (Py.lower s) = Py.lower (Py.rstrip_by Py.isspace s).
Proof.
  induction s as [|c s IH]; [done|]. simpl. rewrite IH, lower_char_space.
  destruct (Py.rstrip_by Py.isspace s); simpl; [by destruct (Py.isspace c)|done].
Qed.

Lemma word_key_lower_strip (w : string) : word_key w = Py.lower (Py.strip w).
Proof. unfold word_key, Py.strip. by rewrite lower_lstrip, lower_rstrip. Qed.

Lemma lower_truthy (s : string) : Py.truthy (Py.lower s) = Py.truthy s.
Proof. by destruct s. Qed.

Lemma extract_text_safely_stripped (el : element) (selector : string) :
  stripped (extract_text_safely el selector EmptyString).
Proof.
  unfold extract_text_safely.
  repeat case_match; (apply strip_stripped || reflexivity).
Qed.

(** ** The records of a page *)

Lemma scrape_elements_ledger (page_num : Z) (today : string)
    (definition_elements : list element) :
  ∀ (seen_words : gset string) (entries : list entry),
    scrape_elements page_num today (sound <$> definition_elements) seen_words entries
    = entries ++ accepted seen_words
                   (page_candidates page_num today definition_elements).
Proof.
  unfold page_candidates.
  induction definition_elements as [|el rest IH]; intros seen_words entries;
    cbn [scrape_elements fmap list_fmap sound]; [by rewrite app_nil_r|].
  fold (element_word el). rewrite filter_cons.
  destruct (decide (Is_true (Py.truthy (element_word el)))) as [Hw|Hw].
  - rewrite (Is_true_true_1 _ Hw). cbn [negb]. rewrite fmap_cons. cbn [accepted].
    change (entry_key (element_entry page_num today el))
      with (word_key (element_word el)).
    destruct (decide (word_key (element_word el) ∈ seen_words)); [apply IH|].
    rewrite IH, <-app_assoc. done.
  - rewrite (Is_true_false_1 _ Hw). apply IH.
Qed.

(** Which records the loop over the containers of a page emits: the
    record of a container that does not break and whose key no earlier
    container had. *)
Lemma scrape_elements_elem (page_num : Z) (today : string)
    (containers : list container) :
  ∀ (seen_words : gset string) (entries : list entry) (e : entry),
    e ∈ scrape_elements page_num today containers seen_words entries ↔
    e ∈ entries ∨
    ∃ (i : nat) c,
      containers !! i = Some c ∧ breaks c = None ∧
      e = element_entry page_num today (shown c) ∧
      container_key c = Some (entry_key e) ∧
      (entry_key e ∉ seen_words) ∧
      (∀ (j : nat) c', (j < i)%nat → containers !! j = Some c' →
                       container_key c' ≠ Some (entry_key e)).
Proof.
  induction containers as [|[el broken] rest IH]; intros seen_words entries e.
  { cbn [scrape_elements]. split; [by left|]. by intros [?|(i & c & ? & _)]. }
  assert (∀ seen' : gset string,
    (container_key (Container el broken) = None ∧ seen' = seen_words) ∨
    (∃ k, container_key (Container el broken) = Some k ∧ k ∈ seen_words ∧
          seen' = seen_words) ∨
    (∃ k, container_key (Container el broken) = Some k ∧ k ∉ seen_words ∧
          broken ≠ None ∧ seen' = seen_words ∪ {[k]}) →
    (e ∈ scrape_elements page_num today rest seen' entries ↔
     e ∈ entries ∨
     ∃ (i : nat) c,
       (Container el broken :: rest) !! i = Some c ∧ breaks c = None ∧
       e = element_entry page_num today (shown c) ∧
       container_key c = Some (entry_key e) ∧
       (entry_key e ∉ seen_words) ∧
       (∀ (j : nat) c', (j < i)%nat → (Container el broken :: rest) !! j = Some c' →
                        container_key c' ≠ Some (entry_key e)))) as Hskip.
  { intros seen' Hcase. rewrite IH. split.
    - intros [?|(i & c & Hi & Hb & He & Hk & Hfresh & Hfirst)]; [by left|right].
      exists (S i), c. split; [done|]. split; [done|]. split; [done|].
      split; [done|]. split.
      { destruct Hcase as [[_ ->]|[(k & ? & ? & ->)|(k & ? & ? & ? & ->)]];
          [done|done|set_solver]. }
      intros [|j] c' Hj Hc'; [|apply (Hfirst j); [lia|done]].
      injection Hc' as <-.
      destruct Hcase as [[-> _]|[(k & -> & Hin & ->)|(k & -> & Hin & _ & ->)]];
        [done|intros [= ->]; done|intros [= ->]; set_solver].
    - intros [?|(i & c & Hi & Hb & He & Hk & Hfresh & Hfirst)]; [by left|].
      destruct i as [|i].
      + injection Hi as <-. exfalso. cbn [breaks] in Hb.
        destruct Hcase as [[Hn _]|[(k & Hk' & Hin & _)|(k & _ & _ & Hbr & _)]];
          [congruence| |done].
        rewrite Hk' in Hk. injection Hk as ->. done.
      + right. exists i, c. split; [done|]. split; [done|]. split; [done|].
        split; [done|]. split.
        * destruct Hcase as [[_ ->]|[(k & ? & ? & ->)|(k & Hk' & ? & ? & ->)]];
            [done|done|].
          apply not_elem_of_union. split; [done|].
          intros Heq%elem_of_singleton.
          apply (Hfirst 0%nat (Container el broken)); [lia|done|].
          by rewrite Hk', Heq.
        * intros j c' Hj Hc'. apply (Hfirst (S j)); [lia|done]. }
  cbn [scrape_elements]. unfold container_key in Hskip. cbn [breaks shown] in Hskip.
  fold (element_word el). destruct broken as [[]|].
  - apply Hskip. by left.
  - destruct (Py.truthy (element_word el)) eqn:Hw; cbn [negb];
      [|apply Hskip; by left].
    destruct (decide (word_key (element_word el) ∈ seen_words)) as [Hin|Hin].
    + apply Hskip. right; left. by eexists.
    + apply Hskip. right; right. by eexists.
  - destruct (Py.truthy (element_word el)) eqn:Hw; cbn [negb];
      [|apply Hskip; by left].
    destruct (decide (word_key (element_word el) ∈ seen_words)) as [Hin|Hin].
    + apply Hskip. right; left. by eexists.
    + fold (element_entry page_num today el). rewrite IH. split.
      * intros [[?| ->%list_elem_of_singleton]%elem_of_app
               |(i & c & Hi & Hb & He & Hk & Hfresh & Hfirst)].
        -- by left.
        -- right. exists 0%nat, (Container el None). unfold container_key.
           cbn [breaks shown]. rewrite Hw. repeat split; try done.
           intros j c' Hj. lia.
        -- right. exists (S i), c. repeat split; try done; [set_solver|].
           intros [|j] c' Hj Hc'; [|apply (Hfirst j); [lia|done]].
           injection Hc' as <-. unfold container_key. cbn [breaks shown].
           rewrite Hw. intros [= Heq]. set_solver.
      * intros [?|(i & c & Hi & Hb & He & Hk & Hfresh & Hfirst)].
        -- left. apply elem_of_app. by left.
        -- destruct i as [|i].
           ++ injection Hi as <-. cbn [shown] in He. subst e. left.
              apply elem_of_app. right. by apply list_elem_of_singleton.
           ++ right. exists i, c. repeat split; try done.
              ** apply not_elem_of_union. split; [done|].
                 intros Heq%elem_of_singleton.
                 apply (Hfirst 0%nat (Container el None)); [lia|done|].
                 unfold container_key. cbn [breaks shown]. by rewrite Hw, Heq.
              ** intros j c' Hj Hc'. apply (Hfirst (S j)); [lia|done].
Qed.

Lemma scrape_elements_length (page_num : Z) (today : string)
    (containers : list container) :
  ∀ (seen_words : gset string) (entries : list entry),
    (length (scrape_elements page_num today containers seen_words entries)
     ≤ length entries + length containers)%nat.
Proof.
  induction containers as [|[el broken] rest IH]; intros seen_words entries;
    cbn [scrape_elements length]; [lia|].
  assert (∀ seen', (length (scrape_elements page_num today rest seen' entries)
                    ≤ length entries + S (length rest))%nat) as Hskip.
  { intros seen'. specialize (IH seen' entries). lia. }
  destruct broken as [[]|]; [apply Hskip| |].
  - destruct (negb _); [apply Hskip|]. case_decide; apply Hskip.
  - destruct (negb _); [apply Hskip|]. case_decide; [apply Hskip|].
    match goal with
    | |- (length (scrape_elements _ _ _ ?seen' (entries ++ [?e])) ≤ _)%nat =>
        specialize (IH seen' (entries ++ [e]))
    end.
    rewrite length_app in IH. cbn [length] in IH. lia.
Qed.

Lemma accepted_distinct (l : list entry) :
  ∀ seen : gset string,
    NoDup (entry_key <$> l) → (∀ e, e ∈ l → entry_key e ∉ seen) →
    accepted seen l = l.
Proof.
  induction l as [|e l IH]; intros seen Hnd Hfresh; [done|]. cbn [accepted].
  rewrite fmap_cons in Hnd. apply NoDup_cons in Hnd as [Hnotin Hnd].
  rewrite decide_False by (apply Hfresh; left). f_equal. apply IH; [done|].
  intros e' He'. apply not_elem_of_union. split; [apply Hfresh; by right|].
  intros Heq%elem_of_singleton. apply Hnotin. rewrite <-Heq.
  by apply list_elem_of_fmap_2.
Qed.

Lemma accepted_absorbs (l : list entry) :
  ∀ seen0 seen : gset string,
    seen0 ⊆ seen → accepted seen (accepted seen0 l) = accepted seen l.
Proof.
  induction l as [|e l IH]; intros seen0 seen Hsub; [done|]. cbn [accepted].
  destruct (decide (entry_key e ∈ seen0)) as [Hin0|Hin0].
  - rewrite decide_True by set_solver. by apply IH.
  - cbn [accepted]. destruct (decide (entry_key e ∈ seen)) as [Hin|Hin].
    + apply IH. set_solver.
    + f_equal. apply IH. set_solver.
Qed.

Lemma accepted_length (l : list entry) :
  ∀ seen : gset string, (length (accepted seen l) ≤ length l)%nat.
Proof.
  induction l as [|e l IH]; intros seen; simpl; [lia|].
  case_decide; simpl.
  - specialize (IH seen). lia.
  - specialize (IH (seen ∪ {[entry_key e]})). lia.
Qed.

(** X5.  On a page none of whose containers breaks, the loop of
    [scrape_page] over the containers is the ledger's filter, started
    empty, on the page's candidate records (one per container that shows
    a word), and the filter of [main] absorbs it: for any set of seen
    words, it keeps of the page's result what it would keep of the
    candidates themselves.  On any page, the records of the result come
    from containers that do not break, no two of them have the same key
    (the filter of [main] on an empty ledger keeps them all) and there
    is at most one per container.  A container that breaks after its key
    is recorded yields no record and takes the place of a later
    container with the same key. *)
Theorem X5_page_dedup_is_ledger_filter (page_num : Z) (today : string) :
  (∀ definition_elements : list element,
     let result :=
       scrape_elements page_num today (sound <$> definition_elements) ∅ [] in
     let candidates := page_candidates page_num today definition_elements in
     result = accepted ∅ candidates ∧
     (∀ seen : gset string, accepted seen result = accepted seen candidates)) ∧
  (∀ containers : list container,
     let result := scrape_elements page_num today containers ∅ [] in
     accepted ∅ result = result ∧
     (length result ≤ length containers)%nat ∧
     (∀ e, e ∈ result →
        ∃ c, c ∈ containers ∧ breaks c = None ∧
             e = element_entry page_num today (shown c))) ∧
  (∀ first second : element,
     Py.truthy (element_word first) = true →
     word_key (element_word first) = word_key (element_word second) →
     scrape_elements page_num today
       [Container first (Some AfterKey); sound second] ∅ [] = []).
Proof.
  split; [|split].
  - intros definition_elements result candidates.
    assert (result = accepted ∅ candidates) as Hr
      by apply scrape_elements_ledger.
    split; [done|]. intros seen. rewrite Hr. apply accepted_absorbs. set_solver.
  - intros containers result. subst result. split; [|split].
    + apply accepted_distinct; [|set_solver].
      apply scrape_elements_NoDup; [constructor|set_solver].
    + pose proof (scrape_elements_length page_num today containers ∅ []) as H.
      cbn [length] in H. lia.
    + intros e [?%elem_of_nil|(i & c & Hi & Hb & He & _)]%scrape_elements_elem;
        [done|].
      exists c. split; [by eapply list_elem_of_lookup_2|done].
  - intros first second Hw Hk. cbn [scrape_elements sound].
    fold (element_word first) (element_word second). rewrite Hw. cbn [negb].
    rewrite decide_False by set_solver.
    destruct (negb (Py.truthy (element_word second))); [done|].
    rewrite decide_True by set_solver. done.
Qed.

(** X6.  Every record [scrape_page] takes from a page has a word that is
    not empty and has no white space around it, so that its key is the
    word in lower case and is not empty either; its definition, example
    and contributor have no white space around them; it carries the
    number of the page and the date of the scrape. *)
Theorem X6_scraped_records_are_trimmed (page_num : Z) (today : string)
    (definition_elements : list container) (e : entry) :
  e ∈ scrape_elements page_num today definition_elements ∅ [] →
  word e ≠ EmptyString ∧ stripped (word e) ∧
  entry_key e = Py.lower (word e) ∧ entry_key e ≠ EmptyString ∧
  stripped (definition e) ∧ stripped (example e) ∧ stripped (contributor e) ∧
  page e = page_num ∧ scraped_date e = today.
Proof.
  intros [?%elem_of_nil|(i & c & _ & _ & -> & Hkey & _)]%scrape_elements_elem;
    [done|].
  set (el := shown c) in *.
  assert (Is_true (Py.truthy (element_word el))) as Hw.
  { revert Hkey. unfold container_key. fold el.
    destruct (breaks c) as [[]|]; [done|..];
      by destruct (Py.truthy (element_word el)). }
  clear Hkey. cbn [word definition example
    contributor page scraped_date element_entry].
  assert (stripped (element_word el)) as Hs by apply extract_text_safely_stripped.
  assert (entry_key (element_entry page_num today el) = Py.lower (element_word el))
    as Hk.
  { unfold entry_key. cbn [word element_entry].
    by rewrite word_key_lower_strip, Hs. }
  split; [by destruct (element_word el)|]. split; [done|]. split; [done|].
  split.
  { rewrite Hk. intros Hl. pose proof (lower_truthy (element_word el)) as Ht.
    rewrite Hl in Ht. rewrite <-Ht in Hw. done. }
  split; [apply extract_text_safely_stripped|].
  split; [apply extract_text_safely_stripped|].
  split; [apply strip_stripped|done].
Qed.

(** A container that shows "  Rizz " and nothing else. *)
Lemma X6_trimmed_witness :
  let e := element_entry 3 "2024-01-01" (word_only "Rizz") in
  word e ≠ EmptyString ∧ stripped (word e) ∧
  entry_key e = Py.lower (word e) ∧ entry_key e ≠ EmptyString ∧
  stripped (definition e) ∧ stripped (example e) ∧ stripped (contributor e) ∧
  page e = 3 ∧ scraped_date e = "2024-01-01".
Proof.
  apply (X6_scraped_records_are_trimmed 3 "2024-01-01" [sound (word_only "Rizz")]).
  replace (scrape_elements 3 "2024-01-01" [sound (word_only "Rizz")] ∅ [])
    with [element_entry 3 "2024-01-01" (word_only "Rizz")]
    by (vm_compute; reflexivity).
  left.
Defined.

(** ** Numbers in and out of text *)

Lemma pretty_N_char_decimal (d : N) :
  (d < 10)%N →
  Py.isdecimal (pretty_N_char d) = true ∧
  Py.digit_value (pretty_N_char d) = Z.of_N d.
Proof.
  intros Hd.
  assert (d = 0 ∨ d = 1 ∨ d = 2 ∨ d = 3 ∨ d = 4 ∨ d = 5 ∨ d = 6 ∨ d = 7
          ∨ d = 8 ∨ d = 9)%N as Hcases by lia.
  repeat (destruct Hcases as [->|Hcases]; [by vm_compute|]). by subst.
Qed.

Lemma pretty_N_go_decimal (x : N) :
  ∀ s, all_chars Py.isdecimal s = true →
       all_chars Py.isdecimal (pretty_N_go x s) = true.
Proof.
  induction (N.lt_wf_0 x) as [x _ IH]; intros s Hs.
  destruct (decide (x = 0%N)) as [->|Hx]; [by rewrite pretty_N_go_0|].
  rewrite pretty_N_go_step by lia. apply IH; [apply N.div_lt; lia|].
  cbn [all_chars]. rewrite Hs.
  by rewrite (proj1 (pretty_N_char_decimal (x `mod` 10)
                       ltac:(apply N.mod_lt; lia))).
Qed.

Lemma pretty_N_go_nonempty (x : N) (s : string) :
  (0 < x)%N → pretty_N_go x s ≠ EmptyString.
Proof.
  revert s. induction (N.lt_wf_0 x) as [x _ IH]; intros s Hx.
  rewrite pretty_N_go_step by done.
  destruct (decide (x `div` 10 = 0)%N) as [->|Hd]; [by rewrite pretty_N_go_0|].
  apply IH; [apply N.div_lt; lia|]. apply N.neq_0_lt_0. done.
Qed.

(** Reading the digits that [str] has written. *)
Lemma parse_pretty_N_go (x : N) :
  (0 < x)%N →
  ∀ acc prev s, ∃ m : Z,
    0 ≤ m ∧
    Py.parse_digits acc prev (pretty_N_go x s)
    = Py.parse_digits (acc * 10 ^ m + Z.of_N x) true s.
Proof.
  induction (N.lt_wf_0 x) as [x _ IH]; intros Hx acc prev s.
  rewrite pretty_N_go_step by done.
  pose proof (pretty_N_char_decimal (x `mod` 10) ltac:(apply N.mod_lt; lia))
    as [Hdec Hval].
  pose proof (N.div_mod x 10 ltac:(lia)) as Hdm.
  destruct (decide (x `div` 10 = 0)%N) as [Hd|Hd].
  - rewrite Hd, pretty_N_go_0. exists 1. split; [lia|].
    cbn [Py.parse_digits]. rewrite Hdec, Hval. f_equal. lia.
  - destruct (IH (x `div` 10)%N ltac:(apply N.div_lt; lia)
                (proj1 (N.neq_0_lt_0 _) Hd) acc prev
                (String (pretty_N_char (x `mod` 10)) s)) as (m & Hm & ->).
    exists (m + 1). split; [lia|].
    cbn [Py.parse_digits]. rewrite Hdec, Hval. f_equal.
    rewrite Z.pow_add_r by lia. lia.
Qed.

Lemma strip_no_space (s : string) :
  all_chars (fun c => negb (Py.isspace c)) s = true → Py.strip s = s.
Proof.
  intros Hall. unfold Py.strip.
  assert (Py.rstrip_by Py.isspace s = s) as Hr.
  { induction s as [|c s IH]; [done|]. cbn [all_chars] in Hall.
    apply andb_true_iff in Hall as [Hc Hs]. cbn [Py.rstrip_by]. rewrite (IH Hs).
    apply negb_true_iff in Hc. destruct s; [by rewrite Hc|done]. }
  destruct s as [|c s]; [done|]. cbn [all_chars] in Hall.
  apply andb_true_iff in Hall as [Hc _]. apply negb_true_iff in Hc.
  cbn [Py.lstrip_by]. by rewrite Hc.
Qed.

Lemma all_chars_impl (p q : ascii → bool) (s : string) :
  (∀ c, p c = true → q c = true) → all_chars p s = true → all_chars q s = true.
Proof.
  intros Hpq. induction s as [|c s IH]; [done|]. cbn [all_chars].
  intros [Hc Hs]%andb_true_iff. by rewrite (Hpq c Hc), (IH Hs).
Qed.

Lemma decimal_not_space (c : ascii) :
  Py.isdecimal c = true → negb (Py.isspace c) = true.
Proof. destruct c as [[] [] [] [] [] [] [] []]; by vm_compute. Qed.

Lemma int_decimal (s : string) :
  all_chars Py.isdecimal s = true → Py.int s = Py.parse_digits 0 false s.
Proof.
  intros Hall. unfold Py.int.
  rewrite strip_no_space by (eapply all_chars_impl; [apply decimal_not_space|done]).
  destruct s as [|c s]; [done|]. cbn [all_chars] in Hall.
  apply andb_true_iff in Hall as [Hc _]. revert Hc.
  destruct c as [[] [] [] [] [] [] [] []]; by vm_compute.
Qed.

Lemma int_str_pos (p : positive) :
  all_chars Py.isdecimal (Py.str (Z.pos p)) = true ∧
  Py.str (Z.pos p) ≠ EmptyString ∧
  Py.parse_digits 0 false (Py.str (Z.pos p)) = Some (Z.pos p).
Proof.
  unfold Py.str, pretty, pretty_Z, pretty, pretty_positive, pretty, pretty_N.
  rewrite decide_False by done. split; [by apply pretty_N_go_decimal|].
  split; [by apply pretty_N_go_nonempty|].
  destruct (parse_pretty_N_go (N.pos p) ltac:(lia) 0 false EmptyString)
    as (m & _ & ->).
  cbn [Py.parse_digits]. f_equal; lia.
Qed.

Lemma int_str (n : Z) : Py.int (Py.str n) = Some n.
Proof.
  destruct n as [|p|p].
  - reflexivity.
  - destruct (int_str_pos p) as (Hall & _ & Hparse). by rewrite int_decimal.
  - destruct (int_str_pos p) as (Hall & Hne & Hparse).
    change (Py.str (Z.neg p)) with (String "-" (Py.str (Z.pos p))).
    unfold Py.int. rewrite strip_no_space.
    + rewrite Hparse. done.
    + cbn [all_chars]. apply andb_true_iff. split; [done|].
      eapply all_chars_impl; [apply decimal_not_space|done].
Qed.

(** X7.  A row of an artifact keeps the whole record: two records with
    the same row are the same record, and [int] reads the upvotes, the
    downvotes and the page number back from their cells. *)
Theorem X7_rows_keep_the_record :
  (∀ e1 e2 : entry, entry_row e1 = entry_row e2 → e1 = e2) ∧
  (∀ e : entry, ∃ w df ex c dt u d p sd,
     entry_row e = [w; df; ex; c; dt; u; d; p; sd] ∧
     w = word e ∧
     Py.int u = Some (upvotes e) ∧ Py.int d = Some (downvotes e) ∧
     Py.int p = Some (page e)).
Proof.
  split.
  - intros [] []. unfold entry_row. cbn.
    intros [= -> -> -> -> -> Hu Hd Hp ->].
    apply (inj Py.str) in Hu, Hd, Hp. by subst.
  - intros e. do 9 eexists. split; [reflexivity|]. split; [done|].
    by rewrite !int_str.
Qed.

Lemma isdigit_decimal (s : string) :
  s ≠ EmptyString → all_chars Py.isdecimal s = true → Py.isdigit s = true.
Proof.
  intros Hne Hall. unfold Py.isdigit. apply andb_true_iff. split.
  - by destruct s.
  - clear Hne. induction s as [|c s IH]; [done|]. cbn [all_chars] in Hall.
    apply andb_true_iff in Hall as [Hc Hs]. simpl.
    unfold Py.isdigit_char. rewrite Hc. simpl. by apply IH.
Qed.

Lemma isdigit_str (n : Z) : 0 ≤ n → Py.isdigit (Py.str n) = true.
Proof.
  intros Hn. destruct n as [|p|p]; [done| |lia].
  destruct (int_str_pos p) as (Hall & Hne & _). by apply isdigit_decimal.
Qed.

Lemma isdigit_truthy (s : string) : Py.isdigit s = true → Py.truthy s = true.
Proof. unfold Py.isdigit. by intros [? _]%andb_true_iff. Qed.

(** The selector loop stops at the first selector whose text is a digit
    string. *)
Lemma vote_loop_first_digit (el : element) (selectors : list string) :
  ∀ (i : nat) (selector t vote_text : string),
    selectors !! i = Some selector →
    find_element el (selector_by selector) selector = Some t →
    Py.isdigit (Py.strip t) = true →
    (∀ (j : nat) selector' t', (j < i)%nat → selectors !! j = Some selector' →
       find_element el (selector_by selector') selector' = Some t' →
       Py.isdigit (Py.strip t') = false) →
    vote_loop el selectors vote_text = Py.strip t.
Proof.
  induction selectors as [|s0 rest IH]; intros i selector t vote_text Hi Hfind Hd Hbefore;
    [done|].
  cbn [vote_loop]. fold (selector_by s0). destruct i as [|i].
  - injection Hi as ->. rewrite Hfind, Hd, (isdigit_truthy _ Hd). done.
  - destruct (find_element el (selector_by s0) s0) as [t0|] eqn:H0.
    + rewrite (Hbefore 0%nat s0 t0) by (done || lia). rewrite andb_false_r.
      apply (IH i selector t); [done..|].
      intros j s' t' Hj. apply (Hbefore (S j)). lia.
    + apply (IH i selector t); [done..|].
      intros j s' t' Hj. apply (Hbefore (S j)). lia.
Qed.

(** X8.  [extract_votes] reads a count back as it is shown: when one of
    the three selectors finds a text that is, once trimmed, the decimal
    numeral of [n >= 0], of no more digits than [int] accepts, and no
    selector before it finds a digit string, the result is [n], whatever
    the later selectors find. *)
Theorem X8_votes_of_first_digit_text
    (el : element) (is_upvote : bool) (i : nat) (selector t : string) (n : Z) :
  0 ≤ n → n < 10 ^ int_max_str_digits →
  vote_selectors is_upvote !! i = Some selector →
  find_element el (selector_by selector) selector = Some t →
  Py.strip t = Py.str n →
  (∀ (j : nat) selector' t', (j < i)%nat →
     vote_selectors is_upvote !! j = Some selector' →
     find_element el (selector_by selector') selector' = Some t' →
     Py.isdigit (Py.strip t') = false) →
  extract_votes el is_upvote = n.
Proof.
  intros Hn _ Hi Hfind Ht Hbefore. unfold extract_votes.
  rewrite (vote_loop_first_digit el _ i selector t); [|done..| |done].
  - by rewrite Ht, int_str.
  - rewrite Ht. by apply isdigit_str.
Qed.

(** A thumbs-up button that shows " 1234 ". *)
Lemma X8_votes_witness : extract_votes (vote_button " 1234 ") true = 1234.
Proof.
  apply (X8_votes_of_first_digit_text (vote_button " 1234 ") true 0
           "button[data-x-bind='thumbUp'] span" " 1234 " 1234).
  - lia.
  - vm_compute. reflexivity.
  - reflexivity.
  - reflexivity.
  - vm_compute. reflexivity.
  - intros j selector' t' Hj. lia.
Defined.

(** ** Runs that nobody interrupts *)

Lemma accepted_keys (l : list entry) :
  ∀ seen : gset string, seen ∪ keys (accepted seen l) = seen ∪ keys l.
Proof.
  induction l as [|e l IH]; intros seen; cbn [accepted]; [done|].
  rewrite keys_cons. case_decide as Hin.
  - rewrite IH. set_solver.
  - rewrite keys_cons, (assoc_L (∪)), IH. set_solver.
Qed.


Lemma chunk_starts_some (a : args) :
  chunk_size a ≠ 0 → ∃ starts, chunk_starts a = Some starts.
Proof.
  intros Hs. unfold chunk_starts, Py.range3.
  destruct (Z.eqb_spec (chunk_size a) 0); [done|]. by eexists.
Qed.

Section Uninterrupted.

Variable signal : point → bool.
Variable as_completed : list Z → list (Z * outcome (list entry)).
Variable splitext : string → string * string.
Hypothesis never : uninterrupted signal.

Lemma not_interrupted_inside : ¬ interrupted_inside signal.
Proof. intros (p & Hp & _). by rewrite never in Hp. Qed.

(** What a run does when it is left alone and every failure of a future
    is an [Exception]. *)
Lemma run_uninterrupted (a : args) (fs : gmap string (list row)) :
  futures_contained as_completed → 1 ≤ workers a → chunk_size a ≠ 0 →
  wp (main signal as_completed splitext a)
    (fun s w' =>
       all_entries w' = accepted ∅ (arrivals as_completed a) ∧
       global_seen_words w' = keys (arrivals as_completed a) ∧
       s = Summary (length (accepted ∅ (arrivals as_completed a)))
             (size (keys (arrivals as_completed a))) ∧
       (accepted ∅ (arrivals as_completed a) ≠ [] →
        files w' !! output a
        = Some (fieldnames :: (entry_row <$> accepted ∅ (arrivals as_completed a)))))
    (fun _ _ => False)
    (World [] ∅ fs).
Proof.
  intros Hfc Hworkers Hsize.
  destruct (chunk_starts_some a Hsize) as [starts Hstarts].
  pose proof not_interrupted_inside as Hinside.
  unfold main, arrivals. rewrite Hstarts. cbn [default].
  apply wp_bind, wp_try.
  eapply wp_mono; [apply chunk_loop_wp|..]; cbv beta.
  - intros _ w1 [(HA & HS & _) _]. simpl in HA, HS.
    rewrite (left_id_L ∅ (∪)) in HS.
    apply wp_bind, wp_gets, wp_bind.
    eapply wp_mono; [apply save_to_csv_wp|..]; cbv beta.
    + intros _ w2 (HA2 & HS2 & _ & Hfile). apply wp_bind, wp_tick.
      { intros Hs. by rewrite never in Hs. }
      intros _. apply wp_bind, wp_gets, wp_ret.
      rewrite HA2, HS2, HS, HA. split; [done|]. split; [done|]. split; [done|].
      intros Hne. rewrite HA in Hfile. by apply Hfile.
    + intros e w2 (_ & ? & _). done.
  - intros e w1 [_ [(-> & l1 & cs & l2 & _ & Hcs & _)|[?|[?|?]]]];
      [|done|done|lia].
    by rewrite never in Hcs.
Qed.

End Uninterrupted.



Lemma concat_fmap_Permutation {A B} (f g : A → list B) (l : list A) :
  (∀ x, f x ≡ₚ g x) → concat (f <$> l) ≡ₚ concat (g <$> l).
Proof.
  intros Hfg. induction l as [|x l IH]; [done|]. cbn.
  by apply Permutation_app.
Qed.

Lemma concat_Permutation {A} (l1 l2 : list (list A)) :
  l1 ≡ₚ l2 → concat l1 ≡ₚ concat l2.
Proof.
  induction 1 as [|x l1 l2 _ IH|x y l|l1 l2 l3 _ IH1 _ IH2]; cbn.
  - done.
  - by apply Permutation_app.
  - rewrite !(assoc_L (++)). apply Permutation_app; [|done].
    apply Permutation_app_comm.
  - by etrans.
Qed.

Lemma keys_Permutation (l1 l2 : list entry) : l1 ≡ₚ l2 → keys l1 = keys l2.
Proof.
  intros H. unfold keys. apply list_to_set_perm_L. by apply fmap_Permutation.
Qed.

(** X10.  The order in which the futures of a chunk complete decides
    which of two records with the same term is kept, and nothing else:
    two runs left alone (with a worker at least and a chunk size other
    than zero) whose futures are, chunk by chunk, the same up to their
    order end with the same set of seen words, the same terms
    among their entries and the same summary. *)
Theorem X10_completion_order_keeps_terms
    (signal : point → bool)
    (as_completed1 as_completed2 : list Z → list (Z * outcome (list entry)))
    (splitext : string → string * string)
    (a : args) (fs : gmap string (list row)) :
  uninterrupted signal → futures_contained as_completed1 →
  1 ≤ workers a → chunk_size a ≠ 0 →
  (∀ pages, as_completed1 pages ≡ₚ as_completed2 pages) →
  let r1 := run signal as_completed1 splitext a fs in
  let r2 := run signal as_completed2 splitext a fs in
  global_seen_words r1.2 = global_seen_words r2.2 ∧
  keys (all_entries r1.2) = keys (all_entries r2.2) ∧
  length (all_entries r1.2) = length (all_entries r2.2) ∧
  r1.1 = r2.1.
Proof.
  intros Hnever Hfc1 Hworkers Hsize Hperm r1 r2.
  assert (futures_contained as_completed2) as Hfc2.
  { intros pages future e Hin. apply (Hfc1 pages). by rewrite (Hperm pages). }
  assert (keys (arrivals as_completed1 a) = keys (arrivals as_completed2 a)) as Hk.
  { apply keys_Permutation. unfold arrivals. apply concat_fmap_Permutation.
    intros cs. unfold chunk_arrivals. apply concat_Permutation.
    by apply fmap_Permutation. }
  pose proof (run_uninterrupted signal as_completed1 splitext Hnever a fs Hfc1
                Hworkers Hsize) as H1.
  pose proof (run_uninterrupted signal as_completed2 splitext Hnever a fs Hfc2
                Hworkers Hsize) as H2.
  unfold wp in H1, H2. subst r1 r2. unfold run.
  destruct (main signal as_completed1 splitext a (World [] ∅ fs)) as [[s1|e1] w1];
    [|done].
  destruct (main signal as_completed2 splitext a (World [] ∅ fs)) as [[s2|e2] w2];
    [|done].
  destruct H1 as (HA1 & HS1 & -> & _). destruct H2 as (HA2 & HS2 & -> & _).
  cbn [fst snd].
  pose proof (accepted_size (arrivals as_completed1 a) ∅) as Hsz1.
  pose proof (accepted_size (arrivals as_completed2 a) ∅) as Hsz2.
  pose proof (accepted_keys (arrivals as_completed1 a) ∅) as Hk1.
  pose proof (accepted_keys (arrivals as_completed2 a) ∅) as Hk2.
  rewrite !(left_id_L ∅ (∪)) in Hk1, Hk2, Hsz1, Hsz2.
  rewrite size_empty in Hsz1, Hsz2. rewrite Hk in Hsz1.
  rewrite HA1, HA2, HS1, HS2, Hk1, Hk2, Hk.
  split; [done|]. split; [done|]. split; [lia|]. do 2 f_equal. lia.
Qed.

(** The sample pages, completing in order and in reverse order. *)
Lemma X10_order_witness :
  let r1 := run no_signal sample_futures sample_splitext sample_args ∅ in
  let r2 := run no_signal reversed_futures sample_splitext sample_args ∅ in
  global_seen_words r1.2 = global_seen_words r2.2 ∧
  keys (all_entries r1.2) = keys (all_entries r2.2) ∧
  length (all_entries r1.2) = length (all_entries r2.2) ∧
  r1.1 = r2.1.
Proof.
  apply (X10_completion_order_keeps_terms no_signal sample_futures reversed_futures
           sample_splitext sample_args ∅).
  - intros p. reflexivity.
  - intros pages future e (p & -> & _)%list_elem_of_fmap. discriminate.
  - cbn. lia.
  - discriminate.
  - intros pages. unfold reversed_futures. symmetry. apply reverse_Permutation.
Defined.

(** X11.  Wherever a run is interrupted, the key of every accumulated
    entry is in the set of seen words; so when the run returns, the
    counter of the entries is at most the counter of the unique words. *)
Theorem X11_seen_words_cover_entries
    (signal : point → bool)
    (as_completed : list Z → list (Z * outcome (list entry)))
    (splitext : string → string * string)
    (a : args) (fs : gmap string (list row)) :
  let r := run signal as_completed splitext a fs in
  (∀ e, e ∈ all_entries r.2 → entry_key e ∈ global_seen_words r.2) ∧
  (length (all_entries r.2) ≤ size (global_seen_words r.2))%nat ∧
  (∀ s, r.1 = Ok s → (total_entries s ≤ total_unique s)%nat).
Proof.
  intros r. destruct (run_stopped signal as_completed splitext a fs)
    as [(X' & _ & HA & Hsub & _) Hsum].
  fold r in HA, Hsub, Hsum. simpl in HA, Hsub.
  rewrite (left_id_L ∅ (∪)) in Hsub.
  assert (length (all_entries r.2) ≤ size (global_seen_words r.2))%nat as Hle.
  { pose proof (accepted_size X' ∅) as Hsz.
    rewrite (left_id_L ∅ (∪)), size_empty in Hsz.
    apply subseteq_size in Hsub. rewrite HA. lia. }
  split; [|split; [done|]].
  - intros e He. rewrite HA in He. apply accepted_fresh in He as [_ He].
    apply Hsub, elem_of_keys. by apply list_elem_of_fmap_2.
  - intros s Hs. destruct (Hsum s Hs) as [-> ->]. done.
Qed.

(** ** Arguments that give no chunk *)

Lemma no_chunk_starts (a : args) :
  chunk_size a ≠ 0 → end_ a < start a ∨ chunk_size a < 0 →
  chunk_starts a = Some [].
Proof.
  intros Hs Hdeg. unfold chunk_starts, Py.range3.
  destruct (Z.eqb_spec (chunk_size a) 0) as [|_]; [done|].
  set (n := Py.len (page_numbers a)).
  assert (0 ≤ n) as Hn by (unfold n, Py.len; lia).
  assert (chunk_size a < 0 ∨ (0 < chunk_size a ∧ n = 0)) as Hcase.
  { destruct Hdeg as [Hlt|?]; [|by left].
    destruct (Z.ltb_spec (chunk_size a) 0); [by left|right]. split; [lia|].
    unfold n, page_numbers, Py.range2, Py.len.
    rewrite length_fmap, length_seq. lia. }
  match goal with
  | |- Some (_ <$> seq 0 (Z.to_nat ?c)) = _ =>
      assert (c ≤ 0) as Hc; [|by replace (Z.to_nat c) with 0%nat by lia]
  end.
  destruct Hcase as [Hneg|[Hpos ->]].
  - destruct (Z.ltb_spec 0 (chunk_size a)); [lia|].
    apply Z.lt_succ_r, Z.div_lt_upper_bound; lia.
  - destruct (Z.ltb_spec 0 (chunk_size a)); [|lia].
    apply Z.lt_succ_r, Z.div_lt_upper_bound; lia.
Qed.

(** X12.  With an end page before the start page, or with a negative
    chunk size, [range(0, len(page_numbers), chunk_size)] is empty: the
    run asks for no page, keeps no entry and opens neither a checkpoint
    nor the output, so that no file other than its log is created or
    changed (line 298 may create the directory of the output); it
    reports zero entries and zero unique words. *)
Theorem X12_no_chunk_no_work
    (signal : point → bool)
    (as_completed : list Z → list (Z * outcome (list entry)))
    (splitext : string → string * string)
    (a : args) (fs : gmap string (list row)) :
  chunk_size a ≠ 0 → end_ a < start a ∨ chunk_size a < 0 →
  let r := run signal as_completed splitext a fs in
  r.1 = (if signal AtSummary then Raise KeyboardInterrupt else Ok (Summary 0 0)) ∧
  all_entries r.2 = [] ∧
  global_seen_words r.2 = ∅ ∧
  (∀ filename, filename ≠ log_file → files r.2 !! filename = fs !! filename).
Proof.
  intros Hs Hdeg r. subst r. unfold run, main.
  rewrite (no_chunk_starts a Hs Hdeg).
  cbv [mbind M_bind try_except for_loop mret M_ret gets save_to_csv tick
       all_entries global_seen_words].
  by destruct (signal AtSummary).
Qed.

(** Pages 5 to 1, and pages 1 to 5 with a chunk size of -2. *)
Lemma X12_no_chunk_witness :
  (let r := run no_signal sample_futures sample_splitext (Args 5 1 2 "out.csv" 2) ∅ in
   r.1 = Ok (Summary 0 0) ∧ all_entries r.2 = [] ∧ global_seen_words r.2 = ∅ ∧
   ∀ filename, filename ≠ log_file →
               files r.2 !! filename = (∅ : gmap string (list row)) !! filename) ∧
  (let r := run no_signal sample_futures sample_splitext
              (Args 1 5 2 "out.csv" (-2)) ∅ in
   r.1 = Ok (Summary 0 0) ∧ all_entries r.2 = [] ∧ global_seen_words r.2 = ∅ ∧
   ∀ filename, filename ≠ log_file →
               files r.2 !! filename = (∅ : gmap string (list row)) !! filename).
Proof.
  split.
  - apply (X12_no_chunk_no_work no_signal sample_futures sample_splitext
             (Args 5 1 2 "out.csv" 2) ∅); [discriminate|left; reflexivity].
  - apply (X12_no_chunk_no_work no_signal sample_futures sample_splitext
             (Args 1 5 2 "out.csv" (-2)) ∅); [discriminate|right; reflexivity].
Defined.



(** ** Runs that collect nothing *)

Section Nothing.

Variable signal : point → bool.
Variable as_completed : list Z → list (Z * outcome (list entry)).
Variable splitext : string → string * string.

Lemma merge_future_nothing (chunk_start : Z) (k : nat) (chunk_entries : list entry)
    (future : Z * outcome (list entry)) (w : world) :
  future_entries future = [] →
  wp (merge_future signal chunk_start k chunk_entries future)
    (fun chunk_entries' w' => chunk_entries' = chunk_entries ∧ w' = w)
    (fun _ w' => w' = w) w.
Proof.
  intros Hf. unfold merge_future, future_entries in *.
  apply wp_bind, wp_tick; [done|]. intros _. apply wp_try, wp_bind.
  destruct (future.2) as [l|e].
  - subst l. apply wp_ret, wp_bind. cbn [for_loop]. apply wp_ret.
    apply wp_bind, wp_tick; [done|]. intros _.
    apply wp_bind, wp_tick; [done|]. intros _.
    apply wp_bind, wp_modify, wp_ret. split; [by rewrite app_nil_r|].
    destruct w. unfold extend_all. cbn. by rewrite app_nil_r.
  - apply wp_raise. destruct (is_Exception e); [by apply wp_ret|done].
Qed.

Lemma merge_loop_nothing (chunk_start : Z) (futures : list (Z * outcome (list entry))) :
  ∀ (k : nat) (chunk_entries : list entry) (w : world),
    (∀ future, future ∈ futures → future_entries future = []) →
    wp (for_loop (merge_future signal chunk_start) k chunk_entries futures)
      (fun chunk_entries' w' => chunk_entries' = chunk_entries ∧ w' = w)
      (fun _ w' => w' = w) w.
Proof.
  induction futures as [|future futures IH]; intros k chunk_entries w Hall;
    cbn [for_loop].
  - by apply wp_ret.
  - apply wp_bind.
    eapply wp_mono; [apply merge_future_nothing, Hall; left|..]; cbv beta;
      [|done].
    intros ? ? [-> ->]. apply IH. intros ??. apply Hall. by right.
Qed.

Lemma chunk_loop_nothing (a : args) (starts : list Z) :
  nothing_delivered as_completed →
  ∀ (i : nat) (w : world),
    wp (for_loop (run_chunk signal as_completed splitext a) i tt starts)
      (fun _ w' => w' = w) (fun _ w' => w' = w) w.
Proof.
  intros Hnone. induction starts as [|chunk_start starts IH]; intros i w;
    cbn [for_loop].
  - by apply wp_ret.
  - apply wp_bind. unfold run_chunk at 1.
    apply wp_bind, wp_tick; [done|]. intros _.
    apply wp_bind, wp_pool; [done|]. intros _. apply wp_bind.
    eapply wp_mono; [apply merge_loop_nothing|..]; cbv beta; [|..|done].
    + intros future Hin. by apply (Hnone _ _ Hin).
    + intros ? ? [-> ->]. apply wp_bind, wp_tick; [done|]. intros _.
      apply wp_ret, IH.
Qed.

Lemma main_nothing (a : args) (w : world) :
  nothing_delivered as_completed → all_entries w = [] →
  wp (main signal as_completed splitext a)
    (fun s w' => s = Summary 0 (size (global_seen_words w)) ∧ w' = w)
    (fun _ w' => w' = w) w.
Proof.
  intros Hnone Hall. unfold main.
  apply wp_bind, wp_try.
  assert (wp (match chunk_starts a with
              | Some starts =>
                  for_loop (run_chunk signal as_completed splitext a) 0 tt starts
              | None => raise (Exception "ValueError")
              end) (fun _ w' => w' = w) (fun _ w' => w' = w) w) as Hloop.
  { destruct (chunk_starts a); [by apply chunk_loop_nothing|by apply wp_raise]. }
  assert (
    wp (entries ← gets all_entries;
        save_to_csv signal entries (output a);;
        tick signal AtSummary;;
        seen ← gets global_seen_words;
        mret (Summary (length entries) (size seen)))
      (fun s w' => s = Summary 0 (size (global_seen_words w)) ∧ w' = w)
      (fun _ w' => w' = w) w) as Hrest.
  { apply wp_bind, wp_gets. rewrite Hall. cbn [save_to_csv length].
    apply wp_bind, wp_ret, wp_bind, wp_tick; [done|]. intros _.
    by apply wp_bind, wp_gets, wp_ret. }
  eapply wp_mono; [apply Hloop|..]; cbv beta.
  - intros u ? ->. exact Hrest.
  - intros e ? ->. destruct (is_KeyboardInterrupt e); [|done].
    apply wp_ret. exact Hrest.
Qed.

End Nothing.

(** X14.  When no page delivers a record (every page failed or was
    empty), the run opens neither a checkpoint nor the output, whether
    it is interrupted or not: no file other than its log is created or
    changed (line 298 may create the directory of the output), it keeps
    no entry and no seen word, and a summary it returns reports zero
    entries and zero unique words. *)
Theorem X14_nothing_collected_nothing_written
    (signal : point → bool)
    (as_completed : list Z → list (Z * outcome (list entry)))
    (splitext : string → string * string)
    (a : args) (fs : gmap string (list row)) :
  nothing_delivered as_completed →
  let r := run signal as_completed splitext a fs in
  all_entries r.2 = [] ∧
  global_seen_words r.2 = ∅ ∧
  (∀ filename, filename ≠ log_file → files r.2 !! filename = fs !! filename) ∧
  (∀ s, r.1 = Ok s → s = Summary 0 0).
Proof.
  intros Hnone r.
  pose proof (main_nothing signal as_completed splitext a (World [] ∅ fs) Hnone
                eq_refl) as H.
  unfold wp in H. subst r. unfold run.
  destruct (main signal as_completed splitext a (World [] ∅ fs)) as [[s|e] w'];
    cbn [fst snd].
  - destruct H as [-> ->]. do 3 (split; [done|]). by intros ? [= <-].
  - by subst w'.
Qed.

(** Every page of the sample run times out. *)
Lemma X14_nothing_witness :
  let r := run no_signal all_pages_fail sample_splitext sample_args ∅ in
  all_entries r.2 = [] ∧
  global_seen_words r.2 = ∅ ∧
  (∀ filename, filename ≠ log_file →
               files r.2 !! filename = (∅ : gmap string (list row)) !! filename) ∧
  (∀ s, r.1 = Ok s → s = Summary 0 0).
Proof.
  apply (X14_nothing_collected_nothing_written no_signal all_pages_fail
           sample_splitext sample_args ∅).
  intros pages future (p & -> & _)%list_elem_of_fmap. reflexivity.
Defined.

(** ** What [save_to_csv] leaves on the disk *)

Lemma save_to_csv_exact (signal : point → bool) (entries : list entry)
    (filename : string) (w : world) :
  uninterrupted signal → entries ≠ [] →
  save_to_csv signal entries filename w
  = (Ok tt,
     World (all_entries w) (global_seen_words w)
       (<[filename := fieldnames :: (entry_row <$> entries)]> (files w))).
Proof.
  intros Hnever Hne.
  assert (wp (save_to_csv signal entries filename)
            (fun _ w' =>
               w' = World (all_entries w) (global_seen_words w)
                      (<[filename := fieldnames :: (entry_row <$> entries)]> (files w)))
            (fun _ _ => False) w) as H.
  { unfold save_to_csv. destruct entries as [|e entries]; [done|].
    set (es := e :: entries). destruct w as [all seen fs].
    apply wp_try, wp_bind, wp_tick; [intros Hs; by rewrite Hnever in Hs|].
    intros _. apply wp_bind, wp_modify, wp_bind, wp_tick;
      [intros Hs; by rewrite Hnever in Hs|].
    intros _. apply wp_bind, wp_modify.
    eapply wp_mono; [apply (save_rows_wp signal filename fs es 0 [])|..];
      cbv beta.
    - simpl. by rewrite lookup_insert_eq, insert_insert_eq.
    - intros _ [all' seen' fs'] (? & ? & Hfs).
      cbn [files all_entries global_seen_words app] in *. by subst.
    - intros e' w' (_ & (p & Hp & _) & _). by rewrite Hnever in Hp. }
  unfold wp in H. destruct (save_to_csv signal entries filename w) as [[[]|?] w'];
    [by subst w'|done].
Qed.



(** ** The checkpoints of a complete run *)

Lemma save_to_csv_exact_wp (signal : point → bool) (entries : list entry)
    (filename : string) (w : world) :
  uninterrupted signal →
  wp (save_to_csv signal entries filename)
    (fun _ w' =>
       all_entries w' = all_entries w ∧
       global_seen_words w' = global_seen_words w ∧
       files w' = match entries with
                  | [] => files w
                  | _ => <[filename := fieldnames :: (entry_row <$> entries)]> (files w)
                  end)
    (fun _ _ => False) w.
Proof.
  intros Hnever. destruct entries as [|e entries]; [by apply wp_ret|].
  unfold wp. by rewrite save_to_csv_exact.
Qed.

Lemma chunk_names_NoDup (splitext : string → string * string) (a : args)
    (starts : list Z) :
  chunk_starts a = Some starts →
  NoDup ((fun cs => chunk_filename splitext a cs (chunk_end_of a cs)) <$> starts).
Proof.
  intros Hstarts.
  destruct (Z.lt_trichotomy (chunk_size a) 0) as [Hneg|[Hzero|Hpos]].
  - rewrite no_chunk_starts in Hstarts by (lia || by right).
    injection Hstarts as <-. apply NoDup_nil_2.
  - unfold chunk_starts, Py.range3 in Hstarts. by rewrite Hzero in Hstarts.
  - unfold chunk_starts, Py.range3 in Hstarts.
    destruct (Z.eqb_spec (chunk_size a) 0); [lia|]. injection Hstarts as <-.
    apply NoDup_fmap_2_strong.
    + intros cs cs' [i [-> _]]%list_elem_of_fmap [i' [-> _]]%list_elem_of_fmap Heq.
      apply chunk_filename_inj in Heq; [done|lia..].
    + apply NoDup_fmap_2_strong; [|apply NoDup_seq].
      intros i i' _ _ Heq. nia.
Qed.

Section Checkpoints.

Variable signal : point → bool.
Variable as_completed : list Z → list (Z * outcome (list entry)).
Variable splitext : string → string * string.
Hypothesis never : uninterrupted signal.
Hypothesis contained : futures_contained as_completed.

Lemma merge_loop_exact (chunk_start : Z) (futures : list (Z * outcome (list entry))) :
  (∀ future e, future ∈ futures → future.2 = Raise e → is_Exception e = true) →
  ∀ (k : nat) (chunk_entries : list entry) (w : world),
    wp (for_loop (merge_future signal chunk_start) k chunk_entries futures)
      (fun chunk_entries' w' =>
         chunk_entries' = chunk_entries
           ++ accepted (global_seen_words w) (concat (future_entries <$> futures)) ∧
         w' = World
                (all_entries w
                 ++ accepted (global_seen_words w) (concat (future_entries <$> futures)))
                (global_seen_words w ∪ keys (concat (future_entries <$> futures)))
                (files w))
      (fun _ _ => False) w.
Proof.
  induction futures as [|future futures IH]; intros Hall k chunk_entries w;
    cbn [for_loop fmap list_fmap concat].
  - apply wp_ret. destruct w. cbn [accepted all_entries global_seen_words files].
    by rewrite !app_nil_r, keys_nil, (right_id_L ∅ (∪)).
  - apply wp_bind.
    eapply wp_mono; [apply (merge_future_wp signal splitext)|..]; cbv beta.
    + intros chunk_entries1 w1 [-> ->].
      eapply wp_mono; [apply IH|..]; cbv beta; [|cbn|done].
      * intros future' e Hin. apply Hall. by right.
      * intros chunk_entries2 w2 [-> ->].
        rewrite accepted_app, keys_app, !app_assoc, (assoc_L (∪)). done.
    + intros e w1 (_ & _ & _ & _ & [Hin|[Hr He]]).
      * by apply (not_interrupted_inside signal never).
      * rewrite (Hall future e) in He; [done|by left|done].
Qed.

Lemma run_chunk_exact (a : args) (i : nat) (chunk_start : Z) (w : world) :
  1 ≤ workers a →
  wp (run_chunk signal as_completed splitext a i tt chunk_start)
    (fun _ w' =>
       all_entries w'
       = all_entries w
         ++ accepted (global_seen_words w) (chunk_arrivals as_completed a chunk_start) ∧
       global_seen_words w'
       = global_seen_words w ∪ keys (chunk_arrivals as_completed a chunk_start) ∧
       files w'
       = match accepted (global_seen_words w)
                 (chunk_arrivals as_completed a chunk_start) with
         | [] => files w
         | kept =>
             <[chunk_filename splitext a chunk_start (chunk_end_of a chunk_start)
               := fieldnames :: (entry_row <$> kept)]> (files w)
         end)
    (fun _ _ => False) w.
Proof.
  intros Hworkers. unfold run_chunk, chunk_arrivals. apply wp_bind, wp_tick.
  { intros Hs. by rewrite never in Hs. }
  intros _. apply wp_bind, wp_pool; [lia|]. intros _. apply wp_bind.
  eapply wp_mono; [apply merge_loop_exact|..]; cbv beta; [|cbn|done].
  { intros future e Hin. by apply (contained _ _ _ Hin). }
  intros chunk_entries w1 [-> ->]. apply wp_bind, wp_tick.
  { intros Hs. by rewrite never in Hs. }
  intros _. cbn [app].
  destruct (accepted (global_seen_words w) _) as [|e kept] eqn:Hkept.
  { apply wp_ret. by rewrite app_nil_r. }
  eapply wp_mono;
    [apply (save_to_csv_exact_wp signal _ _ _ never)|..]; cbv beta; [|done].
  by intros _ w2 (-> & -> & ->).
Qed.

End Checkpoints.

Section CheckpointsOfRun.

Variable signal : point → bool.
Variable as_completed : list Z → list (Z * outcome (list entry)).
Variable splitext : string → string * string.
Hypothesis never : uninterrupted signal.
Hypothesis contained : futures_contained as_completed.

Lemma chunk_loop_exact (a : args) (starts : list Z) :
  1 ≤ workers a →
  NoDup ((fun cs => chunk_filename splitext a cs (chunk_end_of a cs)) <$> starts) →
  ∀ (i : nat) (w : world),
    wp (for_loop (run_chunk signal as_completed splitext a) i tt starts)
      (fun _ w' =>
         all_entries w'
         = all_entries w
           ++ concat (imap (fun j cs =>
                accepted (global_seen_words w
                          ∪ keys (concat (chunk_arrivals as_completed a <$> take j starts)))
                  (chunk_arrivals as_completed a cs)) starts) ∧
         global_seen_words w'
         = global_seen_words w
           ∪ keys (concat (chunk_arrivals as_completed a <$> starts)) ∧
         (∀ j cs, starts !! j = Some cs →
            accepted (global_seen_words w
                      ∪ keys (concat (chunk_arrivals as_completed a <$> take j starts)))
              (chunk_arrivals as_completed a cs) ≠ [] →
            files w' !! chunk_filename splitext a cs (chunk_end_of a cs)
            = Some (fieldnames
                    :: (entry_row <$>
                        accepted (global_seen_words w
                                  ∪ keys (concat (chunk_arrivals as_completed a
                                                  <$> take j starts)))
                          (chunk_arrivals as_completed a cs)))) ∧
         (∀ filename,
            (∀ j cs, starts !! j = Some cs →
               accepted (global_seen_words w
                         ∪ keys (concat (chunk_arrivals as_completed a <$> take j starts)))
                 (chunk_arrivals as_completed a cs) ≠ [] →
               filename ≠ chunk_filename splitext a cs (chunk_end_of a cs)) →
            files w' !! filename = files w !! filename))
      (fun _ _ => False) w.
Proof.
  intros Hworkers.
  induction starts as [|cs starts IH]; intros Hnd i w; cbn [for_loop].
  - apply wp_ret. cbn [imap fmap list_fmap concat].
    rewrite app_nil_r, keys_nil, (right_id_L ∅ (∪)).
    split; [done|]. split; [done|]. split; [|done]. intros j cs. done.
  - apply NoDup_cons in Hnd as [Hnotin Hnd]. apply wp_bind.
    eapply wp_mono;
      [by apply (run_chunk_exact signal as_completed splitext never contained)|..];
      cbv beta; [|done].
    intros [] w1 (HA1 & HS1 & HF1).
    eapply wp_mono; [apply (IH Hnd)|..]; cbv beta; [|done].
    intros _ w2 (HA2 & HS2 & Hcp & Hother).
    assert (∀ l, global_seen_words w1 ∪ keys (concat (chunk_arrivals as_completed a <$> l))
                 = global_seen_words w
                   ∪ keys (concat (chunk_arrivals as_completed a <$> cs :: l))) as Hbase.
    { intros l. cbn [fmap list_fmap concat].
      by rewrite HS1, keys_app, (assoc_L (∪)). }
    split; [|split; [|split]].
    + rewrite HA2, HA1, <-app_assoc. f_equal. rewrite imap_cons. cbn [concat].
      f_equal.
      { cbn [take fmap list_fmap concat]. by rewrite keys_nil, (right_id_L ∅ (∪)). }
      f_equal. apply imap_ext. intros j cs' _. cbn [compose take].
      by rewrite <-Hbase.
    + by rewrite HS2, Hbase.
    + intros [|j] cs'.
      * intros [= <-]. cbn [take fmap list_fmap concat].
        rewrite keys_nil, (right_id_L ∅ (∪)). intros Hne.
        rewrite Hother.
        2:{ intros j cs' Hj _ Heq. apply Hnotin, list_elem_of_fmap.
            exists cs'. split; [done|]. by eapply list_elem_of_lookup_2. }
        rewrite HF1.
        destruct (accepted (global_seen_words w) _); [done|].
        apply lookup_insert_eq.
      * cbn [lookup list_lookup take]. intros Hj. rewrite <-Hbase. by apply Hcp.
    + intros filename Hfn. rewrite Hother.
      2:{ intros j cs' Hj. rewrite Hbase. by apply (Hfn (S j)). }
      rewrite HF1.
      destruct (accepted (global_seen_words w) (chunk_arrivals as_completed a cs))
        as [|e kept] eqn:Hkept; [done|].
      apply lookup_insert_ne. intros Heq. apply (Hfn 0%nat cs); [done| |done].
      cbn [take fmap list_fmap concat]. rewrite keys_nil, (right_id_L ∅ (∪)).
      by rewrite Hkept.
Qed.

(** The files of a run left alone. *)
Lemma run_checkpoints (a : args) (fs : gmap string (list row)) (starts : list Z) :
  1 ≤ workers a → chunk_starts a = Some starts →
  (∀ cs, cs ∈ starts →
     chunk_filename splitext a cs (chunk_end_of a cs) ≠ output a) →
  let r := run signal as_completed splitext a fs in
  let kept (i : nat) (cs : Z) := kept_of_chunk as_completed a (take i starts) cs in
  all_entries r.2 = concat (imap kept starts) ∧
  (∀ i cs, starts !! i = Some cs → kept i cs ≠ [] →
     files r.2 !! chunk_filename splitext a cs (chunk_end_of a cs)
     = Some (fieldnames :: (entry_row <$> kept i cs))) ∧
  (all_entries r.2 ≠ [] →
   files r.2 !! output a
   = Some (fieldnames :: (entry_row <$> concat (imap kept starts)))) ∧
  (∀ filename,
     filename ≠ output a →
     (∀ i cs, starts !! i = Some cs → kept i cs ≠ [] →
        filename ≠ chunk_filename splitext a cs (chunk_end_of a cs)) →
     files r.2 !! filename = fs !! filename).
Proof.
  intros Hworkers Hstarts Hout r kept.
  assert (wp (main signal as_completed splitext a)
            (fun _ w' =>
               all_entries w' = concat (imap kept starts) ∧
               (∀ i cs, starts !! i = Some cs → kept i cs ≠ [] →
                  files w' !! chunk_filename splitext a cs (chunk_end_of a cs)
                  = Some (fieldnames :: (entry_row <$> kept i cs))) ∧
               (all_entries w' ≠ [] →
                files w' !! output a
                = Some (fieldnames :: (entry_row <$> concat (imap kept starts)))) ∧
               (∀ filename,
                  filename ≠ output a →
                  (∀ i cs, starts !! i = Some cs → kept i cs ≠ [] →
                     filename ≠ chunk_filename splitext a cs (chunk_end_of a cs)) →
                  files w' !! filename = fs !! filename))
            (fun _ _ => False) (World [] ∅ fs)) as H.
  { unfold main. rewrite Hstarts. apply wp_bind, wp_try.
    eapply wp_mono;
      [apply (chunk_loop_exact a starts Hworkers (chunk_names_NoDup splitext a starts Hstarts))
      |..]; cbv beta; [|done].
    intros _ w1 (HA & _ & Hcp & Hother).
    cbn [all_entries global_seen_words files app] in HA, Hcp, Hother.
    assert (∀ j cs,
      accepted (∅ ∪ keys (concat (chunk_arrivals as_completed a <$> take j starts)))
        (chunk_arrivals as_completed a cs) = kept j cs) as Hkept.
    { intros j cs. unfold kept, kept_of_chunk. by rewrite (left_id_L ∅ (∪)). }
    assert (all_entries w1 = concat (imap kept starts)) as HA'.
    { rewrite HA. f_equal. apply imap_ext. intros j cs _. apply Hkept. }
    apply wp_bind, wp_gets, wp_bind.
    eapply wp_mono; [apply (save_to_csv_exact_wp signal _ _ _ never)|..];
      cbv beta; [|done].
    intros _ w2 (HA2 & _ & HF2). apply wp_bind, wp_tick.
    { intros Hs. by rewrite never in Hs. }
    intros _. apply wp_bind, wp_gets, wp_ret.
    rewrite HA2. split; [done|]. split; [|split].
    - intros i cs Hi Hne. rewrite HF2.
      assert (files w1 !! chunk_filename splitext a cs (chunk_end_of a cs)
              = Some (fieldnames :: (entry_row <$> kept i cs))) as Hfile.
      { rewrite <-Hkept. apply Hcp; [done|]. by rewrite Hkept. }
      destruct (all_entries w1); [done|].
      rewrite lookup_insert_ne; [done|]. intros Heq. apply (Hout cs); [|done].
      by eapply list_elem_of_lookup_2.
    - intros Hne. rewrite HF2. destruct (all_entries w1) as [|e l] eqn:Hall; [done|].
      rewrite lookup_insert_eq. by rewrite <-HA'.
    - intros filename Hfn Hnames. rewrite HF2.
      assert (files w1 !! filename = fs !! filename) as Hfile.
      { apply Hother. intros j cs Hj. rewrite Hkept. by apply Hnames. }
      destruct (all_entries w1); [done|]. by rewrite lookup_insert_ne. }
  unfold wp in H. subst r. unfold run.
  by destruct (main signal as_completed splitext a (World [] ∅ fs)) as [[s|e] w'].
Qed.

End CheckpointsOfRun.

(** X16.  After a run left alone, none of whose artifacts is the log
    file, the checkpoints make up the output: chunk by chunk, the
    checkpoint of a chunk holds the header and the entries the chunk
    added, a later chunk or the final save does not overwrite it, the
    entries of the run are those of the checkpoints put end to end in
    the order of the chunks, and the output holds the header and these
    entries.  Apart from the log, no other file is created or changed; a
    chunk that added nothing has no checkpoint. *)
Theorem X16_checkpoints_make_up_the_output
    (signal : point → bool)
    (as_completed : list Z → list (Z * outcome (list entry)))
    (splitext : string → string * string)
    (a : args) (fs : gmap string (list row)) (starts : list Z) :
  uninterrupted signal → futures_contained as_completed →
  1 ≤ workers a → chunk_starts a = Some starts →
  (∀ cs, cs ∈ starts →
     chunk_filename splitext a cs (chunk_end_of a cs) ≠ output a) →
  output a ≠ log_file →
  (∀ cs, cs ∈ starts →
     chunk_filename splitext a cs (chunk_end_of a cs) ≠ log_file) →
  let r := run signal as_completed splitext a fs in
  let kept (i : nat) (cs : Z) := kept_of_chunk as_completed a (take i starts) cs in
  all_entries r.2 = concat (imap kept starts) ∧
  (∀ i cs, starts !! i = Some cs → kept i cs ≠ [] →
     files r.2 !! chunk_filename splitext a cs (chunk_end_of a cs)
     = Some (fieldnames :: (entry_row <$> kept i cs))) ∧
  (all_entries r.2 ≠ [] →
   files r.2 !! output a
   = Some (fieldnames :: (entry_row <$> concat (imap kept starts)))) ∧
  (∀ filename,
     filename ≠ log_file → filename ≠ output a →
     (∀ i cs, starts !! i = Some cs → kept i cs ≠ [] →
        filename ≠ chunk_filename splitext a cs (chunk_end_of a cs)) →
     files r.2 !! filename = fs !! filename).
Proof.
  intros never contained Hworkers Hstarts Hout _ _ r kept.
  cut (all_entries r.2 = concat (imap kept starts) ∧
       (∀ i cs, starts !! i = Some cs → kept i cs ≠ [] →
          files r.2 !! chunk_filename splitext a cs (chunk_end_of a cs)
          = Some (fieldnames :: (entry_row <$> kept i cs))) ∧
       (all_entries r.2 ≠ [] →
        files r.2 !! output a
        = Some (fieldnames :: (entry_row <$> concat (imap kept starts)))) ∧
       (∀ filename,
          filename ≠ output a →
          (∀ i cs, starts !! i = Some cs → kept i cs ≠ [] →
             filename ≠ chunk_filename splitext a cs (chunk_end_of a cs)) →
          files r.2 !! filename = fs !! filename)).
  { intros (? & ? & ? & Hframe). do 3 (split; [done|]).
    intros filename _. apply Hframe. }
  by apply (run_checkpoints signal as_completed splitext never contained).
Qed.

(** Pages 1 to 5 in chunks of two: the chunks start at 0, 2 and 4. *)
Lemma X16_checkpoints_witness :
  let r := run no_signal sample_futures sample_splitext sample_args ∅ in
  let kept (i : nat) (cs : Z) :=
    kept_of_chunk sample_futures sample_args (take i [0; 2; 4]) cs in
  all_entries r.2 = concat (imap kept [0; 2; 4]) ∧
  (∀ i cs, [0; 2; 4] !! i = Some cs → kept i cs ≠ [] →
     files r.2 !! chunk_filename sample_splitext sample_args cs
                    (chunk_end_of sample_args cs)
     = Some (fieldnames :: (entry_row <$> kept i cs))) ∧
  (all_entries r.2 ≠ [] →
   files r.2 !! output sample_args
   = Some (fieldnames :: (entry_row <$> concat (imap kept [0; 2; 4])))) ∧
  (∀ filename,
     filename ≠ log_file → filename ≠ output sample_args →
     (∀ i cs, [0; 2; 4] !! i = Some cs → kept i cs ≠ [] →
        filename ≠ chunk_filename sample_splitext sample_args cs
                     (chunk_end_of sample_args cs)) →
     files r.2 !! filename = (∅ : gmap string (list row)) !! filename).
Proof.
  apply (X16_checkpoints_make_up_the_output no_signal sample_futures
           sample_splitext sample_args ∅ [0; 2; 4]).
  - intros p. reflexivity.
  - intros pages future e (p & -> & _)%list_elem_of_fmap. discriminate.
  - cbn. lia.
  - reflexivity.
  - intros cs _. unfold chunk_filename. cbn. discriminate.
  - discriminate.
  - intros cs _. unfold chunk_filename. cbn. discriminate.
Defined.

(** ** One record for a term *)

Lemma accepted_keeps_first (l1 l2 : list entry) (e : entry) :
  ∀ seen : gset string,
    entry_key e ∉ seen → entry_key e ∉ entry_key <$> l1 →
    e ∈ accepted seen (l1 ++ e :: l2).
Proof.
  induction l1 as [|e0 l1 IH]; intros seen Hseen Hl1; cbn [app accepted].
  - rewrite decide_False by done. left.
  - rewrite fmap_cons, not_elem_of_cons in Hl1. destruct Hl1 as [Hne Hl1].
    case_decide; [by apply IH|]. right. apply IH; [set_solver|done].
Qed.

Lemma key_determines_record (l : list entry) (e e' : entry) :
  NoDup (entry_key <$> l) → e ∈ l → e' ∈ l → entry_key e' = entry_key e → e' = e.
Proof.
  intros Hnd He He' Hk.
  apply list_elem_of_lookup in He as [i Hi]. apply list_elem_of_lookup in He' as [j Hj].
  assert (i = j) as ->; [|congruence].
  eapply NoDup_lookup; [done|..]; rewrite list_lookup_fmap.
  - by rewrite Hi.
  - rewrite Hj. cbn. by rewrite Hk.
Qed.

(** Of the candidates [X] the ledger keeps, for every key, the first
    record that carries it, and no other record with that key. *)
Lemma accepted_one_per_key (X l1 l2 : list entry) (e : entry) :
  X = l1 ++ e :: l2 → entry_key e ∉ entry_key <$> l1 →
  e ∈ accepted ∅ X ∧
  ∀ e', e' ∈ accepted ∅ X → entry_key e' = entry_key e → e' = e.
Proof.
  intros -> Hl1.
  assert (e ∈ accepted ∅ (l1 ++ e :: l2)) as He
    by (apply accepted_keeps_first; [set_solver|done]).
  split; [done|]. intros e' He' Hk.
  by eapply key_determines_record; [apply accepted_NoDup|..].
Qed.

(** C1.  Whatever the pages deliver, in whatever order the futures
    complete and wherever the run is interrupted, the accumulated
    entries are what the ledger keeps of the candidate records merged
    before the run stopped: for every normalized term among these
    candidates there is one record, the first that carries the term,
    and no other record with that term.  In a run that is left alone
    the candidates are all the records that the futures deliver.  The
    loop over the containers of one page keeps, for a key, the record of
    the first container that has the key, if that container does not
    break, and nothing else.  "Lit" and "lit " have the same normalized
    term; in the run in which page 1 delivers "Lit" and page 2 "lit ",
    "Lit" alone is kept. *)
Theorem C1_one_record_per_normalized_term
    (signal : point → bool)
    (as_completed : list Z → list (Z * outcome (list entry)))
    (splitext : string → string * string)
    (a : args) (fs : gmap string (list row)) :
  let w := (run signal as_completed splitext a fs).2 in
  NoDup (entry_key <$> all_entries w) ∧
  (∃ merged_candidates,
     merged_candidates `prefix_of` arrivals as_completed a ∧
     all_entries w = accepted ∅ merged_candidates ∧
     ∀ l1 e l2,
       merged_candidates = l1 ++ e :: l2 → entry_key e ∉ entry_key <$> l1 →
       e ∈ all_entries w ∧
       ∀ e', e' ∈ all_entries w → entry_key e' = entry_key e → e' = e) ∧
  (∀ e, e ∈ all_entries w →
     ∃ l1 l2, arrivals as_completed a = l1 ++ e :: l2 ∧
              entry_key e ∉ entry_key <$> l1) ∧
  (uninterrupted signal → futures_contained as_completed →
   1 ≤ workers a → chunk_size a ≠ 0 →
   all_entries w = accepted ∅ (arrivals as_completed a) ∧
   ∀ l1 e l2,
     arrivals as_completed a = l1 ++ e :: l2 → entry_key e ∉ entry_key <$> l1 →
     e ∈ all_entries w ∧
     ∀ e', e' ∈ all_entries w → entry_key e' = entry_key e → e' = e) ∧
  (∀ page_num today containers,
     NoDup (entry_key <$> scrape_elements page_num today containers ∅ []) ∧
     ∀ e, e ∈ scrape_elements page_num today containers ∅ [] ↔
          ∃ (i : nat) c,
            containers !! i = Some c ∧ breaks c = None ∧
            e = element_entry page_num today (shown c) ∧
            container_key c = Some (entry_key e) ∧
            (∀ (j : nat) c', (j < i)%nat → containers !! j = Some c' →
                             container_key c' ≠ Some (entry_key e))) ∧
  (∀ e1 e2, word e1 = "Lit" → word e2 = "lit " → entry_key e1 = entry_key e2) ∧
  all_entries (run no_signal lit_futures sample_splitext
                 (Args 1 2 2 "out.csv" 50) ∅).2
  = [sample_entry "Lit" 1].
Proof.
  intros w. destruct (run_stopped signal as_completed splitext a fs)
    as [(X' & Hpre & HA & _) _].
  fold w in HA. simpl in HA. split; [|split; [|split; [|split; [|split; [|split]]]]].
  - rewrite HA. apply accepted_NoDup.
  - exists X'. split; [done|]. split; [done|]. intros l1 e l2 HX Hl1.
    rewrite HA. by eapply accepted_one_per_key.
  - intros e He. rewrite HA in He. by eapply prefix_accepted_first.
  - intros Hnever Hfc Hworkers Hsize.
    pose proof (run_uninterrupted signal as_completed splitext Hnever a fs Hfc
                  Hworkers Hsize) as H.
    unfold wp in H. subst w. unfold run.
    destruct (main signal as_completed splitext a (World [] ∅ fs)) as [[s|e] w'];
      [|done].
    destruct H as (HA' & _). cbn [snd]. split; [done|]. intros l1 e l2 HX Hl1.
    rewrite HA'. by eapply accepted_one_per_key.
  - intros page_num today containers. split.
    + apply scrape_elements_NoDup; [constructor|]. by intros e ?%elem_of_nil.
    + intros e. rewrite scrape_elements_elem. split.
      * intros [?%elem_of_nil|(i & c & ? & ? & ? & ? & _ & ?)]; [done|].
        by exists i, c.
      * intros (i & c & ? & ? & ? & ? & ?). right. exists i, c.
        repeat split; try done.
  - intros e1 e2 H1 H2. unfold entry_key. rewrite H1, H2. reflexivity.
  - vm_compute. reflexivity.
Qed.

(** ** Interrupted runs, page by page *)


Section Pages.

Variable signal : point → bool.
Variable as_completed : list Z → list (Z * outcome (list entry)).
Variable splitext : string → string * string.

(** A save that no Ctrl-C disturbs writes the header and the rows. *)
Lemma save_rows_quiet (filename : string) (fs : gmap string (list row))
    (entries : list entry) :
  (∀ j, signal (AtRow filename j) = false) →
  ∀ (j : nat) (written : list entry) (w : world),
    files w = <[filename := fieldnames :: (entry_row <$> written)]> fs →
    wp (for_loop (save_row signal filename) j tt entries)
      (fun _ w' =>
         w' = World (all_entries w) (global_seen_words w)
                (<[filename := fieldnames :: (entry_row <$> written ++ entries)]> fs))
      (fun _ _ => False) w.
Proof.
  intros Hquiet.
  induction entries as [|e entries IH]; intros j written w Hfs; cbn [for_loop].
  - apply wp_ret. destruct w. cbn in *. by rewrite app_nil_r, Hfs.
  - apply wp_bind. unfold save_row. apply wp_bind, wp_tick.
    { intros Hsig. by rewrite Hquiet in Hsig. }
    intros _. rewrite writerow_entry. apply wp_modify.
    eapply wp_mono; [apply (IH _ (written ++ [e]))|..]; cbv beta.
    + destruct w as [all seen fs0]. simpl in *. rewrite Hfs.
      rewrite lookup_insert_eq, insert_insert_eq. simpl.
      by rewrite fmap_app.
    + intros _ w' ->. destruct w. cbn. by rewrite <-app_assoc.
    + done.
Qed.

Lemma save_to_csv_quiet (entries : list entry) (filename : string) (w : world) :
  signal (AtOpen filename) = false →
  signal (AtHeader filename) = false →
  (∀ j, signal (AtRow filename j) = false) →
  save_to_csv signal entries filename w
  = (Ok tt,
     World (all_entries w) (global_seen_words w)
       (match entries with
        | [] => files w
        | _ => <[filename := fieldnames :: (entry_row <$> entries)]> (files w)
        end)).
Proof.
  intros Hopen Hheader Hrows.
  destruct entries as [|e entries]; [by destruct w|].
  assert (wp (save_to_csv signal (e :: entries) filename)
            (fun _ w' =>
               w' = World (all_entries w) (global_seen_words w)
                      (<[filename := fieldnames :: (entry_row <$> e :: entries)]>
                         (files w)))
            (fun _ _ => False) w) as H.
  { unfold save_to_csv. set (es := e :: entries). destruct w as [all seen fs].
    apply wp_try, wp_bind, wp_tick; [intros Hs; by rewrite Hopen in Hs|].
    intros _. apply wp_bind, wp_modify, wp_bind, wp_tick;
      [intros Hs; by rewrite Hheader in Hs|].
    intros _. apply wp_bind, wp_modify.
    eapply wp_mono; [apply (save_rows_quiet filename fs es Hrows 0 [])|..];
      cbv beta; [|done..].
    simpl. by rewrite lookup_insert_eq, insert_insert_eq. }
  unfold wp in H.
  destruct (save_to_csv signal (e :: entries) filename w) as [[[]|?] w'];
    [by subst w'|done].
Qed.


Hypothesis contained : futures_contained as_completed.




End Pages.




(** ** The columns of every artifact *)

(** C9.  The header is [word, definition, example, contributor, date,
    upvotes, downvotes, page, scraped_date]; the row of a record has
    these nine cells in this order, the cell under a column name being
    the value the record has under that name.  The one writer,
    [save_to_csv], when no Ctrl-C disturbs it, replaces the file by this
    header followed by the rows of the records it is given, in their
    order.  Every file the run has written, a checkpoint of a chunk or
    the final artifact, complete or cut short by an interrupt, is empty
    or holds the header followed by rows of records; in a complete run
    the checkpoint of a chunk is the header and the rows of the records
    the ledger kept of that chunk, and the final artifact is the header
    and the rows of all accumulated records, as the last checkpoint of the
    sample run shows.  The log file is left
    aside: the logger appends its lines to it, also when it is named as
    an artifact. *)
Theorem C9_artifacts_have_fixed_columns
    (signal : point → bool)
    (as_completed : list Z → list (Z * outcome (list entry)))
    (splitext : string → string * string)
    (a : args) (fs : gmap string (list row)) :
  let w := (run signal as_completed splitext a fs).2 in
  fieldnames = [ "word"; "definition"; "example"; "contributor"; "date";
                 "upvotes"; "downvotes"; "page"; "scraped_date" ] ∧
  (∀ e : entry,
     writerow fieldnames (to_dict e) = Some (entry_row e) ∧
     length (entry_row e) = length fieldnames ∧
     ∀ (i : nat) column, fieldnames !! i = Some column →
       entry_row e !! i = cell <$> dict_get column (to_dict e)) ∧
  (∀ (entries : list entry) (filename : string) (w0 : world),
     entries ≠ [] → filename ≠ log_file →
     signal (AtOpen filename) = false →
     signal (AtHeader filename) = false →
     (∀ j, signal (AtRow filename j) = false) →
     save_to_csv signal entries filename w0
     = (Ok tt,
        World (all_entries w0) (global_seen_words w0)
          (<[filename := fieldnames :: (entry_row <$> entries)]> (files w0)))) ∧
  (∀ filename rows,
     filename ≠ log_file →
     files w !! filename = Some rows →
     fs !! filename = Some rows ∨ rows = [] ∨
     ∃ es : list entry, rows = fieldnames :: (entry_row <$> es)) ∧
  (uninterrupted signal → futures_contained as_completed → 1 ≤ workers a →
   ∀ starts, chunk_starts a = Some starts →
     output a ≠ log_file →
     (∀ cs, cs ∈ starts →
        chunk_filename splitext a cs (chunk_end_of a cs) ≠ output a ∧
        chunk_filename splitext a cs (chunk_end_of a cs) ≠ log_file) →
     (all_entries w ≠ [] →
      files w !! output a = Some (fieldnames :: (entry_row <$> all_entries w))) ∧
     (∀ (i : nat) cs, starts !! i = Some cs →
        kept_of_chunk as_completed a (take i starts) cs ≠ [] →
        files w !! chunk_filename splitext a cs (chunk_end_of a cs)
        = Some (fieldnames
                :: (entry_row <$> kept_of_chunk as_completed a (take i starts) cs)))) ∧
  files (run no_signal sample_futures sample_splitext sample_args ∅).2
    !! "out_chunk4-5.csv"
  = Some [ [ "word"; "definition"; "example"; "contributor"; "date";
             "upvotes"; "downvotes"; "page"; "scraped_date" ];
           [ "word5"; "a definition"; "an example"; "someone"; "May 2020";
             "3"; "1"; "5"; "2024-01-01" ] ].
Proof.
  intros w. split; [reflexivity|]. split.
  { intros e. split; [apply writerow_entry|]. split; [reflexivity|].
    intros i column. destruct e.
    do 9 (destruct i as [|i]; [by intros [= <-]|]). done. }
  split.
  { intros entries filename w0 Hne _ Hopen Hheader Hrows.
    rewrite (save_to_csv_quiet signal entries filename w0 Hopen Hheader Hrows).
    by destruct entries. }
  split.
  { intros filename rows _.
    destruct (run_stopped signal as_completed splitext a fs)
      as [(X' & _ & _ & _ & _ & Hfiles) _].
    apply Hfiles. }
  split; [|by vm_compute].
  intros never contained Hworkers starts Hstarts _ Hnames.
  destruct (run_checkpoints signal as_completed splitext never contained
              a fs starts Hworkers Hstarts) as (Hall & Hchunks & Hout & _).
  { intros cs Hcs. by apply Hnames. }
  fold w in Hall, Hchunks, Hout. split.
  - intros Hne. rewrite Hout by done. by rewrite Hall.
  - exact Hchunks.
Qed.

(** ** The dates that the patterns find *)

Lemma str_app_cons (c : ascii) (s1 s2 : string) :
  String c s1 +:+ s2 = String c (s1 +:+ s2).
Proof. reflexivity. Qed.

Lemma str_app_assoc (s1 s2 s3 : string) : (s1 +:+ s2) +:+ s3 = s1 +:+ s2 +:+ s3.
Proof. induction s1 as [|c s1 IH]; [done|]. rewrite !str_app_cons. by f_equal. Qed.

Lemma str_app_nil_r (s : string) : s +:+ EmptyString = s.
Proof. induction s as [|c s IH]; [done|]. rewrite str_app_cons. by f_equal. Qed.

Lemma str_length_app (s1 s2 : string) :
  String.length (s1 +:+ s2) = (String.length s1 + String.length s2)%nat.
Proof.
  induction s1 as [|c s1 IH]; [done|]. rewrite str_app_cons. cbn. by f_equal.
Qed.

Lemma substring_app (s1 s2 : string) :
  String.substring 0 (String.length s1) (s1 +:+ s2) = s1.
Proof.
  induction s1 as [|c s1 IH]; [by destruct s2|].
  rewrite str_app_cons. cbn. by f_equal.
Qed.

Lemma rep_sound (k : Re.cls) (s : string) :
  ∀ lo hi cont r,
    Re.rep k lo hi s cont = Some r →
    ∃ s1 s2, s = s1 +:+ s2 ∧ all_chars (Re.matches k) s1 = true ∧
             within lo hi (String.length s1) ∧ cont s2 = Some r.
Proof.
  assert (∀ lo hi (cont : string → option string) r s,
    match lo with O => cont s | S _ => None end = Some r →
    ∃ s1 s2, s = s1 +:+ s2 ∧ all_chars (Re.matches k) s1 = true ∧
             within lo hi (String.length s1) ∧ cont s2 = Some r) as Hstop.
  { intros [|lo] hi cont r s0 H; [|done]. exists EmptyString, s0.
    repeat split; try done. by destruct hi; cbn; [lia|]. }
  induction s as [|c s IH]; intros lo hi cont r; cbn [Re.rep]; [by apply Hstop|].
  destruct (Re.matches k c && negb (Re.exhausted hi)) eqn:Hc; [|by apply Hstop].
  destruct (Re.rep k (Nat.pred lo) (Nat.pred <$> hi) s cont) as [r'|] eqn:Hrep;
    [|by apply Hstop].
  intros [= <-]. apply andb_prop in Hc as [Hk Hhi].
  destruct (IH _ _ _ _ Hrep) as (s1 & s2 & -> & Hall & [Hlo Hup] & Hcont).
  exists (String c s1), s2. split; [done|]. split; [by cbn; rewrite Hk|].
  split; [|done]. split; [cbn; lia|].
  destruct hi as [[|h]|]; [done| |done]. cbn in *. lia.
Qed.

Lemma items_sound (l : list Re.item) :
  ∀ s cont r,
    Re.items l s cont = Some r →
    ∃ s1 s2, s = s1 +:+ s2 ∧ spans l s1 ∧ cont s2 = Some r.
Proof.
  induction l as [|[k lo hi] l IH]; intros s cont r; cbn [Re.items].
  - intros H. by exists EmptyString, s.
  - intros (s1 & s2 & -> & Hall & Hin & Hrest)%rep_sound.
    apply IH in Hrest as (s3 & s4 & -> & Hspans & Hcont).
    exists (s1 +:+ s3), s4. split; [by rewrite str_app_assoc|]. split; [|done].
    cbn [spans]. by exists s1, s3.
Qed.

Lemma match_here_sound (p : Re.pattern) (s g : string) :
  Re.match_here p s = Some g →
  ∃ h rest, s = h +:+ g +:+ rest ∧ spans (Re.head p) h ∧ spans (Re.group1 p) g.
Proof.
  unfold Re.match_here.
  intros (h & s1 & -> & Hh & (g' & rest & -> & Hg & [= <-])%items_sound)%items_sound.
  exists h, rest.
  replace (String.length (g' +:+ rest) - String.length rest)%nat
    with (String.length g') by (rewrite str_length_app; lia).
  by rewrite substring_app.
Qed.

Lemma search_sound (p : Re.pattern) (s : string) :
  ∀ g, Re.search p s = Some g →
       ∃ before h rest,
         s = before +:+ h +:+ g +:+ rest ∧
         spans (Re.head p) h ∧ spans (Re.group1 p) g.
Proof.
  induction s as [|c s IH]; intros g; cbn [Re.search].
  - destruct (Re.match_here p EmptyString) as [g'|] eqn:Hm; [|done].
    intros [= <-]. apply match_here_sound in Hm as (h & rest & ? & ? & ?).
    by exists EmptyString, h, rest.
  - destruct (Re.match_here p (String c s)) as [g'|] eqn:Hm.
    + intros [= <-]. apply match_here_sound in Hm as (h & rest & ? & ? & ?).
      by exists EmptyString, h, rest.
    + intros (before & h & rest & -> & ? & ?)%IH.
      by exists (String c before), h, rest.
Qed.

Lemma spans_snoc (l : list Re.item) (k : Re.cls) (lo : nat) (hi : option nat) :
  ∀ s, spans (l ++ [Re.Rep k lo hi]) s →
       ∃ body tail, s = body +:+ tail ∧ spans l body ∧
                    all_chars (Re.matches k) tail = true ∧
                    within lo hi (String.length tail).
Proof.
  induction l as [|[k' lo' hi'] l IH]; intros s; cbn [app spans].
  - intros (s1 & s2 & -> & Hall & Hin & ->). exists EmptyString, s1.
    by rewrite str_app_nil_r.
  - intros (s1 & s2 & -> & Hall & Hin & (body & tail & -> & Hb & Ht)%IH).
    exists (s1 +:+ body), tail. split; [by rewrite str_app_assoc|].
    split; [|done]. by exists s1, body.
Qed.

Lemma spans_first (k : Re.cls) (lo : nat) (hi : option nat) (l : list Re.item)
    (s : string) :
  spans (Re.Rep k (S lo) hi :: l) s →
  ∃ c s', s = String c s' ∧ Re.matches k c = true.
Proof.
  cbn [spans]. intros (s1 & s2 & -> & Hall & [Hlo _] & _).
  destruct s1 as [|c s1]; [cbn in Hlo; lia|]. exists c, (s1 +:+ s2).
  split; [done|]. cbn in Hall. by destruct (Re.matches k c).
Qed.

Lemma first_match_found (ps : list Re.pattern) (text g : string) :
  first_match ps text = Some g → ∃ p, p ∈ ps ∧ Re.search p text = Some g.
Proof.
  induction ps as [|p ps IH]; [done|]. cbn [first_match].
  destruct (Re.search p text) as [g'|] eqn:Hs.
  - intros [= <-]. exists p. split; [left|done].
  - intros (q & ? & ?)%IH. exists q. split; [by right|done].
Qed.

Lemma word_not_space (c : ascii) :
  Re.matches Re.Word c = true → Py.isspace c = false.
Proof. destruct c as [[] [] [] [] [] [] [] []]; by vm_compute. Qed.

Lemma digit_not_space (c : ascii) :
  Re.matches Re.Digit c = true → Py.isspace c = false.
Proof. destruct c as [[] [] [] [] [] [] [] []]; by vm_compute. Qed.

Lemma chr_stretch (d : ascii) (s : string) :
  all_chars (Re.matches (Re.Chr d)) s = true →
  within 1 (Some 1%nat) (String.length s) → s = String d EmptyString.
Proof.
  destruct s as [|c [|c' s]]; cbn; intros Hall [Hlo Hhi]; [lia| |lia].
  destruct (Ascii.eqb_spec c d); [by subst|done].
Qed.

Lemma stretch_nonempty (lo : nat) (hi : option nat) (s : string) :
  within (S lo) hi (String.length s) → s ≠ EmptyString.
Proof. intros [Hlo _] ->. cbn in Hlo. lia. Qed.

Lemma by_head_spans (h : string) :
  spans by_head h →
  ∃ sp1 name sp2,
    h = "by" +:+ sp1 +:+ name +:+ sp2 ∧
    sp1 ≠ EmptyString ∧ all_chars Py.isspace sp1 = true ∧
    name ≠ EmptyString ∧
    all_chars (fun c => Re.matches Re.Word c || Py.isspace c) name = true ∧
    sp2 ≠ EmptyString ∧ all_chars Py.isspace sp2 = true.
Proof.
  unfold by_head, Re.one, Re.plus. cbn [spans].
  intros (b & ? & -> & Hb & Hb1 & y & ? & -> & Hy & Hy1 & sp1 & ? & -> & Hsp1 & Hn1 &
          name & ? & -> & Hname & Hn2 & sp2 & ? & -> & Hsp2 & Hn3 & ->).
  apply chr_stretch in Hb as ->; [|done]. apply chr_stretch in Hy as ->; [|done].
  exists sp1, name, sp2. rewrite str_app_nil_r.
  split; [done|]. split; [by eapply stretch_nonempty|]. split; [done|].
  split; [by eapply stretch_nonempty|]. split; [done|].
  split; [by eapply stretch_nonempty|done].
Qed.

Lemma date_group_spans (p : Re.pattern) (g : string) :
  p ∈ date_patterns → spans (Re.group1 p) g →
  ∃ c body year,
    g = String c body +:+ year ∧ Py.isspace c = false ∧
    String.length year = 4%nat ∧ all_chars Py.isdecimal year = true.
Proof.
  assert (∀ k lo hi l,
    (∀ c, Re.matches k c = true → Py.isspace c = false) →
    spans ((Re.Rep k (S lo) hi :: l) ++ [Re.Rep Re.Digit 4 (Some 4%nat)]) g →
    ∃ c body year,
      g = String c body +:+ year ∧ Py.isspace c = false ∧
      String.length year = 4%nat ∧ all_chars Py.isdecimal year = true) as Hshape.
  { intros k lo hi l Hk (body & year & -> & Hbody & Hyear & [Hlo Hhi])%spans_snoc.
    apply spans_first in Hbody as (c & body' & -> & Hc).
    exists c, body', year. split; [done|]. split; [by apply Hk|].
    split; [lia|done]. }
  unfold date_patterns. rewrite !elem_of_cons, elem_of_nil.
  intros [->|[->|[->|[]]]]; cbn [Re.group1]; unfold Re.plus.
  - apply (Hshape Re.Word 0%nat None
             [Re.Rep Re.Space 1 None; Re.Rep Re.Digit 1 (Some 2%nat);
              Re.one (Re.Chr ","); Re.Rep Re.Space 1 None]), word_not_space.
  - apply (Hshape Re.Digit 0%nat (Some 2%nat)
             [Re.Rep Re.Space 1 None; Re.Rep Re.Word 1 None; Re.Rep Re.Space 1 None]),
      digit_not_space.
  - apply (Hshape Re.Word 0%nat None [Re.Rep Re.Space 1 None]), word_not_space.
Qed.

(** X17.  A date that a pattern of [extract_date] finds is a piece of
    the attribution as it stands: it comes after the word "by", white
    space, a stretch of letters, digits, underscores and blanks, and white
    space again; it begins with a character that is no white space and it
    ends with the four digits of the year.  [extract_date] returns it. *)
Theorem X17_matched_date_shape (text g : string) :
  first_match date_patterns text = Some g →
  extract_date text = g ∧
  ∃ before sp1 name sp2 c body year after,
    text = before +:+ "by" +:+ sp1 +:+ name +:+ sp2 +:+ g +:+ after ∧
    sp1 ≠ EmptyString ∧ all_chars Py.isspace sp1 = true ∧
    name ≠ EmptyString ∧
    all_chars (fun c => Re.matches Re.Word c || Py.isspace c) name = true ∧
    sp2 ≠ EmptyString ∧ all_chars Py.isspace sp2 = true ∧
    g = String c body +:+ year ∧ Py.isspace c = false ∧
    String.length year = 4%nat ∧ all_chars Py.isdecimal year = true.
Proof.
  intros Hfirst. split.
  { unfold extract_date. destruct text as [|c text]; [done|].
    cbn [Py.truthy negb]. by rewrite Hfirst. }
  destruct (first_match_found _ _ _ Hfirst) as (p & Hp & Hsearch).
  apply search_sound in Hsearch as (before & h & after & -> & Hh & Hg).
  assert (Re.head p = by_head) as Hhead.
  { revert Hp. unfold date_patterns. rewrite !elem_of_cons, elem_of_nil.
    by intros [->|[->|[->|[]]]]. }
  rewrite Hhead in Hh.
  apply by_head_spans in Hh as (sp1 & name & sp2 & -> & ? & ? & ? & ? & ? & ?).
  destruct (date_group_spans p g Hp Hg) as (c & body & year & Hgeq & ? & ? & ?).
  exists before, sp1, name, sp2, c, body, year, after.
  split; [by rewrite !str_app_assoc|]. done.
Qed.

(** The attribution "by bobby January 5, 2020". *)
Lemma X17_date_witness :
  extract_date "by bobby January 5, 2020" = "January 5, 2020" ∧
  ∃ before sp1 name sp2 c body year after,
    "by bobby January 5, 2020"
    = before +:+ "by" +:+ sp1 +:+ name +:+ sp2 +:+ "January 5, 2020" +:+ after ∧
    sp1 ≠ EmptyString ∧ all_chars Py.isspace sp1 = true ∧
    name ≠ EmptyString ∧
    all_chars (fun c => Re.matches Re.Word c || Py.isspace c) name = true ∧
    sp2 ≠ EmptyString ∧ all_chars Py.isspace sp2 = true ∧
    "January 5, 2020" = String c body +:+ year ∧ Py.isspace c = false ∧
    String.length year = 4%nat ∧ all_chars Py.isdecimal year = true.
Proof.
  apply (X17_matched_date_shape "by bobby January 5, 2020" "January 5, 2020").
  vm_compute. reflexivity.
Defined.

(** ** The cleaning pipeline *)

Section CleanFacts.

Context {float : Type}.
Variable server : list (@Clean.call float) → @Clean.call float → option exn.

Import Clean.

Implicit Types (s : @session float) (P : @call float → Prop).

Lemma grows_refl P s : grows P s s.
Proof. split; [done|]. exists []. by rewrite app_nil_r. Qed.

Lemma grows_trans P s1 s2 s3 : grows P s1 s2 → grows P s2 s3 → grows P s1 s3.
Proof.
  intros [Hc1 (l1 & H1 & Hl1)] [Hc2 (l2 & H2 & Hl2)]. split; [congruence|].
  exists (l1 ++ l2). rewrite H2, H1, app_assoc. split; [done|].
  by apply Forall_app.
Qed.

Lemma grows_weaken P P' s s' :
  (∀ c, P c → P' c) → grows P s s' → grows P' s s'.
Proof.
  intros HP [Hc (l & H & Hl)]. split; [done|]. exists l. split; [done|].
  eapply Forall_impl; [done|]. done.
Qed.

Lemma clean_wp_mono {A} (m : T A) Q Q' E E' s :
  wp m Q E s →
  (∀ a s', Q a s' → Q' a s') → (∀ e s', E e s' → E' e s') →
  wp m Q' E' s.
Proof. unfold wp. destruct (m s) as [[a|e] s']; auto. Qed.

Lemma clean_wp_ret {A} (a : A) Q E s : Q a s → wp (mret a) Q E s.
Proof. done. Qed.

Lemma clean_wp_bind {A B} (m : T A) (f : A → T B) (R : B → session → Prop) E s :
  wp m (fun a => wp (f a) R E) E s → wp (m ≫= f) R E s.
Proof. unfold wp, mbind, T_bind. by destruct (m s) as [[a|e] s']. Qed.

Lemma clean_wp_try {A} (m handler : T A) (catches : exn → bool) Q E s :
  wp m Q (fun e s' => if catches e then wp handler Q E s' else E e s') s →
  wp (try_except m catches handler) Q E s.
Proof.
  unfold wp, try_except. destruct (m s) as [[a|e] s']; [done|].
  by destruct (catches e).
Qed.

Lemma clean_wp_request (c : call) (Q : unit → session → Prop) E s :
  (server (calls s) c = None → Q tt (Session (calls s ++ [c]) (client_bound s))) →
  (∀ e, server (calls s) c = Some e →
        E e (Session (calls s ++ [c]) (client_bound s))) →
  wp (request server c) Q E s.
Proof. unfold wp, request. destruct (server (calls s) c); auto. Qed.

(** A request that satisfies [P]: the session grows by it, whether it
    fails or not. *)
Lemma request_grows P (c : call) s0 s :
  P c → grows P s0 s →
  wp (request server c)
    (fun _ s' => grows P s0 s' ∧ server (calls s) c = None ∧
                 calls s' = calls s ++ [c])
    (fun e s' => grows P s0 s' ∧ server (calls s) c = Some e ∧
                 calls s' = calls s ++ [c]) s.
Proof.
  intros Hc Hg.
  assert (grows P s0 (Session (calls s ++ [c]) (client_bound s))) as Hg'.
  { eapply grows_trans; [done|]. split; [done|]. exists [c]. split; [done|].
    by apply Forall_singleton. }
  apply clean_wp_request; [done|]. by intros e ?.
Qed.

Lemma check_vector_wp s :
  wp (check_vector_search_capability server)
    (fun b s' =>
       grows on_test s s' ∧
       (b = true →
        calls s' = calls s ++ [Command "buildInfo"; Drop test_vector;
                               InsertOne test_vector;
                               CreateIndex test_vector "vec"; Drop test_vector]))
    (fun e s' =>
       grows on_test s s' ∧ is_Exception e = false ∧ ¬ server_contained server) s.
Proof.
  match goal with |- wp _ ?Q0 ?E0 _ => set (Q := Q0); set (E := E0) end.
  pose proof (grows_refl on_test s) as H0.
  assert (∀ e s' h c, grows on_test s s' → server h c = Some e →
            if is_Exception e then wp (mret false) Q E s' else E e s') as Hout.
  { intros e s' h c Hg Hs. destruct (is_Exception e) eqn:He.
    - by apply clean_wp_ret.
    - split; [done|]. split; [done|]. intros Hc. by rewrite (Hc h c e) in He. }
  assert (∀ e s' h c, grows on_test s s' → server h c = Some e →
            if is_OperationFailure e
            then wp (mret false) Q
                   (fun e s'' =>
                      if is_Exception e then wp (mret false) Q E s'' else E e s'') s'
            else if is_Exception e then wp (mret false) Q E s' else E e s') as Hin.
  { intros e s' h c Hg Hs.
    destruct (is_OperationFailure e); [by apply clean_wp_ret|].
    by apply (Hout e s' h c). }
  unfold check_vector_search_capability. apply clean_wp_try, clean_wp_bind.
  eapply clean_wp_mono; [by apply (request_grows on_test _ s s)|..]; cbv beta;
    [|by intros e s1 (? & ? & _); eapply Hout].
  intros _ s1 (H1 & _ & Hc1). apply clean_wp_bind.
  eapply clean_wp_mono; [by apply (request_grows on_test _ s s1)|..]; cbv beta;
    [|by intros e s2 (? & ? & _); eapply Hout].
  intros _ s2 (H2 & _ & Hc2). apply clean_wp_bind.
  eapply clean_wp_mono; [by apply (request_grows on_test _ s s2)|..]; cbv beta;
    [|by intros e s3 (? & ? & _); eapply Hout].
  intros _ s3 (H3 & _ & Hc3). apply clean_wp_try, clean_wp_bind.
  eapply clean_wp_mono; [by apply (request_grows on_test _ s s3)|..]; cbv beta;
    [|by intros e s4 (? & ? & _); eapply Hin].
  intros _ s4 (H4 & _ & Hc4). apply clean_wp_bind.
  eapply clean_wp_mono; [by apply (request_grows on_test _ s s4)|..]; cbv beta;
    [|by intros e s5 (? & ? & _); eapply Hin].
  intros _ s5 (H5 & _ & Hc5). apply clean_wp_ret. split; [done|]. intros _.
  rewrite Hc5, Hc4, Hc3, Hc2, Hc1, <-!app_assoc. done.
Qed.

Lemma create_fallback_indexes_wp s :
  wp (create_fallback_indexes server)
    (fun _ s' => grows is_index s s')
    (fun e s' => grows is_index s s' ∧ is_Exception e = false) s.
Proof.
  match goal with |- wp _ ?Q0 ?E0 _ => set (Q := Q0); set (E := E0) end.
  pose proof (grows_refl is_index s) as H0.
  assert (∀ e s', grows is_index s s' →
            if is_Exception e then wp (mret tt) Q E s' else E e s') as Hout.
  { intros e s' Hg. destruct (is_Exception e) eqn:He; [|done].
    by apply clean_wp_ret. }
  unfold create_fallback_indexes. apply clean_wp_try, clean_wp_bind.
  eapply clean_wp_mono; [by apply (request_grows is_index _ s s)|..]; cbv beta;
    [|by intros e s1 (? & _); apply Hout].
  intros _ s1 (H1 & _). apply clean_wp_bind.
  eapply clean_wp_mono; [by apply (request_grows is_index _ s s1)|..]; cbv beta;
    [|by intros e s2 (? & _); apply Hout].
  intros _ s2 (H2 & _). apply clean_wp_bind.
  eapply clean_wp_mono; [by apply (request_grows is_index _ s s2)|..]; cbv beta;
    [|by intros e s3 (? & _); apply Hout].
  intros _ s3 (H3 & _). apply clean_wp_bind.
  eapply clean_wp_mono; [by apply (request_grows is_index _ s s3)|..]; cbv beta;
    [|by intros e s4 (? & _); apply Hout].
  intros _ s4 (H4 & _).
  eapply clean_wp_mono; [by apply (request_grows is_index _ s s4)|..]; cbv beta;
    [|by intros e s5 (? & _); apply Hout].
  by intros [] s5 (H5 & _).
Qed.

(** From [s1], reached from [s] by the capability check, through the
    insertion and the indexes. *)
Lemma inserted_then_indexed_intro (data : list doc) s s1 s2 s3 :
  grows on_test s s1 →
  calls s2 = calls s1 ++ [InsertMany slang_terms data] →
  client_bound s2 = client_bound s1 →
  grows is_index s2 s3 →
  (calls s3 ≠ calls s2 → server (calls s1) (InsertMany slang_terms data) = None) →
  inserted_then_indexed server data s s3.
Proof.
  intros [Hb1 (l1 & Hc1 & Hl1)] Hc2 Hb2 [Hb3 (l3 & Hc3 & Hl3)] Hok.
  split; [congruence|].
  exists l1, (InsertMany slang_terms data :: l3). split.
  { rewrite Hc3, Hc2, Hc1, <-!app_assoc. done. }
  split; [done|]. right. exists l3. split; [done|]. split; [done|].
  intros Hne. rewrite <-Hc1. apply Hok. rewrite Hc3. intros Heq.
  apply Hne. rewrite <-(app_nil_r (calls s2)) in Heq at 2.
  by apply app_inv_head in Heq.
Qed.

Lemma insert_and_index_wp (data : list doc) s :
  wp (insert_and_index server data)
    (fun _ s' => inserted_then_indexed server data s s')
    (fun _ s' => inserted_then_indexed server data s s') s.
Proof.
  unfold insert_and_index. apply clean_wp_bind.
  eapply clean_wp_mono; [apply check_vector_wp|..]; cbv beta.
  2:{ intros e s1 ([Hb (l1 & Hc & Hl)] & _ & Hnc). split; [done|].
      exists l1, []. rewrite app_nil_r. split; [done|]. split; [done|]. by left. }
  intros has_vector_search s1 [H1 _]. apply clean_wp_bind.
  apply clean_wp_request.
  2:{ intros e He.
      apply (inserted_then_indexed_intro data s s1
               (Session (calls s1 ++ [InsertMany slang_terms data]) (client_bound s1))
               (Session (calls s1 ++ [InsertMany slang_terms data]) (client_bound s1)));
        [done|done|done|apply grows_refl|done]. }
  intros Hok.
  set (s2 := Session (calls s1 ++ [InsertMany slang_terms data]) (client_bound s1)).
  assert (∀ s3, grows is_index s2 s3 → inserted_then_indexed server data s s3)
    as Hdone.
  { intros s3 H3.
    by apply (inserted_then_indexed_intro data s s1 s2 s3). }
  assert (wp (create_fallback_indexes server)
            (fun _ s' => inserted_then_indexed server data s s')
            (fun _ s' => inserted_then_indexed server data s s') s2) as Hfall.
  { eapply clean_wp_mono; [apply create_fallback_indexes_wp|..]; cbv beta.
    - intros _ s3 H3. by apply Hdone.
    - intros e s3 [H3 _]. by apply Hdone. }
  destruct has_vector_search; [|done].
  apply clean_wp_try.
  pose proof (grows_refl is_index s2) as H2.
  eapply clean_wp_mono; [by apply (request_grows is_index _ s2 s2)|..]; cbv beta.
  - intros _ s3 (H3 & _). by apply Hdone.
  - intros e s3 (H3 & _). destruct (is_OperationFailure e); [|by apply Hdone].
    eapply clean_wp_mono; [apply create_fallback_indexes_wp|..]; cbv beta.
    + intros _ s4 H4. apply Hdone. by eapply grows_trans.
    + intros e' s4 [H4 _]. apply Hdone. by eapply grows_trans.
Qed.

(** The three ways of [save_to_mongodb]: the data do not pass the
    verification; the client cannot be made; the client is made, used
    and closed. *)
Lemma save_to_mongodb_cases (data : list doc) (connection_string : string) :
  let r := save_to_mongodb server data connection_string fresh in
  (verify_data_structure data ≠ Ok true ∧ r = (Ok tt, fresh)) ∨
  (verify_data_structure data = Ok true ∧
   ∃ e, server [] (NewClient connection_string) = Some e ∧
        r = (if is_Exception e then Ok tt else Raise e,
             Session [NewClient connection_string] false)) ∨
  (verify_data_structure data = Ok true ∧
   server [] (NewClient connection_string) = None ∧
   ∃ s1, inserted_then_indexed server data
           (Session [NewClient connection_string] true) s1 ∧
         r.2 = Session (calls s1 ++ [Close]) true ∧
         match server (calls s1) Close with
         | Some e => r.1 = Raise e
         | None => ∀ e, r.1 = Raise e → is_Exception e = false
         end).
Proof.
  intros r. assert (r = save_to_mongodb server data connection_string fresh) as Hr
    by done.
  clearbody r. revert Hr.
  unfold save_to_mongodb, try_finally, try_except, mbind, T_bind, lift.
  destruct (verify_data_structure data) as [[|]|e] eqn:Hv; cbn [negb].
  - unfold request at 1. cbn [fresh calls client_bound app].
    destruct (server [] (NewClient connection_string)) as [e|] eqn:Hnew.
    + intros ->. right. left. split; [done|]. exists e. split; [done|].
      by destruct (is_Exception e).
    + unfold bind_client. cbn [calls client_bound].
      pose proof (insert_and_index_wp data
                    (Session [NewClient connection_string] true)) as Hw.
      unfold wp in Hw.
      destruct (insert_and_index server data
                  (Session [NewClient connection_string] true)) as [[[]|e] s1];
        destruct Hw as [Hb Hshape]; cbn [client_bound] in Hb.
      * rewrite Hb. unfold request.
        destruct (server (calls s1) Close) as [e'|] eqn:Hclose; intros ->;
          right; right; (split; [done|]); (split; [done|]); exists s1;
          (split; [by split|]); cbn [fst snd]; rewrite Hb, Hclose; done.
      * destruct (is_Exception e) eqn:He; cbn [mret T_ret]; rewrite Hb;
          unfold request;
          destruct (server (calls s1) Close) as [e'|] eqn:Hclose; intros ->;
          right; right; (split; [done|]); (split; [done|]); exists s1;
          (split; [by split|]); cbn [fst snd]; rewrite Hb, Hclose; try done.
        split; [done|]. by intros ? [= <-].
  - intros ->. left. by split.
  - assert (is_Exception e = true) as He.
    { revert Hv. unfold verify_data_structure.
      destruct data as [|sample ?]; [done|].
      destruct (field_missing sample required_fields); [done|].
      destruct (sample !! "embedding") as [[]|]; cbn; by intros [= <-]. }
    rewrite He. intros ->. left. by split.
Qed.

Lemma field_missing_elem (sample : @doc float) (fields : list string) (field : string) :
  field ∈ fields → sample !! field = None → field_missing sample fields = true.
Proof.
  induction fields as [|f fields IH]; [by intros ?%elem_of_nil|].
  intros [->|Hin]%elem_of_cons Hnone; cbn [field_missing].
  - by rewrite Hnone.
  - destruct (sample !! f); [by apply IH|done].
Qed.

(** X18.  [verify_data_structure] reads the first document and no
    other: an empty list fails, what follows the first document has no
    part in the answer, and a first document that lacks a required field
    fails.  On the documents of [format_output] the answer is whether
    the embedding of the first row has 384 components; [format_output]
    gives one document for each row. *)
Theorem X18_verification_reads_first_document :
  verify_data_structure ([] : list (@doc float)) = Ok false ∧
  (∀ (sample : @doc float) rest rest',
     verify_data_structure (sample :: rest)
     = verify_data_structure (sample :: rest')) ∧
  (∀ (sample : @doc float) rest field,
     field ∈ required_fields → sample !! field = None →
     verify_data_structure (sample :: rest) = Ok false) ∧
  (∀ (r : @frame_row float) df,
     verify_data_structure (format_output (r :: df))
     = Ok (Z.of_nat (length (embedding r)) =? 384)) ∧
  (∀ df : list (@frame_row float), length (format_output df) = length df).
Proof.
  split; [done|]. split; [done|]. split; [|split].
  - intros sample rest field Hin Hnone. unfold verify_data_structure.
    by rewrite (field_missing_elem sample required_fields field).
  - intros r df. unfold format_output, verify_data_structure. cbn [fmap list_fmap].
    reflexivity.
  - intros df. unfold format_output. apply length_fmap.
Qed.

(** X19.  The capability check raises no [Exception]; whatever the
    server does, every call it makes is the command [buildInfo] or a
    call on its own test collection ([on_test]), never one on the
    collection of the terms and never [close].  It answers
    [True] only after all of its five calls, the last one the drop of
    the test collection.  When the index of the test cannot be created,
    the answer is [False] and the test collection is not dropped: the
    document inserted for the test stays. *)
Theorem X19_capability_check (s : session) :
  let r := check_vector_search_capability server s in
  (∀ e, r.1 = Raise e → is_Exception e = false) ∧
  grows on_test s r.2 ∧
  (r.1 = Ok true →
   calls r.2 = calls s ++ [Command "buildInfo"; Drop test_vector;
                           InsertOne test_vector;
                           CreateIndex test_vector "vec"; Drop test_vector]) ∧
  (∀ e,
     server (calls s) (Command "buildInfo") = None →
     server (calls s ++ [Command "buildInfo"]) (Drop test_vector) = None →
     server (calls s ++ [Command "buildInfo"; Drop test_vector])
       (InsertOne test_vector) = None →
     server (calls s ++ [Command "buildInfo"; Drop test_vector;
                         InsertOne test_vector])
       (CreateIndex test_vector "vec") = Some e →
     is_Exception e = true →
     r = (Ok false,
          Session (calls s ++ [Command "buildInfo"; Drop test_vector;
                               InsertOne test_vector;
                               CreateIndex test_vector "vec"])
            (client_bound s))).
Proof.
  intros r. pose proof (check_vector_wp s) as Hw. unfold wp in Hw. fold r in Hw.
  split; [|split; [|split]].
  - intros e He. destruct r as [[b|e'] s']; [done|]. cbn in He.
    injection He as ->. by destruct Hw as (_ & ? & _).
  - destruct r as [[b|e'] s']; by destruct Hw.
  - intros Hr. destruct r as [[b|e'] s']; [|done]. cbn in Hr.
    injection Hr as ->. destruct Hw as [_ Hw]. by apply Hw.
  - intros e H1 H2 H3 H4 He. subst r.
    unfold check_vector_search_capability, try_except, mbind, T_bind, request.
    cbn [calls client_bound]. rewrite H1. cbn [calls client_bound].
    rewrite H2. cbn [calls client_bound]. rewrite <-!app_assoc. cbn [app].
    rewrite H3. cbn [calls client_bound]. rewrite <-!app_assoc. cbn [app].
    rewrite H4. cbn [calls client_bound]. rewrite <-?app_assoc. cbn [app].
    destruct (is_OperationFailure e); [done|]. by rewrite He.
Qed.

(** X20.  [save_to_mongodb] closes the client it has made, once and as
    its last call, also when a call in between fails, and closes
    nothing when no client was made.  Data that do not pass the
    verification reach no server: no call is made.  No [Exception]
    leaves the function but one that [client.close()] raises. *)
Theorem X20_client_closed_when_made (data : list doc) (connection_string : string) :
  let r := save_to_mongodb server data connection_string fresh in
  (verify_data_structure data ≠ Ok true → r = (Ok tt, fresh)) ∧
  (client_bound r.2 = false →
   calls r.2 = [] ∨ calls r.2 = [NewClient connection_string]) ∧
  (client_bound r.2 = true →
   server [] (NewClient connection_string) = None ∧
   ∃ l, calls r.2 = NewClient connection_string :: l ++ [Close] ∧
        Forall (fun c => c ≠ Close ∧ ∀ cs, c ≠ NewClient cs) l) ∧
  (∀ e, r.1 = Raise e → is_Exception e = true →
        ∃ h, calls r.2 = h ++ [Close] ∧ server h Close = Some e).
Proof.
  intros r.
  destruct (save_to_mongodb_cases data connection_string)
    as [[Hv Hr]|[(Hv & e & Hnew & Hr)|(Hv & Hnew & s1 & Hshape & Hs & Hclose)]];
    fold r in Hr || fold r in Hs, Hclose.
  - rewrite Hr. cbn. split; [done|]. split; [by left|]. by split.
  - rewrite Hr. cbn [fst snd calls client_bound].
    split; [done|]. split; [by right|]. split; [done|].
    intros e'. destruct (is_Exception e) eqn:He; [done|]. intros [= <-]. congruence.
  - rewrite Hs. cbn [calls client_bound]. split; [done|]. split; [done|].
    destruct Hshape as (_ & l1 & l2 & Hc & Hl1 & Hl2). cbn [calls app] in Hc.
    split.
    + intros _. split; [done|]. exists (l1 ++ l2). split; [by rewrite Hc|].
      apply Forall_app. split.
      * eapply Forall_impl; [done|]. by intros [] ?.
      * destruct Hl2 as [[-> _]|(l3 & -> & Hl3 & _)]; [done|].
        apply Forall_cons. split; [done|].
        eapply Forall_impl; [done|]. by intros [] ?.
    + intros e Hr He. exists (calls s1). split; [done|].
      destruct (server (calls s1) Close) as [e'|]; [congruence|].
      rewrite (Hclose e Hr) in He. done.
Qed.

Lemma split_past {A} (P : A → Prop) (a b h rest : list A) (x : A) :
  Forall P a → ¬ P x → a ++ b = h ++ x :: rest →
  ∃ h', h = a ++ h' ∧ b = h' ++ x :: rest.
Proof.
  revert h. induction a as [|y a IH]; intros h Ha Hx Heq.
  - by exists h.
  - apply Forall_cons in Ha as [Hy Ha]. destruct h as [|z h].
    + injection Heq as -> _. done.
    + injection Heq as -> Heq. destruct (IH h Ha Hx Heq) as (h' & -> & ->).
      by exists h'.
Qed.

(** X21.  [save_to_mongodb] inserts the documents it was given, in one
    call at most, and creates an index on the collection of the terms
    only after that insertion has succeeded.  Whether the server has
    vector search does not decide the insertion: on a server whose
    failures are [Exception]s, a client that was made is followed by the
    insertion. *)
Theorem X21_indexes_follow_the_insertion
    (data : list doc) (connection_string : string) :
  let r := save_to_mongodb server data connection_string fresh in
  (∀ collection data', InsertMany collection data' ∈ calls r.2 →
     collection = slang_terms ∧ data' = data) ∧
  (∀ h name rest,
     calls r.2 = h ++ CreateIndex slang_terms name :: rest →
     ∃ h1 h2, h = h1 ++ InsertMany slang_terms data :: h2 ∧
              server h1 (InsertMany slang_terms data) = None) ∧
  (∀ h collection data' rest,
     calls r.2 = h ++ InsertMany collection data' :: rest →
     ∀ collection' data'', InsertMany collection' data'' ∉ h ++ rest) ∧
  (server_contained server → client_bound r.2 = true →
   InsertMany slang_terms data ∈ calls r.2).
Proof.
  intros r.
  destruct (save_to_mongodb_cases data connection_string)
    as [[Hv Hr]|[(Hv & e & Hnew & Hr)|(Hv & Hnew & s1 & Hshape & Hs & Hclose)]];
    fold r in Hr || fold r in Hs, Hclose.
  - rewrite Hr. cbn. split; [by intros ?? ?%elem_of_nil|].
    split; [by intros [] ???|]. split; [|done]. by intros [] ????.
  - rewrite Hr. cbn [fst snd calls client_bound].
    split; [by intros ?? [=]%list_elem_of_singleton|].
    split; [by intros [|? []] ???|]. split; [|done]. by intros [|? []] ????.
  - rewrite Hs. cbn [calls client_bound].
    destruct Hshape as (_ & l1 & l2 & Hc & Hl1 & Hl2). cbn [calls app] in Hc.
    rewrite Hc. split; [|split; [|split]].
    + intros collection data'.
      rewrite elem_of_app, elem_of_cons, elem_of_app, list_elem_of_singleton.
      intros [[[=]|[Hin|Hin]]|[=]].
      * rewrite Forall_forall in Hl1. by apply Hl1 in Hin.
      * destruct Hl2 as [[-> _]|(l3 & -> & Hl3 & _)]; [by apply elem_of_nil in Hin|].
        apply elem_of_cons in Hin as [[= -> ->]|Hin]; [done|].
        rewrite Forall_forall in Hl3. by apply Hl3 in Hin.
    + intros h name rest Heq.
      assert (slang_terms ≠ test_vector) as Hne by done.
      assert (Forall (fun c => c ≠ CreateIndex slang_terms name)
                (NewClient connection_string :: l1)) as Ha.
      { apply Forall_cons. split; [done|].
        eapply Forall_impl; [done|]. intros c Hc' ->. by destruct Hc'. }
      destruct (split_past _ (NewClient connection_string :: l1) (l2 ++ [Close])
                  h rest (CreateIndex slang_terms name) Ha)
        as (h' & -> & Hb);
        [tauto|rewrite <-Heq; cbn [app]; by rewrite <-app_assoc|].
      destruct Hl2 as [[-> _]|(l3 & -> & Hl3 & Hok)].
      { by destruct h' as [|? []]. }
      destruct h' as [|c h']; [done|]. injection Hb as <- Hb.
      exists (NewClient connection_string :: l1), h'. split; [done|].
      apply Hok. intros ->. by destruct h' as [|? []].
    + intros h collection data' rest Heq collection' data''.
      assert (Forall (fun c => ∀ col d, c ≠ InsertMany col d)
                (NewClient connection_string :: l1)) as Ha.
      { apply Forall_cons. split; [done|].
        eapply Forall_impl; [done|]. by intros [] ???. }
      destruct (split_past _ (NewClient connection_string :: l1) (l2 ++ [Close])
                  h rest (InsertMany collection data') Ha)
        as (h' & -> & Hb);
        [intros H; by apply (H collection data')
        |rewrite <-Heq; cbn [app]; by rewrite <-app_assoc|].
      destruct Hl2 as [[-> _]|(l3 & -> & Hl3 & _)].
      { by destruct h' as [|? []]. }
      assert (∀ c, c ∈ l3 ++ [Close] → ∀ col d, c ≠ InsertMany col d) as Hl3'.
      { intros c [Hin| ->%list_elem_of_singleton]%elem_of_app; [|done].
        rewrite Forall_forall in Hl3. specialize (Hl3 c Hin). by destruct c. }
      rewrite Forall_forall in Ha.
      destruct h' as [|c h'].
      * injection Hb as _ _ <-. rewrite app_nil_r.
        intros [Hin|Hin]%elem_of_app.
        -- by apply (Ha _ Hin collection' data'').
        -- by apply (Hl3' _ Hin collection' data'').
      * injection Hb as <- Hb. exfalso.
        apply (Hl3' (InsertMany collection data')) with collection data'; [|done].
        rewrite Hb. apply elem_of_app. right. left.
    + intros Hcont _.
      destruct Hl2 as [[_ Hnc]|(l3 & -> & _)]; [done|]. set_solver.
Qed.

End CleanFacts.
